(** * codejoin-backend: the code-execution service (codeExecution.js)

    A shallow embedding of [CodeExecutionService]: request validation,
    the execution-record store with its two backends, the container run
    ([runCode]) and the Docker log demultiplexer ([parseDockerLogs]),
    followed by the properties of the specification that were checked
    against them.

    Modelling conventions.
    - A JavaScript string is a [string]; [String.length] stands for the
      JavaScript [length].
    - A [Buffer] is a [list byte].
    - A JavaScript number that holds a request timeout is the exact
      rational value ([Q]) of the double; its division is rounded as
      doubles are ([to_double]).  Exit codes, offsets and lengths are
      integers.
    - A promise that settles is an [outcome]: [Resolved v] or
      [Rejected msg], [msg] being the [message] of the thrown [Error].
    - What the platform (Node, dockerode, Redis, uuid, the clock) answers
      is an explicit argument of the function that asks. *)

From Stdlib Require Import ZArith NArith QArith Qround Strings.Byte Ascii String List Lia.
From Stdlib Require Import DecimalString Lqa.
From stdpp Require Import base option list strings gmap.

Local Open Scope string_scope.
Local Open Scope list_scope.
Local Open Scope nat_scope.

(** ** Platform functions

    [Buffer.prototype.toString('utf8')], [Buffer.from(string)] and
    [String.prototype.trim] belong to Node, not to the repository.  The
    service is verified for every implementation of them that maps the
    empty buffer to the empty string and trims the empty string to itself. *)

Class NodeRuntime := {
  utf8 : list byte → string;
  Buffer_from : string → list byte;
  trim : string → string;
  utf8_nil : utf8 [] = "";
  trim_empty : trim "" = ""
}.

(** ** Buffers *)

Definition byte_val (b : byte) : N := Byte.to_N b.

(** [buffer.readUInt8(offset)], for an offset inside the buffer. *)
Definition readUInt8 (buffer : list byte) (offset : nat) : N :=
  match buffer !! offset with
  | Some b => byte_val b
  | None => 0%N
  end.

(** [buffer.readUInt32BE(offset)]: four bytes, most significant first. *)
Definition readUInt32BE (buffer : list byte) (offset : nat) : N :=
  (readUInt8 buffer offset * 16777216
   + readUInt8 buffer (offset + 1) * 65536
   + readUInt8 buffer (offset + 2) * 256
   + readUInt8 buffer (offset + 3))%N.

(** [buffer.slice(start, end)] for [start <= end <= buffer.length]. *)
Definition slice (buffer : list byte) (start stop : nat) : list byte :=
  take (stop - start) (drop start buffer).

(** [chunks.join('')] *)
Definition join (chunks : list string) : string :=
  foldr String.append "" chunks.

(** ** The log demultiplexer *)

Record container_output := { stdout : string; stderr : string }.

Section Demux.
Context {rt : NodeRuntime}.

(** The [while] loop of [parseDockerLogs].  Every iteration that does not
    leave the loop moves [offset] forward by at least 8, so the loop body
    runs at most [buffer.length / 8] times; [fuel] bounds that number. *)
Fixpoint parseLoop (fuel : nat) (buffer : list byte) (offset : nat)
    (stdout_chunks stderr_chunks : list string) : list string * list string :=
  match fuel with
  | O => (stdout_chunks, stderr_chunks)
  | S fuel' =>
    if decide (offset + 8 ≤ length buffer) then
      let streamType := readUInt8 buffer offset in
      let frameLength := N.to_nat (readUInt32BE buffer (offset + 4)) in
      let frameStart := offset + 8 in
      let frameEnd := frameStart + frameLength in
      if decide (length buffer < frameEnd) then (stdout_chunks, stderr_chunks)
      else
        let chunk := utf8 (slice buffer frameStart frameEnd) in
        if decide (streamType = 1%N) then
          parseLoop fuel' buffer frameEnd (stdout_chunks ++ [chunk]) stderr_chunks
        else if decide (streamType = 2%N) then
          parseLoop fuel' buffer frameEnd stdout_chunks (stderr_chunks ++ [chunk])
        else
          parseLoop fuel' buffer frameEnd (stdout_chunks ++ [chunk]) stderr_chunks
    else (stdout_chunks, stderr_chunks)
  end.

(** The chunk arrays when the loop is left. *)
Definition parsedChunks (buffer : list byte) : list string * list string :=
  parseLoop (length buffer) buffer 0 [] [].

Definition parseDockerLogs (buffer : list byte) : container_output :=
  let '(stdout_chunks, stderr_chunks) := parsedChunks buffer in
  if decide (length stdout_chunks = 0 ∧ length stderr_chunks = 0) then
    let fallback := utf8 buffer in
    {| stdout := trim fallback; stderr := "" |}
  else
    {| stdout := trim (join stdout_chunks); stderr := trim (join stderr_chunks) |}.

End Demux.

(** ** Language configurations *)

(** [s.replace(pattern, replacement)] with a string pattern: the first
    occurrence only. *)
Fixpoint replace_first (pattern replacement s : string) : string :=
  if String.prefix pattern s then
    replacement +:+ String.substring (String.length pattern)
                      (String.length s - String.length pattern) s
  else
    match s with
    | EmptyString => EmptyString
    | String c rest => String c (replace_first pattern replacement rest)
    end.

Record language_config := {
  image : string;
  extension : string;
  runCommand : string → string
}.

Definition javascript_config : language_config :=
  {| image := "node:18-alpine"; extension := ".js";
     runCommand := λ filename, "node " +:+ filename |}.

Definition python_config : language_config :=
  {| image := "python:3.11-alpine"; extension := ".py";
     runCommand := λ filename, "python " +:+ filename |}.

Definition java_config : language_config :=
  {| image := "openjdk:17-alpine"; extension := ".java";
     runCommand := λ filename,
       let className := replace_first ".java" "" filename in
       "javac " +:+ filename +:+ " && java " +:+ className |}.

Definition cpp_config : language_config :=
  {| image := "gcc:latest"; extension := ".cpp";
     runCommand := λ filename,
       let executable := replace_first ".cpp" "" filename in
       "g++ -o " +:+ executable +:+ " " +:+ filename +:+ " && ./" +:+ executable |}.

Definition c_config : language_config :=
  {| image := "gcc:latest"; extension := ".c";
     runCommand := λ filename,
       let executable := replace_first ".c" "" filename in
       "gcc -o " +:+ executable +:+ " " +:+ filename +:+ " && ./" +:+ executable |}.

(** [LANGUAGE_CONFIG[language]] for the own keys of the table. *)
Definition LANGUAGE_CONFIG (language : string) : option language_config :=
  if decide (language = "javascript") then Some javascript_config
  else if decide (language = "python") then Some python_config
  else if decide (language = "java") then Some java_config
  else if decide (language = "cpp") then Some cpp_config
  else if decide (language = "c") then Some c_config
  else None.

(** ** Request validation *)

Module Req.
(** The body of [POST /api/execute], a JSON object.  A field is [None]
    when the key is absent ([undefined]); [other_keys] are the keys of the
    body that the schema does not name.  Fields of another JSON type than
    the schema's are outside this model. *)
Record request := {
  language : option string;
  code : option string;
  input : option string;
  timeout : option Q;
  other_keys : list string
}.
End Req.
Import Req (request).

(** The failures of [executionRequestSchema], in the order of its keys
    (Joi stops at the first one). *)
Inductive validation_error :=
  | language_required
  | language_not_valid
  | code_required
  | code_empty
  | code_too_long
  | input_too_long
  | timeout_unsafe
  | timeout_below_min
  | key_not_allowed.

(** The [value] of a successful validation, defaults filled in. *)
Record validated := {
  v_language : string;
  v_code : string;
  v_input : option string;
  v_timeout : Q
}.

Definition valid_languages : list string :=
  ["javascript"; "python"; "java"; "cpp"; "c"].

(** [Joi.string().valid(...).required()] *)
Definition validate_language (language : option string) : validation_error + string :=
  match language with
  | None => inl language_required
  | Some l => if decide (l ∈ valid_languages) then inr l else inl language_not_valid
  end.

(** [Joi.string().max(50000).required()]; a Joi string is not empty
    unless the schema allows it. *)
Definition validate_code (code : option string) : validation_error + string :=
  match code with
  | None => inl code_required
  | Some c =>
    if decide (c = "") then inl code_empty
    else if decide (Z.of_nat (String.length c) ≤ 50000)%Z then inr c
    else inl code_too_long
  end.

(** [Joi.string().max(10000).allow('').optional()] *)
Definition validate_input (input : option string) : validation_error + option string :=
  match input with
  | None => inr None
  | Some i =>
    if decide (Z.of_nat (String.length i) ≤ 10000)%Z then inr (Some i)
    else inl input_too_long
  end.

(** [Number.MAX_SAFE_INTEGER], 2^53 - 1. *)
Definition MAX_SAFE_INTEGER : Q := 9007199254740991.

(** [a > b] on numbers. *)
Definition Qgt_bool (a b : Q) : bool := negb (Qle_bool a b).

(** [Joi.number().min(1).default(10)].  A Joi number is refused as unsafe
    when it lies outside the safe integers, before the rules of the
    schema are tried. *)
Definition validate_timeout (timeout : option Q) : validation_error + Q :=
  match timeout with
  | None => inr 10%Q
  | Some t =>
    if Qgt_bool t MAX_SAFE_INTEGER || Qgt_bool (- MAX_SAFE_INTEGER) t
    then inl timeout_unsafe
    else if Qle_bool 1 t then inr t else inl timeout_below_min
  end.

(** [executionRequestSchema.validate]: the keys of the schema in their
    order, then the keys it does not name, which a Joi object refuses. *)
Definition validate (r : request) : validation_error + validated :=
  match validate_language (Req.language r) with
  | inl e => inl e
  | inr language =>
    match validate_code (Req.code r) with
    | inl e => inl e
    | inr code =>
      match validate_input (Req.input r) with
      | inl e => inl e
      | inr input =>
        match validate_timeout (Req.timeout r) with
        | inl e => inl e
        | inr timeout =>
          match Req.other_keys r with
          | [] => inr {| v_language := language; v_code := code;
                         v_input := input; v_timeout := timeout |}
          | _ :: _ => inl key_not_allowed
          end
        end
      end
    end
  end.

(** A number is truthy unless it is zero. *)
Definition truthy (t : Q) : bool := negb (Qeq_bool t 0).

(** The integer nearest to [x], the even one of the two when [x] is half
    way. *)
Definition round_half_even (x : Q) : Z :=
  let f := Qfloor x in
  match Qcompare (x - inject_Z f) (1 # 2) with
  | Lt => f
  | Gt => (f + 1)%Z
  | Eq => if Z.even f then f else (f + 1)%Z
  end.

(** The double nearest to [q], for [q >= 1]: with [2^e <= q < 2^(e+1)]
    the doubles around [q] are the multiples of [2^(e-52)], and [q] is
    rounded to the nearest of them, ties to the even multiple.  (A
    quotient of a double by 1000 does not overflow.) *)
Definition to_double (q : Q) : Q :=
  let e := Z.log2 (Qfloor q) in
  if (52 <=? e)%Z then
    let ulp := inject_Z (2 ^ (e - 52)) in
    (inject_Z (round_half_even (q / ulp)) * ulp)%Q
  else
    let scale := inject_Z (2 ^ (52 - e)) in
    (inject_Z (round_half_even (q * scale)) / scale)%Q.

(** [Math.ceil(timeout / 1000)], the division being that of doubles. *)
Definition ceil_seconds (t : Q) : Q := inject_Z (Qceiling (to_double (t / 1000))).

(** The first statement of [executeCode]: a timeout above 1000 is taken
    to be in milliseconds and overwritten in the request. *)
Definition normalizeTimeout (r : request) : request :=
  match Req.timeout r with
  | Some t =>
    if truthy t && Qgt_bool t 1000
    then {| Req.language := Req.language r; Req.code := Req.code r;
            Req.input := Req.input r;
            Req.timeout := Some (ceil_seconds t);
            Req.other_keys := Req.other_keys r |}
    else r
  | None => r
  end.

(** ** Execution records *)

Inductive exec_status := pending | completed | failed.

#[global] Instance exec_status_eq_dec : EqDecision exec_status.
Proof. solve_decision. Defined.

(** The object literal of [executeCode].  [input] is [None] for
    [undefined]; [endTime], [output] and [error] are [None] for [null]. *)
Record execution := {
  id : string;
  status : exec_status;
  language : string;
  code : string;
  input : option string;
  timeout : Q;
  startTime : string;
  endTime : option string;
  output : option string;
  error : option string
}.

Definition terminal (s : exec_status) : Prop := s = completed ∨ s = failed.

#[global] Instance terminal_dec s : Decision (terminal s).
Proof. unfold terminal. solve_decision. Defined.

(** ** The store: Redis first, the in-process map as fallback *)

(** [redis] maps a key to the record whose JSON text it holds (parsing
    the text of a record gives that record back); [memoryStorage] maps an
    id to the object stored under it. *)
Record store := {
  redis : gmap string execution;
  memoryStorage : gmap string execution
}.

Definition redis_key (executionId : string) : string := "execution:" +:+ executionId.

(** In both functions [redis_ok] tells whether [redisClient] is set and
    its command succeeds; otherwise the [else] branch or the [catch]
    block runs, and both use [memoryStorage]. *)
Definition storeExecution (redis_ok : bool) (executionId : string)
    (e : execution) (s : store) : store :=
  if redis_ok
  then {| redis := <[redis_key executionId := e]> (redis s);
          memoryStorage := memoryStorage s |}
  else {| redis := redis s;
          memoryStorage := <[executionId := e]> (memoryStorage s) |}.

Definition getExecution (redis_ok : bool) (executionId : string) (s : store)
    : option execution :=
  if redis_ok then redis s !! redis_key executionId
  else memoryStorage s !! executionId.

(** ** Docker *)

Inductive outcome (A : Type) :=
  | Resolved (value : A)
  | Rejected (message : string).
Arguments Resolved {A} value.
Arguments Rejected {A} message.

Record host_config := {
  Memory : Z;
  CpuQuota : Z;
  NetworkMode : string;
  ReadonlyRootfs : bool;
  Tmpfs : list (string * string)
}.

Record container_options := {
  Image : string;
  Cmd : list string;
  WorkingDir : string;
  HostConfig : host_config;
  AttachStdout : bool;
  AttachStderr : bool
}.

(** The calls that [runCode] and [getContainerOutput] make on the engine. *)
Inductive docker_call :=
  | createContainer (options : container_options)
  | container_start
  | container_wait
  | container_logs
  | container_inspect
  | container_stop
  | container_remove.

(** What [container.logs] resolves to. *)
Inductive logs_value :=
  | logs_buffer (b : list byte)
  | logs_string (s : string)
  | logs_undefined.

(** How one container answers during one run: what each call settles
    to, whenever it is made.  [remove] answers the call of the [try]
    block, [cleanup_stop] and [cleanup_remove] the calls of the [catch]
    block. *)
Record container := {
  start : outcome unit;
  wait : outcome unit;
  logs : outcome logs_value;
  inspect : outcome Z;
  remove : outcome unit;
  cleanup_stop : outcome unit;
  cleanup_remove : outcome unit
}.

(** How the engine and the timer answer during one run:
    [timer_first] holds when the timer fires before the promise of
    [container.wait] followed by [getContainerOutput] settles.  What that
    promise still does after it has lost the race has no effect on the
    record; its engine calls are the [late_calls] below. *)
Record docker := {
  create : outcome container;
  timer_first : bool
}.

Definition double_quote : ascii := "034"%char.

(** The replacement of [code.replace(/'/g, ...)]: quote, double quote,
    quote, double quote, quote. *)
Definition quote_escape : string :=
  String "'" (String double_quote (String "'" (String double_quote (String "'" EmptyString)))).

Fixpoint escape_quotes (code : string) : string :=
  match code with
  | EmptyString => EmptyString
  | String c rest =>
    if decide (c = "'"%char) then quote_escape +:+ escape_quotes rest
    else String c (escape_quotes rest)
  end.

Definition shell_command (config : language_config) (code : string) : string :=
  "echo '" +:+ escape_quotes code +:+ "' > main" +:+ extension config +:+ " && "
  +:+ runCommand config ("main" +:+ extension config).

Definition container_options_for (config : language_config) (code : string)
    : container_options :=
  {| Image := image config;
     Cmd := ["sh"; "-c"; shell_command config code];
     WorkingDir := "/app";
     HostConfig := {| Memory := (128 * 1024 * 1024)%Z;
                      CpuQuota := 50000%Z;
                      NetworkMode := "none";
                      ReadonlyRootfs := true;
                      Tmpfs := [("/app", "rw,size=10m")] |};
     AttachStdout := true;
     AttachStderr := true |}.

(** A number in a template literal. *)
Definition number_to_string (n : Z) : string :=
  NilZero.string_of_int (Z.to_int n).

(** ** The service *)

(** The response of [executeCode], or the validation failure it throws. *)
Inductive executeCode_result :=
  | started (executionId : string)
  | validation_failed (e : validation_error).

(** How the [try] block of [runCode] ends: with the collected output, or
    with a thrown error and the value of the variable [container]. *)
Inductive try_result :=
  | try_done (result : container_output)
  | try_thrown (message : string) (c : option container).

(** What one call of [runCode] did: the engine calls, and the record
    handed to [storeExecution] ([None] when [runCode] itself rejects
    before it gets there).  The calls that [runCode] awaits come first, in
    their order; the calls of the promise that it abandons when the timer
    fires ([late_calls]) are listed after them. *)
Record run := {
  calls : list docker_call;
  final : option execution
}.

Section Service.
Context {rt : NodeRuntime}.

(** [Buffer.isBuffer(logs) ? logs : Buffer.from(logs || '')] *)
Definition outputBuffer_of (l : logs_value) : list byte :=
  match l with
  | logs_buffer b => b
  | logs_string s => Buffer_from s
  | logs_undefined => Buffer_from ""
  end.

Definition exit_report (success failure_prefix : string) (exitCode : Z)
    : container_output :=
  if decide (exitCode = 0%Z)
  then {| stdout := success; stderr := "" |}
  else {| stdout := ""; stderr := failure_prefix +:+ number_to_string exitCode |}.

Definition capture_error (message : string) : container_output :=
  {| stdout := ""; stderr := "Error capturing output: " +:+ message |}.

Definition getContainerOutput (c : container) : list docker_call * container_output :=
  match logs c with
  | Rejected _ =>
    ([container_logs; container_inspect],
     match inspect c with
     | Resolved exitCode =>
       exit_report "Program executed successfully"
                   "Container failed with exit code " exitCode
     | Rejected message => capture_error message
     end)
  | Resolved l =>
    let outputBuffer := outputBuffer_of l in
    if decide (0 < length outputBuffer) then
      ([container_logs], parseDockerLogs outputBuffer)
    else
      ([container_logs; container_inspect],
       match inspect c with
       | Resolved exitCode =>
         exit_report "Program executed successfully (no output captured)"
                     "Container exited with code " exitCode
       | Rejected message => capture_error message
       end)
  end.

(** The [try] block of [runCode], from [docker.createContainer] to the
    first [container.remove]: the calls that the block awaits, and how it
    is left.  When the timer settles the race first, the block is left
    while the promise of [container.wait] and [getContainerOutput] is
    still pending. *)
Definition try_block (options : container_options) (d : docker)
    : list docker_call * try_result :=
  match create d with
  | Rejected message => ([createContainer options], try_thrown message None)
  | Resolved c =>
    match start c with
    | Rejected message =>
      ([createContainer options; container_start], try_thrown message (Some c))
    | Resolved _ =>
      if timer_first d then
        ([createContainer options; container_start; container_wait],
         try_thrown "Execution timeout" (Some c))
      else
        match wait c with
        | Rejected message =>
          ([createContainer options; container_start; container_wait],
           try_thrown message (Some c))
        | Resolved _ =>
          let '(output_calls, result) := getContainerOutput c in
          let made := [createContainer options; container_start; container_wait]
                        ++ output_calls ++ [container_remove] in
          match remove c with
          | Rejected message => (made, try_thrown message (Some c))
          | Resolved _ => (made, try_done result)
          end
        end
    end
  end.

(** The engine calls of [executionPromise] when the timer wins the
    race.  The promise is not cancelled: once [container.wait] resolves,
    be it before the timer fires or when the [catch] block stops the
    container, it calls [getContainerOutput], and the result is dropped.
    These calls run beside the cleanup; the code does not fix their order
    with respect to [container.stop] and the second [container.remove]. *)
Definition late_calls (d : docker) : list docker_call :=
  match create d with
  | Rejected _ => []
  | Resolved c =>
    match start c with
    | Rejected _ => []
    | Resolved _ =>
      if timer_first d then
        match wait c with
        | Rejected _ => []
        | Resolved _ => (getContainerOutput c).1
        end
      else []
    end
  end.

(** The four assignments after the cleanup of the [try] block. *)
Definition set_completed (e : execution) (result : container_output) (now : string)
    : execution :=
  {| id := id e; status := completed; language := language e; code := code e;
     input := input e; timeout := timeout e; startTime := startTime e;
     endTime := Some now;
     output := Some (stdout result);
     error := Some (stderr result) |}.

(** The three assignments at the head of the [catch] block. *)
Definition set_failed (e : execution) (message now : string) : execution :=
  {| id := id e; status := failed; language := language e; code := code e;
     input := input e; timeout := timeout e; startTime := startTime e;
     endTime := Some now;
     output := output e;
     error := Some message |}.

(** [runCode], given the value of [execution] that [getExecution]
    returned ([None] for [null] or [undefined]).  With no object both
    assignments to [execution.status] throw a [TypeError], the second one
    out of the [catch] block, so that neither the cleanup nor
    [storeExecution] is reached. *)
Definition runCode (execution : option execution) (language code : string)
    (input : option string) (timeout : Q) (d : docker) (now : string) : run :=
  match LANGUAGE_CONFIG language with
  | None => {| calls := []; final := None |}
  | Some config =>
    let '(made, r) := try_block (container_options_for config code) d in
    match execution with
    | None => {| calls := made ++ late_calls d; final := None |}
    | Some e =>
      match r with
      | try_done result =>
        {| calls := made; final := Some (set_completed e result now) |}
      | try_thrown message c =>
        {| calls := made ++ match c with
                            | Some _ => [container_stop; container_remove]
                            | None => []
                            end
                         ++ late_calls d;
           final := Some (set_failed e message now) |}
      end
    end
  end.

(** The object literal of [executeCode]. *)
Definition new_execution (executionId : string) (value : validated) (now : string)
    : execution :=
  {| id := executionId; status := pending;
     language := v_language value; code := v_code value;
     input := v_input value; timeout := v_timeout value;
     startTime := now; endTime := None; output := None; error := None |}.

(** [executeCode] up to its [return]: the response or the thrown
    validation failure, and the store afterwards.  [uuid] is the value of
    [uuidv4()] and [now] the clock.  The call of [runCode] that it starts
    without awaiting is a task of the [world] below.  The [catch] block
    around the two calls is never entered: [storeExecution] catches what
    Redis throws, and an [async] function does not throw to its caller. *)
Definition executeCode (executionRequest : request) (uuid now : string)
    (redis_ok : bool) (s : store) : executeCode_result * store :=
  match validate (normalizeTimeout executionRequest) with
  | inl e => (validation_failed e, s)
  | inr value =>
    (started uuid, storeExecution redis_ok uuid (new_execution uuid value now) s)
  end.

Definition getExecutionStatus (redis_ok : bool) (executionId : string) (s : store)
    : outcome execution :=
  match getExecution redis_ok executionId s with
  | Some e => Resolved e
  | None => Rejected "Failed to get execution status: Execution not found"
  end.

End Service.

(** ** The running service

    Requests arrive and the [runCode] tasks they start make progress in
    any interleaving.  A task first awaits [getExecution] and later
    settles; from the first assignment to [execution.status] to the call
    of [storeExecution] the object is not replaced by anyone else, so the
    assignments and the call are one step ([Settle]). *)

(** What the variable [execution] of a task refers to. *)
Inductive execution_ref :=
  | shared_object                 (* the object that [memoryStorage] holds *)
  | parsed_copy (e : execution)   (* a fresh object parsed from Redis *)
  | no_object.                    (* [null] or [undefined] *)

Record task := {
  task_language : string;
  task_code : string;
  task_input : option string;
  task_timeout : Q;
  task_execution : option execution_ref   (* [None] before [getExecution] *)
}.

Record world := {
  storage : store;
  tasks : gmap string task;
  issued : gset string     (* the values [uuidv4()] has returned so far *)
}.

Definition initial : world :=
  {| storage := {| redis := ∅; memoryStorage := ∅ |}; tasks := ∅; issued := ∅ |}.

Inductive event :=
  | Submit (executionRequest : request) (uuid now : string) (redis_ok : bool)
  | Fetch (executionId : string) (redis_ok : bool)
  | Settle (executionId : string) (d : docker) (now : string) (redis_ok : bool).

(** What [getExecution] hands to the task. *)
Definition fetch (redis_ok : bool) (executionId : string) (s : store) : execution_ref :=
  if redis_ok then
    match redis s !! redis_key executionId with
    | Some e => parsed_copy e
    | None => no_object
    end
  else
    match memoryStorage s !! executionId with
    | Some _ => shared_object
    | None => no_object
    end.

(** The object behind a reference. *)
Definition deref (r : execution_ref) (executionId : string) (s : store)
    : option execution :=
  match r with
  | shared_object => memoryStorage s !! executionId
  | parsed_copy e => Some e
  | no_object => None
  end.

(** Assigning to the fields of the object behind a reference: visible in
    [memoryStorage] when the object is the one stored there. *)
Definition assign (r : execution_ref) (executionId : string) (e : execution)
    (s : store) : store :=
  match r with
  | shared_object =>
    {| redis := redis s; memoryStorage := <[executionId := e]> (memoryStorage s) |}
  | _ => s
  end.

Section World.
Context {rt : NodeRuntime}.

(** One step of the service; [None] when the event cannot happen in the
    world ([uuidv4] repeating a value, or a task that is not at that
    point). *)
Definition step (w : world) (ev : event) : option world :=
  match ev with
  | Submit executionRequest uuid now redis_ok =>
    match validate (normalizeTimeout executionRequest) with
    | inl _ => Some w
    | inr value =>
      if decide (uuid ∈ issued w) then None
      else
        Some {| storage := snd (executeCode executionRequest uuid now redis_ok (storage w));
                tasks := <[uuid := {| task_language := v_language value;
                                      task_code := v_code value;
                                      task_input := v_input value;
                                      task_timeout := v_timeout value;
                                      task_execution := None |}]> (tasks w);
                issued := {[uuid]} ∪ issued w |}
    end
  | Fetch executionId redis_ok =>
    match tasks w !! executionId with
    | Some t =>
      match task_execution t with
      | None =>
        Some {| storage := storage w;
                tasks := <[executionId :=
                             {| task_language := task_language t;
                                task_code := task_code t;
                                task_input := task_input t;
                                task_timeout := task_timeout t;
                                task_execution :=
                                  Some (fetch redis_ok executionId (storage w)) |}]>
                           (tasks w);
                issued := issued w |}
      | Some _ => None
      end
    | None => None
    end
  | Settle executionId d now redis_ok =>
    match tasks w !! executionId with
    | Some t =>
      match task_execution t with
      | Some r =>
        let result := runCode (deref r executionId (storage w))
                        (task_language t) (task_code t) (task_input t)
                        (task_timeout t) d now in
        Some {| storage :=
                  match final result with
                  | Some e =>
                    storeExecution redis_ok executionId e
                      (assign r executionId e (storage w))
                  | None => storage w
                  end;
                tasks := delete executionId (tasks w);
                issued := issued w |}
      | None => None
      end
    | None => None
    end
  end.

Fixpoint steps (w : world) (evs : list event) : option world :=
  match evs with
  | [] => Some w
  | ev :: rest =>
    match step w ev with
    | Some w' => steps w' rest
    | None => None
    end
  end.

Definition reachable (w : world) : Prop := ∃ evs, steps initial evs = Some w.

(** The records a caller of [getExecution] can be given. *)
Definition stored (w : world) (e : execution) : Prop :=
  ∃ k, redis (storage w) !! k = Some e ∨ memoryStorage (storage w) !! k = Some e.

End World.

(** ** A runtime for closed examples: one character per byte, and the
    white space of ASCII trimmed. *)

Definition is_space (c : ascii) : bool :=
  let n := nat_of_ascii c in
  (Nat.leb 9 n && Nat.leb n 13) || Nat.eqb n 32.

Fixpoint trim_start (s : string) : string :=
  match s with
  | String c rest => if is_space c then trim_start rest else s
  | EmptyString => EmptyString
  end.

Fixpoint trim_end (s : string) : string :=
  match s with
  | String c rest =>
    match trim_end rest with
    | EmptyString => if is_space c then EmptyString else String c EmptyString
    | rest' => String c rest'
    end
  | EmptyString => EmptyString
  end.

Definition byte_runtime : NodeRuntime :=
  {| utf8 := string_of_list_byte;
     Buffer_from := list_byte_of_string;
     trim := λ s, trim_end (trim_start s);
     utf8_nil := eq_refl;
     trim_empty := eq_refl |}.

(** ** The log format of the engine

    What the specification says the engine writes on the combined log
    channel: frames of an 8-byte header (byte 0 the stream selector, bytes
    1 to 3 reserved, bytes 4 to 7 the payload length as a big-endian
    unsigned 32-bit number) followed by the payload. *)

Record frame := {
  selector : byte;
  reserved : byte * byte * byte;
  payload : list byte
}.

Definition byte_of_N (n : N) : byte :=
  default x00 (Byte.of_N (n mod 256)).

(** The four bytes of an unsigned 32-bit number, most significant first. *)
Definition uint32BE (n : N) : list byte :=
  [byte_of_N (n / 16777216); byte_of_N (n / 65536); byte_of_N (n / 256); byte_of_N n].

Definition encode_frame (f : frame) : list byte :=
  let '(r1, r2, r3) := reserved f in
  [selector f; r1; r2; r3] ++ uint32BE (N.of_nat (length (payload f))) ++ payload f.

Definition encode_frames (fs : list frame) : list byte :=
  concat (map encode_frame fs).

(** The payload length fits the header field. *)
Definition well_formed (f : frame) : Prop :=
  (N.of_nat (length (payload f)) < 4294967296)%N.

Definition to_stderr (f : frame) : Prop := byte_val (selector f) = 2%N.
Definition to_stdout (f : frame) : Prop := byte_val (selector f) ≠ 2%N.

#[global] Instance to_stderr_dec f : Decision (to_stderr f).
Proof. unfold to_stderr. solve_decision. Defined.

#[global] Instance to_stdout_dec f : Decision (to_stdout f).
Proof. unfold to_stdout. solve_decision. Defined.

(** Bytes after the last complete frame: too few for a header, or a
    header whose payload is cut short. *)
Definition incomplete (rest : list byte) : Prop :=
  length rest < 8 ∨ length rest < 8 + N.to_nat (readUInt32BE rest 4).

Section Texts.
Context {rt : NodeRuntime}.

(** The decoded payloads of the frames of one stream, in order. *)
Definition stdout_texts (fs : list frame) : list string :=
  map (λ f, utf8 (payload f)) (filter to_stdout fs).

Definition stderr_texts (fs : list frame) : list string :=
  map (λ f, utf8 (payload f)) (filter to_stderr fs).

End Texts.

(** The [timeout] that the record of a request gets, or the failure that
    [executeCode] throws instead of creating one. *)
Definition effective_timeout (r : request) : validation_error + Q :=
  match validate (normalizeTimeout r) with
  | inl e => inl e
  | inr value => inr (v_timeout value)
  end.

(** The request satisfies the schema in its fields other than [timeout],
    and has no key that the schema does not name. *)
Definition other_fields_valid (r : request) : Prop :=
  (∃ l, validate_language (Req.language r) = inr l) ∧
  (∃ c, validate_code (Req.code r) = inr c) ∧
  (∃ i, validate_input (Req.input r) = inr i) ∧
  Req.other_keys r = [].

(** ** Ways a run can go *)

(** The container is created and started, exits before the timer fires,
    and the [remove] of the [try] block succeeds. *)
Definition exits_and_is_removed (d : docker) (c : container) : Prop :=
  create d = Resolved c ∧ start c = Resolved () ∧ timer_first d = false ∧
  wait c = Resolved () ∧ remove c = Resolved ().

(** Some call of the [try] block throws: the engine fails to create or
    start the container, the timer fires first, or [wait] or the first
    [remove] fail. *)
Definition exception_thrown (d : docker) : Prop :=
  match create d with
  | Rejected _ => True
  | Resolved c =>
    (∃ m, start c = Rejected m) ∨ timer_first d = true ∨
    (∃ m, wait c = Rejected m) ∨ (∃ m, remove c = Rejected m)
  end.

(** ** The shape of stored records *)

(** A record as [executeCode] writes it, and a record after the
    assignments of [runCode]. *)
Definition fresh_record (e : execution) : Prop :=
  status e = pending ∧ endTime e = None ∧ output e = None ∧ error e = None.

Definition settled_record (e : execution) : Prop :=
  terminal (status e) ∧ is_Some (endTime e).

Definition record_ok (e : execution) : Prop := fresh_record e ∨ settled_record e.

(** What holds in every world the service can reach: stored records are
    fresh or settled and are stored under ids that [uuidv4] has returned;
    a task belongs to such an id, runs a configured language, and as long
    as it has not settled the records of its id are fresh. *)
Record invariant (w : world) : Prop := {
  inv_redis : ∀ k e, redis (storage w) !! k = Some e →
    record_ok e ∧ ∃ i, k = redis_key i ∧ i ∈ issued w;
  inv_memory : ∀ k e, memoryStorage (storage w) !! k = Some e →
    record_ok e ∧ k ∈ issued w;
  inv_tasks : ∀ i t, tasks w !! i = Some t →
    i ∈ issued w ∧
    is_Some (LANGUAGE_CONFIG (task_language t)) ∧
    (∀ e, redis (storage w) !! redis_key i = Some e → fresh_record e) ∧
    (∀ e, memoryStorage (storage w) !! i = Some e → fresh_record e) ∧
    (∀ e, task_execution t = Some (parsed_copy e) → fresh_record e)
}.

Section Calls.
Context {rt : NodeRuntime}.

(** The engine calls of a run, which the record, the input, the timeout
    and the clock do not influence. *)
Definition calls_of (language code : string) (d : docker) : list docker_call :=
  match LANGUAGE_CONFIG language with
  | None => []
  | Some config =>
    let '(made, r) := try_block (container_options_for config code) d in
    match r with
    | try_done _ => made
    | try_thrown _ c => made ++ match c with
                                | Some _ => [container_stop; container_remove]
                                | None => []
                                end
                             ++ late_calls d
    end
  end.

(** Those of them that [runCode] awaits, in their order: the calls of
    the [try] block and of the cleanup. *)
Definition awaited_calls (language code : string) (d : docker) : list docker_call :=
  match LANGUAGE_CONFIG language with
  | None => []
  | Some config =>
    let '(made, r) := try_block (container_options_for config code) d in
    made ++ match r with
            | try_thrown _ (Some _) => [container_stop; container_remove]
            | _ => []
            end
  end.

End Calls.

(** A call carries nothing but, when it creates the container, these
    options. *)
Definition carries_only (options : container_options) (call : docker_call) : Prop :=
  match call with
  | createContainer o => o = options
  | _ => True
  end.

(** ** Records as JavaScript objects *)

Inductive js_value :=
  | js_undefined
  | js_null
  | js_string (s : string)
  | js_number (n : Q).

Definition status_text (s : exec_status) : string :=
  match s with
  | pending => "pending"
  | completed => "completed"
  | failed => "failed"
  end.

Definition string_or (missing : js_value) (s : option string) : js_value :=
  match s with
  | Some s => js_string s
  | None => missing
  end.

(** The own properties of an execution object, in the order of the
    object literal of [executeCode]. *)
Definition properties (e : execution) : list (string * js_value) :=
  [("id", js_string (id e));
   ("status", js_string (status_text (status e)));
   ("language", js_string (language e));
   ("code", js_string (code e));
   ("input", string_or js_undefined (input e));
   ("timeout", js_number (timeout e));
   ("startTime", js_string (startTime e));
   ("endTime", string_or js_null (endTime e));
   ("output", string_or js_null (output e));
   ("error", string_or js_null (error e))].

Definition is_undefined (v : js_value) : bool :=
  match v with
  | js_undefined => true
  | _ => false
  end.

(** The properties after [JSON.parse(JSON.stringify(e))]: a property whose
    value is [undefined] is not written. *)
Definition json_properties (e : execution) : list (string * js_value) :=
  List.filter (λ kv, negb (is_undefined kv.2)) (properties e).

(** The object a status lookup returns: parsed from the Redis text, or
    the object held in [memoryStorage]. *)
Definition returned_properties (redis_ok : bool) (e : execution)
    : list (string * js_value) :=
  if redis_ok then json_properties e else properties e.

(** [object[key]] for an own property. *)
Fixpoint property (key : string) (object : list (string * js_value)) : option js_value :=
  match object with
  | [] => None
  | (k, v) :: rest => if decide (k = key) then Some v else property key rest
  end.

(** The fields that the specification lists for a record. *)
Definition spec_record_keys : list string :=
  ["id"; "status"; "language"; "code"; "input"; "timeoutSeconds";
   "startTime"; "endTime"; "output"; "error"].

(** The record shape as the specification words it: each listed field is
    a property of the returned object. *)
Definition spec_record_shape (object : list (string * js_value)) : Prop :=
  ∀ k, k ∈ spec_record_keys → is_Some (property k object).

(** ** Sample inputs *)

Definition sample_uuid : string := "1b4e28ba-2fa1-4d3b-a3f5-ef19b5a7633b".

(** [{language: 'python', code: "print('hi')", timeout}] *)
Definition python_request (timeout : option Q) : request :=
  {| Req.language := Some "python"; Req.code := Some "print('hi')";
     Req.input := None; Req.timeout := timeout; Req.other_keys := [] |}.

Definition python_value : validated :=
  {| v_language := "python"; v_code := "print('hi')";
     v_input := None; v_timeout := 5 |}.

(** The same request with an input. *)
Definition python_request_with_input : request :=
  {| Req.language := Some "python"; Req.code := Some "print('hi')";
     Req.input := Some "42"; Req.timeout := Some 5%Q; Req.other_keys := [] |}.

Definition python_value_with_input : validated :=
  {| v_language := "python"; v_code := "print('hi')";
     v_input := Some "42"; v_timeout := 5 |}.

(** The request of the test script that must be refused. *)
Definition ruby_request : request :=
  {| Req.language := Some "ruby"; Req.code := Some "puts 1";
     Req.input := None; Req.timeout := Some 10%Q; Req.other_keys := [] |}.

Definition long_code : string :=
  string_of_list_ascii (repeat "x"%char (N.to_nat 50001)).

Definition long_request : request :=
  {| Req.language := Some "python"; Req.code := Some long_code;
     Req.input := None; Req.timeout := None; Req.other_keys := [] |}.

Definition sample_record : execution :=
  new_execution sample_uuid python_value "2024-01-01T00:00:00.000Z".

Definition empty_store : store := {| redis := ∅; memoryStorage := ∅ |}.

(** A log of three frames: [ hi] on stdout, [oops] on stderr, and [! ]
    on a stream numbered 0. *)
Definition sample_frames : list frame :=
  [ {| selector := x01; reserved := (x00, x00, x00);
       payload := list_byte_of_string " hi" |};
    {| selector := x02; reserved := (x00, x00, x00);
       payload := list_byte_of_string "oops" |};
    {| selector := x00; reserved := (x00, x00, x00);
       payload := list_byte_of_string "! " |} ].

(** A container that logs [sample_frames] and exits with code 1. *)
Definition sample_container : container :=
  {| start := Resolved (); wait := Resolved ();
     logs := Resolved (logs_buffer (encode_frames sample_frames));
     inspect := Resolved 1%Z;
     remove := Resolved ();
     cleanup_stop := Resolved (); cleanup_remove := Resolved () |}.

Definition sample_docker : docker :=
  {| create := Resolved sample_container; timer_first := false |}.

(** The same container when the timer fires first. *)
Definition slow_docker : docker :=
  {| create := Resolved sample_container; timer_first := true |}.

(** The same container when the engine refuses the [remove] of the [try]
    block. *)
Definition remove_fails_container : container :=
  {| start := Resolved (); wait := Resolved ();
     logs := Resolved (logs_buffer (encode_frames sample_frames));
     inspect := Resolved 0%Z;
     remove := Rejected "removal of container is already in progress";
     cleanup_stop := Resolved (); cleanup_remove := Resolved () |}.

Definition remove_fails_docker : docker :=
  {| create := Resolved remove_fails_container; timer_first := false |}.

(** A container without any log. *)
Definition silent_container (exitCode : Z) : container :=
  {| start := Resolved (); wait := Resolved ();
     logs := Resolved (logs_buffer []);
     inspect := Resolved exitCode;
     remove := Resolved ();
     cleanup_stop := Resolved (); cleanup_remove := Resolved () |}.

(** A container whose log is plain text. *)
Definition plain_container : container :=
  {| start := Resolved (); wait := Resolved ();
     logs := Resolved (logs_buffer (list_byte_of_string " hello "));
     inspect := Resolved 0%Z;
     remove := Resolved ();
     cleanup_stop := Resolved (); cleanup_remove := Resolved () |}.

(** A container whose log and state cannot be read. *)
Definition blind_container : container :=
  {| start := Resolved (); wait := Resolved ();
     logs := Rejected "logs unavailable";
     inspect := Rejected "no such container";
     remove := Resolved ();
     cleanup_stop := Resolved (); cleanup_remove := Resolved () |}.

Definition blind_docker : docker :=
  {| create := Resolved blind_container; timer_first := false |}.

(** One request, accepted and fetched by its task, memory storage only. *)
Definition sample_events : list event :=
  [Submit (python_request (Some 5%Q)) sample_uuid "2024-01-01T00:00:00.000Z" false;
   Fetch sample_uuid false].

Definition sample_task : task :=
  {| task_language := "python"; task_code := "print('hi')";
     task_input := None; task_timeout := 5;
     task_execution := Some shared_object |}.

Definition sample_world : world :=
  {| storage := {| redis := ∅;
                   memoryStorage := {[ sample_uuid := sample_record ]} |};
     tasks := {[ sample_uuid := sample_task ]};
     issued := {[ sample_uuid ]} |}.

(** ** The routes of the server (index.js)

    The two routes that use the service, without the middleware in front
    of them (rate limit, body parser).  [res.json] writes the JSON text of
    its argument. *)

Inductive response_body :=
  | execute_started (executionId : string)
      (* [{executionId, status: 'pending', message: 'Code execution started'}] *)
  | execute_failed (e : validation_error)
      (* [{error: 'Code execution failed', message: error.message}] *)
  | status_record (object : list (string * js_value))
  | status_not_found (message : string).
      (* [{error: 'Execution not found', message: error.message}] *)

Record response := {
  http_status : Z;
  body : response_body
}.

(** [app.post('/api/execute', ...)] *)
Definition post_execute (req_body : request) (uuid now : string) (redis_ok : bool)
    (s : store) : response * store :=
  match executeCode req_body uuid now redis_ok s with
  | (started executionId, s') =>
    ({| http_status := 202; body := execute_started executionId |}, s')
  | (validation_failed e, s') =>
    ({| http_status := 400; body := execute_failed e |}, s')
  end.

(** [app.get('/api/status/:id', ...)] *)
Definition get_status (redis_ok : bool) (executionId : string) (s : store) : response :=
  match getExecutionStatus redis_ok executionId s with
  | Resolved e => {| http_status := 200; body := status_record (json_properties e) |}
  | Rejected message => {| http_status := 404; body := status_not_found message |}
  end.

(** ** Requests that pass the schema, field by field *)

Definition language_accepted (language : option string) : Prop :=
  ∃ l, language = Some l ∧ l ∈ valid_languages.

Definition code_accepted (code : option string) : Prop :=
  ∃ c, code = Some c ∧ c ≠ "" ∧ (Z.of_nat (String.length c) ≤ 50000)%Z.

Definition input_accepted (input : option string) : Prop :=
  ∀ i, input = Some i → (Z.of_nat (String.length i) ≤ 10000)%Z.

Definition timeout_accepted (timeout : option Q) : Prop :=
  ∀ t, timeout = Some t → (1 <= t)%Q ∧ (t <= MAX_SAFE_INTEGER)%Q.

(** The number that [executeCode] hands to the schema for a timeout of
    the request. *)
Definition seconds_of (t : Q) : Q :=
  if truthy t && Qgt_bool t 1000 then ceil_seconds t else t.

(** The timeout of a request passes: it is at least 1, and the number it
    is converted to is a safe one. *)
Definition request_timeout_accepted (timeout : option Q) : Prop :=
  ∀ t, timeout = Some t → (1 <= t)%Q ∧ (seconds_of t <= MAX_SAFE_INTEGER)%Q.

(** ** Counting engine calls *)

Definition is_remove (call : docker_call) : bool :=
  match call with
  | container_remove => true
  | _ => false
  end.

(** How many times [container.remove] is called. *)
Definition removals (made : list docker_call) : nat :=
  length (List.filter is_remove made).

(** The [try] block gets as far as its [remove] and the engine refuses
    it. *)
Definition first_remove_fails (d : docker) (c : container) : Prop :=
  start c = Resolved () ∧ timer_first d = false ∧ wait c = Resolved () ∧
  ∃ m, remove c = Rejected m.

(** The [try] block throws before it reaches its [remove]. *)
Definition thrown_before_remove (d : docker) (c : container) : Prop :=
  (∃ m, start c = Rejected m) ∨
  (start c = Resolved () ∧ timer_first d = true) ∨
  (start c = Resolved () ∧ timer_first d = false ∧ ∃ m, wait c = Rejected m).

(** The calls of [getContainerOutput]. *)
Definition output_call (call : docker_call) : Prop :=
  call = container_logs ∨ call = container_inspect.

(** ** What a record keeps for life *)

(** The fields that [runCode] never assigns. *)
Definition same_request (e e' : execution) : Prop :=
  id e = id e' ∧ language e = language e' ∧ code e = code e' ∧
  input e = input e' ∧ timeout e = timeout e' ∧ startTime e = startTime e'.

(** The fields of a record satisfy the request schema. *)
Definition schema_ok (e : execution) : Prop :=
  language e ∈ valid_languages ∧
  code e ≠ "" ∧ (Z.of_nat (String.length (code e)) ≤ 50000)%Z ∧
  (∀ i, input e = Some i → (Z.of_nat (String.length i) ≤ 10000)%Z) ∧
  (1 <= timeout e)%Q.

(** More of what holds in every reachable world: a record is stored
    under its own id and satisfies the schema; the record of a task that
    has not settled is in one backend only, and the task holds either the
    object of [memoryStorage] or a copy of what Redis holds. *)
Record bookkeeping (w : world) : Prop := {
  bk_redis : ∀ k e, redis (storage w) !! k = Some e →
    k = redis_key (id e) ∧ schema_ok e;
  bk_memory : ∀ k e, memoryStorage (storage w) !! k = Some e →
    k = id e ∧ schema_ok e;
  bk_tasks : ∀ i t, tasks w !! i = Some t →
    (redis (storage w) !! redis_key i = None ∨ memoryStorage (storage w) !! i = None) ∧
    (∀ e, task_execution t = Some (parsed_copy e) →
          redis (storage w) !! redis_key i = Some e) ∧
    (task_execution t = Some shared_object → is_Some (memoryStorage (storage w) !! i))
}.

(** ** Shell quoting

    How a POSIX shell reads a word that is made of quoted segments: inside
    single quotes every character stands for itself up to the next single
    quote; inside double quotes every character other than a dollar sign,
    a backquote and a backslash stands for itself up to the next double
    quote.  Words with unquoted characters or with one of these three
    characters inside double quotes are not covered ([None]), nor are
    words whose last quote is not closed. *)

Inductive quoting := unquoted | single_quoted | double_quoted.

Fixpoint sh_unquote (q : quoting) (word : string) : option string :=
  match word with
  | EmptyString =>
    match q with
    | unquoted => Some EmptyString
    | _ => None
    end
  | String c rest =>
    match q with
    | unquoted =>
      if decide (c = "'"%char) then sh_unquote single_quoted rest
      else if decide (c = double_quote) then sh_unquote double_quoted rest
      else None
    | single_quoted =>
      if decide (c = "'"%char) then sh_unquote unquoted rest
      else String c <$> sh_unquote single_quoted rest
    | double_quoted =>
      if decide (c = double_quote) then sh_unquote unquoted rest
      else if decide (c = "$"%char ∨ c = "`"%char ∨ c = "\"%char) then None
      else String c <$> sh_unquote double_quoted rest
    end
  end.

(** The word after [echo] in the shell command. *)
Definition echo_argument (code : string) : string :=
  "'" +:+ escape_quotes code +:+ "'".

(** ** More sample inputs *)

(** An engine that cannot be reached. *)
Definition no_engine_docker : docker :=
  {| create := Rejected "connect ENOENT /var/run/docker.sock"; timer_first := false |}.

(** A container whose log cannot be read and that exited with code 2. *)
Definition unreadable_container : container :=
  {| start := Resolved (); wait := Resolved ();
     logs := Rejected "logs unavailable";
     inspect := Resolved 2%Z;
     remove := Resolved ();
     cleanup_stop := Resolved (); cleanup_remove := Resolved () |}.

(** The world after the sample task has settled with the timer first. *)
Definition settled_events : list event :=
  [Settle sample_uuid slow_docker "2024-01-01T00:00:05.000Z" false].

Definition settled_world : world :=
  {| storage := {| redis := ∅;
                   memoryStorage :=
                     {[ sample_uuid := set_failed sample_record "Execution timeout"
                                         "2024-01-01T00:00:05.000Z" ]} |};
     tasks := ∅;
     issued := {[ sample_uuid ]} |}.

(** A second execution, submitted after the first one has settled, that
    runs to its end. *)
Definition second_uuid : string := "7c9e6679-7425-40de-944b-e07fc1f90ae7".

Definition later_events : list event :=
  [Submit (python_request None) second_uuid "2024-01-01T00:01:00.000Z" false;
   Fetch second_uuid false;
   Settle second_uuid sample_docker "2024-01-01T00:01:01.000Z" false].

(** The execution an event belongs to. *)
Definition event_id (ev : event) : string :=
  match ev with
  | Submit _ uuid _ _ => uuid
  | Fetch executionId _ => executionId
  | Settle executionId _ _ _ => executionId
  end.

(** * Properties *)

(** ** Timeout normalization *)

Lemma Qgt_bool_true (a b : Q) : Qgt_bool a b = true ↔ (b < a)%Q.
Proof.
  unfold Qgt_bool. rewrite negb_true_iff.
  destruct (Qle_bool a b) eqn:E; split; intros H; try discriminate.
  - apply Qle_bool_iff in E. exfalso. exact (Qlt_not_le _ _ H E).
  - apply Qnot_le_lt. intros L. apply Qle_bool_iff in L. congruence.
  - reflexivity.
Qed.

Lemma Qgt_bool_false (a b : Q) : Qgt_bool a b = false ↔ (a <= b)%Q.
Proof.
  unfold Qgt_bool. rewrite negb_false_iff. apply Qle_bool_iff.
Qed.

Lemma truthy_above (t : Q) : (1000 < t)%Q → truthy t = true.
Proof.
  intros H. unfold truthy. apply negb_true_iff.
  destruct (Qeq_bool t 0) eqn:E; [|reflexivity].
  apply Qeq_bool_iff in E. rewrite E in H. discriminate H.
Qed.

(** *** The quotient of doubles *)

Section Doubles.
Local Open Scope Q_scope.

Lemma round_half_even_close (x : Q) :
  x - (1 # 2) <= inject_Z (round_half_even x) ∧
  inject_Z (round_half_even x) <= x + (1 # 2).
Proof.
  unfold round_half_even.
  pose proof (Qfloor_le x) as Hlo. pose proof (Qlt_floor x) as Hhi.
  rewrite inject_Z_plus in Hhi. change (inject_Z 1) with 1 in Hhi.
  destruct (Qcompare (x - inject_Z (Qfloor x)) (1 # 2)) eqn:E.
  - apply Qeq_alt in E.
    destruct (Z.even (Qfloor x));
      [|rewrite inject_Z_plus; change (inject_Z 1) with 1]; split; lra.
  - apply Qlt_alt in E. split; lra.
  - apply Qgt_alt in E. rewrite inject_Z_plus. change (inject_Z 1) with 1.
    split; lra.
Qed.

Lemma round_half_even_comp (x y : Q) :
  x == y → round_half_even x = round_half_even y.
Proof.
  intros H. unfold round_half_even. rewrite (Qfloor_comp x y H).
  assert (x - inject_Z (Qfloor y) == y - inject_Z (Qfloor y)) as H'
    by (rewrite H; reflexivity).
  rewrite (Qcompare_comp _ _ H' (1#2) (1#2) (Qeq_refl _)). reflexivity.
Qed.

Lemma round_half_even_Z (n : Z) : round_half_even (inject_Z n) = n.
Proof.
  unfold round_half_even. rewrite Qfloor_Z.
  assert (Qcompare (inject_Z n - inject_Z n) (1 # 2) = Lt) as ->; [|reflexivity].
  apply (proj1 (Qlt_alt _ _)).
  setoid_replace (inject_Z n - inject_Z n) with 0 using relation Qeq by ring. reflexivity.
Qed.

Lemma to_double_comp (q q' : Q) : q == q' → to_double q == to_double q'.
Proof.
  intros H. unfold to_double. rewrite (Qfloor_comp q q' H).
  assert (∀ u, round_half_even (q / u) = round_half_even (q' / u)) as Hd
    by (intros u; apply round_half_even_comp; rewrite H; reflexivity).
  assert (∀ u, round_half_even (q * u) = round_half_even (q' * u)) as Hm
    by (intros u; apply round_half_even_comp; rewrite H; reflexivity).
  rewrite Hd, Hm. reflexivity.
Qed.

Lemma pow2_pos (z : Z) : (0 <= z)%Z → 0 < inject_Z (2 ^ z).
Proof. intros H. rewrite <- (Zlt_Qlt 0). apply Z.pow_pos_nonneg; lia. Qed.

Lemma floor_binade (q : Q) :
  1 <= q → inject_Z (2 ^ Z.log2 (Qfloor q)) <= q.
Proof.
  intros H. assert (1 <= Qfloor q)%Z as Hn.
  { change 1%Z with (Qfloor 1). apply Qfloor_resp_le. exact H. }
  apply Qle_trans with (inject_Z (Qfloor q)); [|apply Qfloor_le].
  rewrite <- Zle_Qle. apply Z.log2_spec. lia.
Qed.

Lemma close_up (q u m x : Q) :
  0 < u → x * u == q → x - (1#2) <= m → m <= x + (1#2) →
  u * inject_Z (2^52) <= q →
  q - q * (1 # 9007199254740992) <= m * u ∧
  m * u <= q + q * (1 # 9007199254740992).
Proof.
  intros Hu Hx Hlo Hhi Hq.
  change (inject_Z (2^52)) with (4503599627370496 # 1) in Hq.
  assert (0 <= (m - x + (1#2)) * u) as H1 by (apply Qmult_le_0_compat; lra).
  assert (0 <= (x + (1#2) - m) * u) as H2 by (apply Qmult_le_0_compat; lra).
  split; lra.
Qed.

Lemma close_down (q s m x y : Q) :
  0 < s → x == q * s → x - (1#2) <= m → m <= x + (1#2) →
  y * s == m →
  inject_Z (2^52) <= q * s →
  q - q * (1 # 9007199254740992) <= y ∧ y <= q + q * (1 # 9007199254740992).
Proof.
  intros Hs Hx Hlo Hhi Hy Hq.
  change (inject_Z (2^52)) with (4503599627370496 # 1) in Hq.
  assert (∀ a, 0 <= a * s → 0 <= a) as Hdiv.
  { intros a Ha. destruct (Qlt_le_dec a 0) as [Hneg|]; [|assumption].
    exfalso.
    assert (a * s < 0 * s) as Hc by (apply Qmult_lt_compat_r; assumption).
    lra. }
  split.
  - apply (Qplus_le_r _ _ (- (q - q * (1 # 9007199254740992)))).
    setoid_replace (- (q - q * (1 # 9007199254740992))
                    + (q - q * (1 # 9007199254740992))) with 0 using relation Qeq by ring.
    apply Hdiv. lra.
  - apply (Qplus_le_r _ _ (- y)).
    setoid_replace (- y + y) with 0 using relation Qeq by ring.
    apply Hdiv. lra.
Qed.

(** A double is within a relative distance of 2^-53 of the number it
    rounds. *)
Lemma to_double_close (q : Q) :
  1 <= q →
  q - q * (1 # 9007199254740992) <= to_double q ∧
  to_double q <= q + q * (1 # 9007199254740992).
Proof.
  intros H. pose proof (floor_binade q H) as Hb. unfold to_double.
  assert (0 <= Z.log2 (Qfloor q))%Z as He by apply Z.log2_nonneg.
  destruct (Z.leb_spec 52 (Z.log2 (Qfloor q))) as [Hge|Hlt].
  - set (u := inject_Z (2 ^ (Z.log2 (Qfloor q) - 52))).
    assert (0 < u) as Hu by (apply pow2_pos; lia).
    destruct (round_half_even_close (q / u)) as [Hlo Hhi].
    apply (close_up q u _ (q / u)); try assumption.
    + field. lra.
    + unfold u. rewrite <- inject_Z_mult, <- Z.pow_add_r by lia.
      replace (Z.log2 (Qfloor q) - 52 + 52)%Z with (Z.log2 (Qfloor q)) by lia.
      exact Hb.
  - set (s := inject_Z (2 ^ (52 - Z.log2 (Qfloor q)))).
    assert (0 < s) as Hs by (apply pow2_pos; lia).
    destruct (round_half_even_close (q * s)) as [Hlo Hhi].
    apply (close_down q s (inject_Z (round_half_even (q * s))) (q * s));
      try assumption.
    + reflexivity.
    + field. lra.
    + apply Qle_trans with (inject_Z (2 ^ Z.log2 (Qfloor q)) * s).
      * unfold s. rewrite <- inject_Z_mult, <- Z.pow_add_r by lia.
        replace (Z.log2 (Qfloor q) + (52 - Z.log2 (Qfloor q)))%Z with 52%Z by lia.
        apply Qle_refl.
      * apply Qmult_le_compat_r; [exact Hb|lra].
Qed.

(** The integers below 2^53 are doubles. *)
Lemma to_double_exact (n : Z) :
  (1 <= n)%Z → (n < 2 ^ 53)%Z → to_double (inject_Z n) == inject_Z n.
Proof.
  intros H1 H2. unfold to_double. rewrite Qfloor_Z.
  assert (Z.log2 n < 53)%Z as He by (apply Z.log2_lt_pow2; lia).
  assert (0 <= Z.log2 n)%Z as He0 by apply Z.log2_nonneg.
  destruct (Z.leb_spec 52 (Z.log2 n)) as [Hge|Hlt].
  - replace (Z.log2 n - 52)%Z with 0%Z by lia. change (inject_Z (2 ^ 0)) with 1.
    rewrite (round_half_even_comp (inject_Z n / 1) (inject_Z n)) by field.
    rewrite round_half_even_Z. ring.
  - set (k := (2 ^ (52 - Z.log2 n))%Z).
    assert (0 < k)%Z as Hk by (apply Z.pow_pos_nonneg; lia).
    rewrite (round_half_even_comp (inject_Z n * inject_Z k) (inject_Z (n * k)))
      by (rewrite inject_Z_mult; reflexivity).
    rewrite round_half_even_Z, inject_Z_mult. field.
    intros Hz.
    assert (0 < inject_Z k) as Hpos by (rewrite <- (Zlt_Qlt 0); exact Hk).
    rewrite Hz in Hpos. discriminate Hpos.
Qed.

Lemma Qceiling_unique (x : Q) (c : Z) :
  inject_Z c - 1 < x → x <= inject_Z c → Qceiling x = c.
Proof.
  intros Hlo Hhi.
  pose proof (Qle_ceiling x) as Hle. pose proof (Qceiling_lt x) as Hlt.
  unfold Z.sub in Hlt. rewrite inject_Z_plus in Hlt.
  change (inject_Z (- (1))) with (- (1)) in Hlt.
  apply Z.le_antisymm.
  - apply Z.lt_succ_r. rewrite Zlt_Qlt. unfold Z.succ. rewrite inject_Z_plus.
    change (inject_Z 1) with 1. lra.
  - apply Z.lt_succ_r. rewrite Zlt_Qlt. unfold Z.succ. rewrite inject_Z_plus.
    change (inject_Z 1) with 1. lra.
Qed.

Lemma quotient_bounds (x c : Q) :
  x / 1000 <= c → c + - (1) < x / 1000 → x <= 1000 * c ∧ 1000 * c < x + 1000.
Proof.
  unfold Qdiv. change (/ 1000) with (1 # 1000). intros H1 H2. split; lra.
Qed.

Lemma quotient_window (x c d : Q) :
  1000 < x → x <= 9007199254740991 →
  x + 1 <= 1000 * c → 1000 * c + 1 <= x + 1000 →
  x / 1000 - x / 1000 * (1 # 9007199254740992) <= d →
  d <= x / 1000 + x / 1000 * (1 # 9007199254740992) →
  c - 1 < d ∧ d <= c.
Proof.
  unfold Qdiv. change (/ 1000) with (1 # 1000).
  intros H1 H2 H3 H4 H5 H6. split; lra.
Qed.

(** For a whole number of milliseconds up to 2^53 - 1 the rounding of the
    quotient does not show in its ceiling. *)
Lemma ceiling_of_double_quotient (z : Z) :
  (1000 < z)%Z → (z <= 9007199254740991)%Z →
  Qceiling (to_double (inject_Z z / 1000)) = Qceiling (inject_Z z / 1000).
Proof.
  intros Hlo Hhi.
  pose proof (Qle_ceiling (inject_Z z / 1000)) as Hle.
  pose proof (Qceiling_lt (inject_Z z / 1000)) as Hlt.
  remember (Qceiling (inject_Z z / 1000)) as c eqn:Ec. clear Ec.
  unfold Z.sub in Hlt. rewrite inject_Z_plus in Hlt.
  change (inject_Z (- (1))) with (- (1)) in Hlt.
  destruct (quotient_bounds _ _ Hle Hlt) as [Hzc Hcz].
  change 1000 with (inject_Z 1000) in Hzc, Hcz.
  rewrite <- inject_Z_mult in Hzc, Hcz. rewrite <- inject_Z_plus in Hcz.
  rewrite <- Zle_Qle in Hzc. rewrite <- Zlt_Qlt in Hcz.
  destruct (Z.eq_dec z (1000 * c)%Z) as [->|Hne].
  - assert (inject_Z (1000 * c)%Z / 1000 == inject_Z c) as Hc.
    { rewrite inject_Z_mult. change (inject_Z 1000) with 1000. field. }
    rewrite (Qceiling_comp _ _ (to_double_comp _ _ Hc)).
    rewrite (Qceiling_comp _ _ (to_double_exact c ltac:(lia) ltac:(lia))).
    apply Qceiling_Z.
  - assert (z + 1 <= 1000 * c)%Z as Hz1 by lia.
    assert (1000 * c + 1 <= z + 1000)%Z as Hz2 by lia.
    rewrite Zle_Qle, inject_Z_mult, inject_Z_plus in Hz1.
    rewrite Zle_Qle, !inject_Z_plus, inject_Z_mult in Hz2.
    rewrite Zlt_Qlt in Hlo. rewrite Zle_Qle in Hhi.
    change (inject_Z 1000) with 1000 in *. change (inject_Z 1) with 1 in *.
    change (inject_Z 9007199254740991) with 9007199254740991 in Hhi.
    assert (1 <= inject_Z z / 1000) as Hone.
    { apply Qle_shift_div_l; [reflexivity|]. apply Qlt_le_weak. exact Hlo. }
    destruct (to_double_close (inject_Z z / 1000) Hone) as [Hdl Hdh].
    destruct (quotient_window _ _ _ Hlo Hhi Hz1 Hz2 Hdl Hdh) as [Ha Hb].
    by apply Qceiling_unique.
Qed.

Lemma seconds_positive (q d : Q) :
  1 < q → q - q * (1 # 9007199254740992) <= d → 0 < d.
Proof. intros H1 H2. lra. Qed.

(** The converted number of seconds is at least 1. *)
Lemma ceil_seconds_min (t : Q) : 1000 < t → 1 <= ceil_seconds t.
Proof.
  intros H. unfold ceil_seconds.
  assert (1 < t / 1000) as Hq by (apply Qlt_shift_div_l; [reflexivity|exact H]).
  destruct (to_double_close (t / 1000)) as [Hdl _]; [by apply Qlt_le_weak|].
  pose proof (Qle_ceiling (to_double (t / 1000))) as Hle.
  change 1 with (inject_Z 1). rewrite <- Zle_Qle.
  assert (0 < Qceiling (to_double (t / 1000)))%Z; [|lia].
  rewrite Zlt_Qlt. change (inject_Z 0) with 0.
  apply Qlt_le_trans with (to_double (t / 1000)); [|exact Hle].
  exact (seconds_positive _ _ Hq Hdl).
Qed.

Lemma ceil_seconds_comp (t t' : Q) : t == t' → ceil_seconds t = ceil_seconds t'.
Proof.
  intros H. unfold ceil_seconds. f_equal. apply Qceiling_comp, to_double_comp.
  rewrite H. reflexivity.
Qed.

End Doubles.

Lemma normalizeTimeout_fields (r : request) :
  Req.language (normalizeTimeout r) = Req.language r ∧
  Req.code (normalizeTimeout r) = Req.code r ∧
  Req.input (normalizeTimeout r) = Req.input r.
Proof.
  unfold normalizeTimeout. destruct (Req.timeout r) as [t|]; [|done].
  destruct (truthy t && Qgt_bool t 1000); done.
Qed.

Lemma normalizeTimeout_keys (r : request) :
  Req.other_keys (normalizeTimeout r) = Req.other_keys r.
Proof.
  unfold normalizeTimeout. destruct (Req.timeout r) as [t|]; [|done].
  destruct (truthy t && Qgt_bool t 1000); done.
Qed.

Lemma normalizeTimeout_timeout (r : request) :
  Req.timeout (normalizeTimeout r) = seconds_of <$> Req.timeout r.
Proof.
  unfold normalizeTimeout, seconds_of.
  destruct (Req.timeout r) as [t|] eqn:E; [|by rewrite E].
  cbn. destruct (truthy t && Qgt_bool t 1000); [reflexivity|exact E].
Qed.

Lemma seconds_of_above (t : Q) : (1000 < t)%Q → seconds_of t = ceil_seconds t.
Proof.
  intros H. unfold seconds_of.
  by rewrite (truthy_above t H), (proj2 (Qgt_bool_true t 1000) H).
Qed.

Lemma seconds_of_below (t : Q) : (t <= 1000)%Q → seconds_of t = t.
Proof.
  intros H. unfold seconds_of.
  by rewrite (proj2 (Qgt_bool_false t 1000) H), andb_false_r.
Qed.

Lemma effective_timeout_of (r : request) :
  other_fields_valid r →
  effective_timeout r = validate_timeout (seconds_of <$> Req.timeout r).
Proof.
  intros ([l Hl] & [c Hc] & [i Hi] & Hk).
  destruct (normalizeTimeout_fields r) as (El & Ec & Ei).
  unfold effective_timeout, validate.
  rewrite El, Ec, Ei, Hl, Hc, Hi, normalizeTimeout_keys, Hk, normalizeTimeout_timeout.
  destruct (validate_timeout _); reflexivity.
Qed.

(** The schema on a number that is at least 1. *)
Lemma validate_timeout_from_1 (s : Q) :
  (1 <= s)%Q →
  validate_timeout (Some s)
  = if Qgt_bool s MAX_SAFE_INTEGER then inl timeout_unsafe else inr s.
Proof.
  intros H. unfold validate_timeout.
  destruct (Qgt_bool s MAX_SAFE_INTEGER); [reflexivity|].
  assert (Qgt_bool (- MAX_SAFE_INTEGER) s = false) as ->.
  { apply Qgt_bool_false. apply Qle_trans with 1%Q; [discriminate|exact H]. }
  apply Qle_bool_iff in H. by rewrite H.
Qed.

(** The schema on a number below 1. *)
Lemma validate_timeout_below_1 (t : Q) :
  (t < 1)%Q → ∃ e, validate_timeout (Some t) = inl e.
Proof.
  intros H. unfold validate_timeout.
  destruct (_ || _); [by eexists|].
  destruct (Qle_bool 1 t) eqn:E; [|by eexists].
  apply Qle_bool_iff in E. exfalso. exact (Qlt_not_le _ _ H E).
Qed.

(** The seconds of a whole number of milliseconds up to 2^53 - 1: the
    ceiling of the exact quotient, which is a safe number. *)
Lemma ceil_seconds_whole (t : Q) (z : Z) :
  (t == inject_Z z)%Q → (1000 < z)%Z → (z ≤ 9007199254740991)%Z →
  ceil_seconds t = inject_Z (Qceiling (t / 1000)) ∧
  Qgt_bool (ceil_seconds t) MAX_SAFE_INTEGER = false.
Proof.
  intros Ht Hlo Hhi.
  assert (ceil_seconds t = inject_Z (Qceiling (t / 1000))) as E.
  { rewrite (ceil_seconds_comp _ _ Ht). unfold ceil_seconds.
    rewrite (ceiling_of_double_quotient z Hlo Hhi). f_equal.
    apply Qceiling_comp. by rewrite Ht. }
  split; [exact E|]. rewrite E. apply Qgt_bool_false.
  assert (Qceiling (t / 1000) ≤ z)%Z as Hle.
  { rewrite <- (Qceiling_Z z). apply Qceiling_resp_le. rewrite Ht.
    apply Qle_shift_div_r; [reflexivity|].
    rewrite <- (Qmult_1_r (inject_Z z)) at 1.
    apply Qmult_le_l; [|discriminate].
    rewrite <- (Zlt_Qlt 0). lia. }
  unfold MAX_SAFE_INTEGER. change 9007199254740991%Q with (inject_Z 9007199254740991).
  rewrite <- Zle_Qle. lia.
Qed.

(** C3.  The effective timeout of a request.  A supplied value above
    1000 is replaced by [Math.ceil] of the quotient of doubles
    [value / 1000], and the request is refused when that number is above
    2^53 - 1; for a whole number of milliseconds up to 2^53 - 1 this is
    the ceiling of a thousandth of the value.  A value from 1 to 1000 is
    kept as it is (so are 999 and 1000); without a value the timeout is
    10; a value below 1 makes [executeCode] fail. *)
Theorem timeout_normalization (r : request) :
  (other_fields_valid r →
     (∀ t z, Req.timeout r = Some t → (t == inject_Z z)%Q →
        (1000 < z)%Z → (z ≤ 9007199254740991)%Z →
        effective_timeout r = inr (inject_Z (Qceiling (t / 1000)))) ∧
     (∀ t, Req.timeout r = Some t → (1000 < t)%Q →
        effective_timeout r
        = if Qgt_bool (ceil_seconds t) MAX_SAFE_INTEGER
          then inl timeout_unsafe else inr (ceil_seconds t)) ∧
     (∀ t, Req.timeout r = Some t → (1 <= t)%Q → (t <= 1000)%Q →
        effective_timeout r = inr t) ∧
     (Req.timeout r = None → effective_timeout r = inr 10%Q)) ∧
  (∀ t, Req.timeout r = Some t → (t < 1)%Q →
     ∃ e, effective_timeout r = inl e ∧
          ∀ uuid now redis_ok s,
            executeCode r uuid now redis_ok s = (validation_failed e, s)).
Proof.
  assert (∀ t, Req.timeout r = Some t → (1000 < t)%Q → other_fields_valid r →
            effective_timeout r
            = if Qgt_bool (ceil_seconds t) MAX_SAFE_INTEGER
              then inl timeout_unsafe else inr (ceil_seconds t)) as Habove.
  { intros t Ht Hgt Hv. rewrite (effective_timeout_of r Hv), Ht.
      change (seconds_of <$> Some t) with (Some (seconds_of t)).
    rewrite (seconds_of_above t Hgt).
    apply validate_timeout_from_1. by apply ceil_seconds_min. }
  split.
  - intros Hv. split; [|split; [|split]].
    + intros t z Ht Hz Hlo Hhi.
      assert (1000 < t)%Q as Hgt.
      { rewrite Hz. change 1000%Q with (inject_Z 1000). by rewrite <- Zlt_Qlt. }
      rewrite (Habove t Ht Hgt Hv).
      destruct (ceil_seconds_whole t z Hz Hlo Hhi) as [-> ->]. reflexivity.
    + intros t Ht Hgt. by apply Habove.
    + intros t Ht H1 H2. rewrite (effective_timeout_of r Hv), Ht.
      change (seconds_of <$> Some t) with (Some (seconds_of t)).
      rewrite (seconds_of_below t H2), (validate_timeout_from_1 t H1).
      assert (Qgt_bool t MAX_SAFE_INTEGER = false) as ->; [|reflexivity].
      apply Qgt_bool_false. apply Qle_trans with 1000%Q; [exact H2|discriminate].
    + intros Ht. rewrite (effective_timeout_of r Hv), Ht. reflexivity.
  - intros t Ht Hlt.
    assert (seconds_of t = t) as Hs.
    { apply seconds_of_below. apply Qlt_le_weak.
      apply Qlt_trans with 1%Q; [exact Hlt|reflexivity]. }
    destruct (validate_timeout_below_1 t Hlt) as [e0 Hvt].
    assert (∃ e, validate (normalizeTimeout r) = inl e) as [e He].
    { unfold validate. rewrite normalizeTimeout_timeout, Ht.
      change (seconds_of <$> Some t) with (Some (seconds_of t)).
      rewrite Hs, Hvt.
      destruct (validate_language _); [eauto|].
      destruct (validate_code _); [eauto|].
      destruct (validate_input _); eauto. }
    exists e. unfold effective_timeout, executeCode. rewrite He. done.
Qed.

(** ** The demultiplexer *)

Lemma byte_val_of_N (n : N) : byte_val (byte_of_N n) = (n mod 256)%N.
Proof.
  unfold byte_val, byte_of_N.
  destruct (Byte.of_N (n mod 256)) as [b|] eqn:E.
  - simpl. by apply Byte.to_of_N.
  - apply Byte.of_N_None_iff in E.
    pose proof (N.mod_upper_bound n 256). lia.
Qed.

Lemma readUInt8_app (pre l : list byte) (k : nat) :
  readUInt8 (pre ++ l) (length pre + k) = readUInt8 l k.
Proof.
  unfold readUInt8. rewrite lookup_app_r by lia.
  by replace (length pre + k - length pre) with k by lia.
Qed.

Lemma readUInt32BE_app (pre l : list byte) (k : nat) :
  readUInt32BE (pre ++ l) (length pre + k) = readUInt32BE l k.
Proof.
  unfold readUInt32BE. rewrite <- !Nat.add_assoc.
  by rewrite !readUInt8_app.
Qed.

Lemma readUInt32BE_uint32BE (b0 b1 b2 b3 : byte) (n : N) (rest : list byte) :
  (n < 4294967296)%N →
  readUInt32BE ([b0; b1; b2; b3] ++ uint32BE n ++ rest) 4 = n.
Proof.
  intros Hn. unfold readUInt32BE, readUInt8, uint32BE. simpl.
  rewrite !byte_val_of_N.
  pose proof (N.div_mod n 256) as H0.
  pose proof (N.div_mod (n / 256) 256) as H1.
  pose proof (N.div_mod (n / 256 / 256) 256) as H2.
  pose proof (N.mod_upper_bound n 256).
  pose proof (N.mod_upper_bound (n / 256) 256).
  pose proof (N.mod_upper_bound (n / 256 / 256) 256).
  assert (n / 65536 = n / 256 / 256)%N as -> by (rewrite N.Div0.div_div; reflexivity).
  assert (n / 16777216 = n / 256 / 256 / 256)%N as ->
    by (rewrite !N.Div0.div_div; reflexivity).
  assert (n / 256 / 256 / 256 < 256)%N.
  { rewrite !N.Div0.div_div. apply N.Div0.div_lt_upper_bound. simpl. lia. }
  rewrite (N.mod_small (n / 256 / 256 / 256) 256) by assumption.
  lia.
Qed.

Section DemuxFacts.
Context {rt : NodeRuntime}.

Lemma encode_frame_length (f : frame) :
  length (encode_frame f) = 8 + length (payload f).
Proof. unfold encode_frame. destruct (reserved f) as [[r1 r2] r3]. reflexivity. Qed.

Lemma encode_frames_length (fs : list frame) : 8 * length fs ≤ length (encode_frames fs).
Proof.
  induction fs as [|f fs IH]; simpl; [lia|].
  unfold encode_frames in *. simpl. rewrite length_app, encode_frame_length. lia.
Qed.

(** The bound on the turns of the loop is never what ends it: once
    [fuel] covers the bytes from [offset] on, eight per turn, more of it
    changes nothing. *)
Lemma parseLoop_enough_fuel fuel : ∀ buffer offset out err more,
  length buffer ≤ offset + 8 * fuel →
  parseLoop (fuel + more) buffer offset out err = parseLoop fuel buffer offset out err.
Proof.
  induction fuel as [|fuel IH]; intros buffer offset out err more Hlen.
  - destruct more as [|more]; [reflexivity|]. simpl.
    by rewrite decide_False by lia.
  - cbn [Nat.add parseLoop].
    destruct (decide (offset + 8 ≤ length buffer)); [|reflexivity].
    destruct (decide (length buffer < _)); [reflexivity|].
    rewrite !IH by lia. reflexivity.
Qed.

Lemma parsedChunks_fuel (buffer : list byte) (more : nat) :
  parseLoop (length buffer + more) buffer 0 [] [] = parsedChunks buffer.
Proof. apply parseLoop_enough_fuel. lia. Qed.

(** One turn of the loop over a complete frame. *)
Lemma parseLoop_frame fuel pre f rest out err :
  well_formed f →
  parseLoop (S fuel) (pre ++ encode_frame f ++ rest) (length pre) out err =
  if decide (to_stderr f)
  then parseLoop fuel (pre ++ encode_frame f ++ rest) (length (pre ++ encode_frame f))
         out (err ++ [utf8 (payload f)])
  else parseLoop fuel (pre ++ encode_frame f ++ rest) (length (pre ++ encode_frame f))
         (out ++ [utf8 (payload f)]) err.
Proof.
  intros Hwf.
  assert (length (pre ++ encode_frame f ++ rest)
          = length pre + 8 + length (payload f) + length rest) as Hlen
    by (rewrite !length_app, encode_frame_length; lia).
  assert (readUInt8 (pre ++ encode_frame f ++ rest) (length pre)
          = byte_val (selector f)) as Hsel.
  { rewrite <- (Nat.add_0_r (length pre)) at 1. rewrite readUInt8_app.
    unfold encode_frame. by destruct (reserved f) as [[r1 r2] r3]. }
  assert (N.to_nat (readUInt32BE (pre ++ encode_frame f ++ rest) (length pre + 4))
          = length (payload f)) as Hfl.
  { rewrite readUInt32BE_app. unfold encode_frame.
    destruct (reserved f) as [[r1 r2] r3]. rewrite <- !app_assoc.
    rewrite readUInt32BE_uint32BE by exact Hwf. lia. }
  assert (slice (pre ++ encode_frame f ++ rest) (length pre + 8)
            (length pre + 8 + length (payload f)) = payload f) as Hslice.
  { unfold slice.
    replace (length pre + 8 + length (payload f) - (length pre + 8))
      with (length (payload f)) by lia.
    rewrite drop_app_add'; [|reflexivity].
    unfold encode_frame. destruct (reserved f) as [[r1 r2] r3]. simpl.
    by rewrite drop_0, take_app_length. }
  assert (length (pre ++ encode_frame f) = length pre + 8 + length (payload f)) as Hend
    by (rewrite length_app, encode_frame_length; lia).
  cbn [parseLoop]. rewrite Hsel, Hfl, Hslice, Hend.
  rewrite decide_True by lia. rewrite decide_False by lia.
  unfold to_stderr.
  destruct (decide (byte_val (selector f) = 1%N)) as [E1|N1].
  - rewrite decide_False by (rewrite E1; discriminate). reflexivity.
  - destruct (decide (byte_val (selector f) = 2%N)); reflexivity.
Qed.

(** Bytes that do not hold a complete frame end the loop. *)
Lemma parseLoop_incomplete fuel pre rest out err :
  incomplete rest →
  parseLoop fuel (pre ++ rest) (length pre) out err = (out, err).
Proof.
  intros Hinc. destruct fuel as [|fuel]; [reflexivity|].
  cbn [parseLoop]. rewrite length_app.
  destruct (decide (length pre + 8 ≤ length pre + length rest)) as [Hle|]; [|reflexivity].
  rewrite readUInt32BE_app.
  rewrite decide_True; [reflexivity|].
  destruct Hinc as [Hshort|Hcut]; lia.
Qed.

(** The loop over complete frames followed by an incomplete rest. *)
Lemma parseLoop_frames fs : ∀ fuel pre rest out err,
  Forall well_formed fs →
  incomplete rest →
  length fs ≤ fuel →
  parseLoop fuel (pre ++ encode_frames fs ++ rest) (length pre) out err =
  (out ++ stdout_texts fs, err ++ stderr_texts fs).
Proof.
  induction fs as [|f fs IH]; intros fuel pre rest out err Hwf Hinc Hfuel.
  - unfold stdout_texts, stderr_texts. simpl. rewrite !app_nil_r.
    by apply parseLoop_incomplete.
  - apply Forall_cons in Hwf as [Hf Hfs].
    destruct fuel as [|fuel]; [simpl in Hfuel; lia|].
    change (encode_frames (f :: fs)) with (encode_frame f ++ encode_frames fs).
    rewrite <- (app_assoc (encode_frame f)).
    rewrite parseLoop_frame by exact Hf.
    replace (pre ++ encode_frame f ++ encode_frames fs ++ rest)
      with ((pre ++ encode_frame f) ++ encode_frames fs ++ rest)
      by (by rewrite <- !app_assoc).
    unfold stdout_texts, stderr_texts, to_stdout in *.
    destruct (decide (to_stderr f)) as [Herr|Hout].
    + rewrite IH by (try assumption; simpl in Hfuel; lia).
      rewrite (filter_cons_True _ _ _ Herr).
      rewrite filter_cons_False by (intros H; apply H, Herr).
      simpl. by rewrite <- app_assoc.
    + rewrite IH by (try assumption; simpl in Hfuel; lia).
      rewrite (filter_cons_False _ _ _ Hout).
      rewrite filter_cons_True by exact Hout.
      simpl. by rewrite <- app_assoc.
Qed.

Lemma incomplete_nil : incomplete [].
Proof. left. simpl. lia. Qed.

Lemma parsedChunks_frames fs rest :
  Forall well_formed fs → incomplete rest →
  parsedChunks (encode_frames fs ++ rest) = (stdout_texts fs, stderr_texts fs).
Proof.
  intros Hwf Hinc. unfold parsedChunks.
  apply (parseLoop_frames fs _ [] rest [] []); [assumption..|].
  rewrite length_app. pose proof (encode_frames_length fs). lia.
Qed.

Lemma texts_of_frames (f : frame) (fs : list frame) :
  ¬ (length (stdout_texts (f :: fs)) = 0 ∧ length (stderr_texts (f :: fs)) = 0).
Proof.
  unfold stdout_texts, stderr_texts, to_stdout. intros [H1 H2].
  destruct (decide (to_stderr f)) as [Herr|Hout].
  - rewrite (filter_cons_True _ _ _ Herr) in H2. simpl in H2. lia.
  - rewrite filter_cons_True in H1 by exact Hout. simpl in H1. lia.
Qed.

(** C4.  A buffer of complete frames is split by selector: [stdout] is
    the trimmed concatenation of the decoded payloads whose selector is
    not 2, [stderr] that of the payloads whose selector is 2.  Bytes after
    the last complete frame that do not hold a complete frame add no
    chunk, and the output is that of the complete frames. *)
Theorem demultiplexer_frames (fs : list frame) :
  Forall well_formed fs →
  parseDockerLogs (encode_frames fs)
  = {| stdout := trim (join (stdout_texts fs));
       stderr := trim (join (stderr_texts fs)) |}
  ∧ ∀ rest, incomplete rest →
      parsedChunks (encode_frames fs ++ rest) = (stdout_texts fs, stderr_texts fs) ∧
      (fs ≠ [] →
       parseDockerLogs (encode_frames fs ++ rest)
       = {| stdout := trim (join (stdout_texts fs));
            stderr := trim (join (stderr_texts fs)) |}).
Proof.
  intros Hwf. split.
  - unfold parseDockerLogs.
    rewrite <- (app_nil_r (encode_frames fs)) at 1.
    rewrite (parsedChunks_frames fs [] Hwf incomplete_nil).
    destruct fs as [|f fs].
    + unfold stdout_texts, stderr_texts. simpl.
      by rewrite utf8_nil, trim_empty.
    + by rewrite decide_False by apply texts_of_frames.
  - intros rest Hinc. split; [by apply parsedChunks_frames|].
    intros Hne. unfold parseDockerLogs.
    rewrite (parsedChunks_frames fs rest Hwf Hinc).
    destruct fs as [|f fs]; [done|].
    by rewrite decide_False by apply texts_of_frames.
Qed.

End DemuxFacts.

(** ** Output capture *)

Section OutputFacts.
Context {rt : NodeRuntime}.

Lemma no_frames_fallback (buffer : list byte) :
  parsedChunks buffer = ([], []) →
  parseDockerLogs buffer = {| stdout := trim (utf8 buffer); stderr := "" |}.
Proof. intros H. unfold parseDockerLogs. rewrite H. reflexivity. Qed.

(** A buffer that does not start with a complete frame gives no chunk. *)
Lemma incomplete_no_frames (buffer : list byte) :
  incomplete buffer → parsedChunks buffer = ([], []).
Proof. intros H. exact (parseLoop_incomplete (length buffer) [] buffer [] [] H). Qed.

Lemma runCode_exit (e : execution) language code input timeout d c now config :
  LANGUAGE_CONFIG language = Some config →
  exits_and_is_removed d c →
  final (runCode (Some e) language code input timeout d now)
  = Some (set_completed e (snd (getContainerOutput c)) now).
Proof.
  intros Hcfg (Hc & Hs & Ht & Hw & Hr).
  unfold runCode, try_block. rewrite Hcfg, Hc, Hs, Ht, Hw, Hr.
  destruct (getContainerOutput c) as [made result]. reflexivity.
Qed.

(** C5.  The layers of the output fallback.  A non-empty log buffer in
    which no frame is found is returned whole, decoded and trimmed, as
    [stdout], with an empty [stderr].  With an empty log buffer the exit
    code decides: 0 gives a non-empty message in [stdout] and an empty
    [stderr]; another code gives an empty [stdout] and a non-empty
    [stderr] that ends with the code.  Whatever [logs] and [inspect]
    answer, also when they fail, a run whose container exits and is
    removed is recorded as completed. *)
Theorem output_fallback_layers (c : container) :
  (∀ l, logs c = Resolved l →
     outputBuffer_of l ≠ [] → parsedChunks (outputBuffer_of l) = ([], []) →
     snd (getContainerOutput c)
     = {| stdout := trim (utf8 (outputBuffer_of l)); stderr := "" |}) ∧
  (∀ l exitCode, logs c = Resolved l →
     outputBuffer_of l = [] → inspect c = Resolved exitCode →
     (exitCode = 0%Z →
        stdout (snd (getContainerOutput c)) ≠ "" ∧
        stderr (snd (getContainerOutput c)) = "") ∧
     (exitCode ≠ 0%Z →
        stdout (snd (getContainerOutput c)) = "" ∧
        stderr (snd (getContainerOutput c)) ≠ "" ∧
        stderr (snd (getContainerOutput c))
        = "Container exited with code " +:+ number_to_string exitCode)) ∧
  (∀ e language code input timeout d now config,
     LANGUAGE_CONFIG language = Some config →
     exits_and_is_removed d c →
     status <$> final (runCode (Some e) language code input timeout d now)
     = Some completed).
Proof.
  split; [|split].
  - intros l Hl Hne Hnone. unfold getContainerOutput. rewrite Hl.
    rewrite decide_True by (destruct (outputBuffer_of l); [done|simpl; lia]).
    simpl. by apply no_frames_fallback.
  - intros l exitCode Hl Hnil Hi. unfold getContainerOutput. rewrite Hl, Hnil, Hi.
    simpl. unfold exit_report. split; intros Hc.
    + rewrite decide_True by exact Hc. simpl. split; [discriminate|reflexivity].
    + rewrite decide_False by exact Hc. simpl. split; [reflexivity|].
      split; [discriminate|reflexivity].
  - intros e language code input timeout d now config Hcfg Hx.
    by rewrite (runCode_exit e language code input timeout d c now config Hcfg Hx).
Qed.

End OutputFacts.

(** ** Records in the store *)

Lemma redis_key_inj (a b : string) : redis_key a = redis_key b → a = b.
Proof. unfold redis_key. cbn. intros H. by simplify_eq. Qed.

Lemma validate_language_config (l : option string) (language : string) :
  validate_language l = inr language → is_Some (LANGUAGE_CONFIG language).
Proof.
  unfold validate_language. destruct l as [l|]; [|discriminate].
  destruct (decide (l ∈ valid_languages)) as [Hin|]; [|discriminate].
  intros [= <-]. unfold valid_languages in Hin.
  repeat (apply elem_of_cons in Hin as [->|Hin]; [by eexists|]).
  by apply elem_of_nil in Hin.
Qed.

Lemma validate_config (r : request) (value : validated) :
  validate r = inr value → is_Some (LANGUAGE_CONFIG (v_language value)).
Proof.
  unfold validate.
  destruct (validate_language (Req.language r)) as [|language] eqn:Hl; [discriminate|].
  destruct (validate_code (Req.code r)); [discriminate|].
  destruct (validate_input (Req.input r)); [discriminate|].
  destruct (validate_timeout (Req.timeout r)); [discriminate|].
  destruct (Req.other_keys r); [|discriminate].
  intros [= <-]. simpl. by eapply validate_language_config.
Qed.

Lemma fresh_not_terminal (e : execution) : fresh_record e → ¬ terminal (status e).
Proof. intros (Hs & _) [H|H]; congruence. Qed.

Lemma new_execution_fresh uuid value now : fresh_record (new_execution uuid value now).
Proof. by repeat split. Qed.

Section RunFacts.
Context {rt : NodeRuntime}.

(** Whatever happens, the record that [runCode] hands to the store is
    settled. *)
Lemma runCode_settles (e : option execution) language code input timeout d now e' :
  final (runCode e language code input timeout d now) = Some e' →
  settled_record e'.
Proof.
  unfold runCode. destruct (LANGUAGE_CONFIG language); [|discriminate].
  destruct (try_block _ d) as [made r]. destruct e as [e|]; [|discriminate].
  destruct r; simpl; intros [= <-]; split; simpl; eauto; unfold terminal; auto.
Qed.

Lemma invariant_initial : invariant initial.
Proof. split; simpl; intros *; by rewrite lookup_empty. Qed.

Lemma invariant_submit w r uuid now ok value :
  invariant w →
  validate (normalizeTimeout r) = inr value →
  uuid ∉ issued w →
  invariant
    {| storage := snd (executeCode r uuid now ok (storage w));
       tasks := <[uuid := {| task_language := v_language value;
                             task_code := v_code value;
                             task_input := v_input value;
                             task_timeout := v_timeout value;
                             task_execution := None |}]> (tasks w);
       issued := {[uuid]} ∪ issued w |}.
Proof.
  intros [Hr Hm Ht] Hv Hfresh. unfold executeCode. rewrite Hv.
  pose proof (new_execution_fresh uuid value now) as Hnew.
  assert (redis (storage w) !! redis_key uuid = None) as Hr0.
  { destruct (redis (storage w) !! redis_key uuid) as [e|] eqn:E; [|done].
    destruct (Hr _ _ E) as (_ & i & Hk & Hi). apply redis_key_inj in Hk. by subst. }
  assert (memoryStorage (storage w) !! uuid = None) as Hm0.
  { destruct (memoryStorage (storage w) !! uuid) as [e|] eqn:E; [|done].
    by destruct (Hm _ _ E). }
  split; simpl.
  - intros k e. destruct ok; simpl.
    + rewrite lookup_insert. case_decide as Hk.
      * intros [= <-]. split; [by left|]. exists uuid. split; [done|].
        by apply elem_of_union_l, elem_of_singleton.
      * intros E. destruct (Hr _ _ E) as (? & i & ? & ?).
        split; [done|]. exists i. split; [done|by apply elem_of_union_r].
    + intros E. destruct (Hr _ _ E) as (? & i & ? & ?).
      split; [done|]. exists i. split; [done|by apply elem_of_union_r].
  - intros k e. destruct ok; simpl.
    + intros E. destruct (Hm _ _ E). split; [done|by apply elem_of_union_r].
    + rewrite lookup_insert. case_decide as Hk.
      * intros [= <-]. split; [by left|]. by apply elem_of_union_l, elem_of_singleton.
      * intros E. destruct (Hm _ _ E). split; [done|by apply elem_of_union_r].
  - intros i t. rewrite lookup_insert. case_decide as Hi.
    + intros [= <-]. subst i. simpl.
      split; [by apply elem_of_union_l, elem_of_singleton|].
      split; [by eapply validate_config|].
      split; [|split; [|done]]; intros e; destruct ok; simpl;
        rewrite ?lookup_insert_eq, ?Hr0, ?Hm0; by intros [= <-].
    + intros E. destruct (Ht _ _ E) as (Hin & Hcfg & Hfr & Hfm & Hfc).
      split; [by apply elem_of_union_r|]. split; [done|]. split; [|split; [|done]];
        intros e; destruct ok; simpl; rewrite ?lookup_insert_ne; eauto.
      intros Hk. by apply redis_key_inj in Hk.
Qed.

End RunFacts.
Section WorldFacts.
Context {rt : NodeRuntime}.

Lemma invariant_fetch w i ok t :
  invariant w →
  tasks w !! i = Some t →
  invariant
    {| storage := storage w;
       tasks := <[i := {| task_language := task_language t;
                          task_code := task_code t;
                          task_input := task_input t;
                          task_timeout := task_timeout t;
                          task_execution := Some (fetch ok i (storage w)) |}]> (tasks w);
       issued := issued w |}.
Proof.
  intros [Hr Hm Ht] Hti. split; simpl; [done..|].
  intros j t'. rewrite lookup_insert. case_decide as Hj; [|by apply Ht].
  intros [= <-]. subst j. simpl.
  destruct (Ht _ _ Hti) as (Hin & Hcfg & Hfr & Hfm & _).
  repeat (split; [done|]).
  intros e. unfold fetch. destruct ok.
  - destruct (redis (storage w) !! redis_key i) as [e0|] eqn:E; [|discriminate].
    intros [= <-]. by apply Hfr.
  - by destruct (memoryStorage (storage w) !! i).
Qed.

Lemma invariant_settle w i ok t r e' :
  invariant w →
  tasks w !! i = Some t →
  settled_record e' →
  invariant
    {| storage := storeExecution ok i e' (assign r i e' (storage w));
       tasks := delete i (tasks w);
       issued := issued w |}.
Proof.
  intros [Hr Hm Ht] Hti Hset.
  destruct (Ht _ _ Hti) as (Hin & _).
  assert (∀ k e, memoryStorage (assign r i e' (storage w)) !! k = Some e →
            (e = e' ∧ k = i) ∨ memoryStorage (storage w) !! k = Some e) as Hassign.
  { intros k e. destruct r; simpl; auto.
    rewrite lookup_insert. case_decide; [intros [= <-]|]; auto. }
  assert (redis (assign r i e' (storage w)) = redis (storage w)) as Hredis
    by (by destruct r).
  split; simpl.
  - intros k e. destruct ok; simpl; rewrite Hredis; [|by apply Hr].
    rewrite lookup_insert. case_decide; [|by apply Hr].
    intros [= <-]. split; [by right|]. by exists i.
  - intros k e. destruct ok; simpl.
    + intros E. destruct (Hassign _ _ E) as [[-> ->]|E']; [|by apply (Hm _ _ E')].
      split; [by right|done].
    + rewrite lookup_insert. case_decide as Hk.
      * intros [= <-]. subst k. split; [by right|done].
      * intros E. destruct (Hassign _ _ E) as [[-> ->]|E']; [done|by apply (Hm _ _ E')].
  - intros j t'. rewrite lookup_delete. case_decide as Hj; [done|].
    intros Htj. destruct (Ht _ _ Htj) as (Hjin & Hcfg & Hfr & Hfm & Hfc).
    repeat (split; [done|]). split; [|split; [|done]]; intros e.
    + destruct ok; simpl; rewrite Hredis; [|by apply Hfr].
      rewrite lookup_insert_ne; [by apply Hfr|].
      intros Hk. by apply redis_key_inj in Hk.
    + intros E. apply Hfm.
      destruct ok; simpl in E; [|rewrite lookup_insert_ne in E by done];
        by destruct (Hassign _ _ E) as [[_ ->]|E'].
Qed.

Lemma invariant_step w ev w' : invariant w → step w ev = Some w' → invariant w'.
Proof.
  intros Hinv. destruct ev as [r uuid now ok|i ok|i d now ok]; simpl.
  - destruct (validate (normalizeTimeout r)) as [err|value] eqn:Hv; [congruence|].
    case_decide as Hin; [discriminate|]. intros [= <-].
    by apply invariant_submit.
  - destruct (tasks w !! i) as [t|] eqn:Hti; [|discriminate].
    destruct (task_execution t); [discriminate|]. intros [= <-].
    by apply invariant_fetch.
  - destruct (tasks w !! i) as [t|] eqn:Hti; [|discriminate].
    destruct (task_execution t) as [r|]; [|discriminate]. intros [= <-].
    destruct (final (runCode _ _ _ _ _ d now)) as [e'|] eqn:Hfin.
    + eapply invariant_settle; [done..|]. by eapply runCode_settles.
    + destruct Hinv as [Hr Hm Ht]. split; simpl; [done..|].
      intros j t'. rewrite lookup_delete. case_decide; [done|]. apply Ht.
Qed.

Lemma invariant_steps evs : ∀ w w', invariant w → steps w evs = Some w' → invariant w'.
Proof.
  induction evs as [|ev evs IH]; intros w w' Hinv; simpl.
  - by intros [= <-].
  - destruct (step w ev) as [w1|] eqn:Hs; [|discriminate].
    apply IH. by eapply invariant_step.
Qed.

Lemma reachable_invariant w : reachable w → invariant w.
Proof. intros [evs H]. by eapply invariant_steps; [apply invariant_initial|]. Qed.

Lemma record_ok_endTime (e : execution) :
  record_ok e → (endTime e ≠ None ↔ terminal (status e)).
Proof.
  intros [(Hs & He & _)|(Ht & [x Hx])]; split; intros H.
  - congruence.
  - destruct H; congruence.
  - done.
  - congruence.
Qed.

(** A step never touches a settled record. *)
Lemma step_keeps_settled w ev w' :
  invariant w → step w ev = Some w' →
  ∀ k e, terminal (status e) →
    (redis (storage w) !! k = Some e → redis (storage w') !! k = Some e) ∧
    (memoryStorage (storage w) !! k = Some e →
       memoryStorage (storage w') !! k = Some e).
Proof.
  intros Hinv Hstep k e Hterm. pose proof Hinv as [Hr Hm Ht].
  destruct ev as [r uuid now ok|i ok|i d now ok]; simpl in Hstep.
  - destruct (validate (normalizeTimeout r)) as [err|value] eqn:Hv;
      [by simplify_eq|].
    case_decide as Hin; [discriminate|]. simplify_eq. simpl.
    unfold executeCode. rewrite Hv. simpl.
    split; intros E; destruct ok; simpl; try done.
    + rewrite lookup_insert_ne; [done|]. intros <-.
      destruct (Hr _ _ E) as (_ & j & Hk & Hj). apply redis_key_inj in Hk. by subst.
    + rewrite lookup_insert_ne; [done|]. intros <-. by destruct (Hm _ _ E).
  - destruct (tasks w !! i) as [t|]; [|discriminate].
    destruct (task_execution t); [discriminate|]. by simplify_eq.
  - destruct (tasks w !! i) as [t|] eqn:Hti; [|discriminate].
    destruct (task_execution t) as [r|]; [|discriminate]. simplify_eq. simpl.
    destruct (Ht _ _ Hti) as (_ & _ & Hfr & Hfm & _).
    destruct (final (runCode _ _ _ _ _ d now)) as [e'|]; [|done].
    assert (redis_key i ≠ k ∨ redis (storage w) !! k ≠ Some e) as Hk1.
    { destruct (decide (redis_key i = k)) as [<-|]; [right|by left].
      intros E. by apply (fresh_not_terminal e (Hfr _ E)). }
    assert (i ≠ k ∨ memoryStorage (storage w) !! k ≠ Some e) as Hk2.
    { destruct (decide (i = k)) as [<-|]; [right|by left].
      intros E. by apply (fresh_not_terminal e (Hfm _ E)). }
    split; intros E.
    + destruct Hk1 as [Hne|]; [|done].
      destruct ok, r; simpl; rewrite ?lookup_insert_ne; done.
    + destruct Hk2 as [Hne|]; [|done].
      destruct ok, r; simpl; rewrite ?lookup_insert_ne; done.
Qed.

Lemma steps_keep_settled evs : ∀ w w',
  invariant w → steps w evs = Some w' →
  ∀ k e, terminal (status e) →
    (redis (storage w) !! k = Some e → redis (storage w') !! k = Some e) ∧
    (memoryStorage (storage w) !! k = Some e →
       memoryStorage (storage w') !! k = Some e).
Proof.
  induction evs as [|ev evs IH]; intros w w' Hinv; simpl.
  - by intros [= <-].
  - destruct (step w ev) as [w1|] eqn:Hs; [|discriminate].
    intros Hrest k e Hterm.
    destruct (step_keeps_settled w ev w1 Hinv Hs k e Hterm) as [Hr1 Hm1].
    destruct (IH w1 w' (invariant_step w ev w1 Hinv Hs) Hrest k e Hterm) as [Hr2 Hm2].
    split; auto.
Qed.

(** C7.  In every world the service reaches, a stored record has an
    [endTime] exactly when its status is completed or failed, and a stored
    record with such a status stays as it is, status, end time, output and
    error included, whatever happens afterwards. *)
Theorem terminal_once (w : world) :
  reachable w →
  (∀ e, stored w e → (endTime e ≠ None ↔ terminal (status e))) ∧
  (∀ evs w', steps w evs = Some w' →
     ∀ k e, terminal (status e) →
       (redis (storage w) !! k = Some e → redis (storage w') !! k = Some e) ∧
       (memoryStorage (storage w) !! k = Some e →
          memoryStorage (storage w') !! k = Some e)).
Proof.
  intros Hreach. pose proof (reachable_invariant w Hreach) as Hinv. split.
  - intros e [k [E|E]]; apply record_ok_endTime.
    + by destruct (inv_redis w Hinv _ _ E).
    + by destruct (inv_memory w Hinv _ _ E).
  - intros evs w' Hsteps. by apply (steps_keep_settled evs w w').
Qed.

End WorldFacts.
(** ** Outcomes of a run *)

Section OutcomeFacts.
Context {rt : NodeRuntime}.

Lemma runCode_timeout (e : execution) language code input timeout d c now config :
  LANGUAGE_CONFIG language = Some config →
  create d = Resolved c → start c = Resolved () → timer_first d = true →
  final (runCode (Some e) language code input timeout d now)
  = Some (set_failed e "Execution timeout" now).
Proof.
  intros Hcfg Hc Hs Ht. unfold runCode, try_block.
  by rewrite Hcfg, Hc, Hs, Ht.
Qed.

Lemma stored_then_read ok i e s : getExecution ok i (storeExecution ok i e s) = Some e.
Proof. unfold getExecution, storeExecution. destruct ok; simpl; apply lookup_insert_eq. Qed.

(** C8.  A run whose timer fires first.  In every reachable world, when
    the task of an execution that holds its record settles with the timer
    first, the record then stored and returned by the status lookup is
    failed with the message [Execution timeout], and its output is still
    [null]: nothing of what the container logged is in it. *)
Theorem timeout_is_failed_without_output (w : world) (i : string) (t : task)
    (r : execution_ref) (e : execution) (d : docker) (c : container)
    (now : string) (ok : bool) :
  reachable w →
  tasks w !! i = Some t →
  task_execution t = Some r →
  deref r i (storage w) = Some e →
  create d = Resolved c → start c = Resolved () → timer_first d = true →
  ∃ w' e', step w (Settle i d now ok) = Some w' ∧
           getExecutionStatus ok i (storage w') = Resolved e' ∧
           status e' = failed ∧
           error e' = Some "Execution timeout" ∧
           output e' = None ∧
           endTime e' = Some now.
Proof.
  intros Hreach Hti Hte Hderef Hc Hs Htimer.
  destruct (reachable_invariant w Hreach) as [Hr Hm Ht].
  destruct (Ht _ _ Hti) as (_ & [config Hcfg] & Hfr & Hfm & Hfc).
  assert (fresh_record e) as (_ & _ & Hout & _).
  { destruct r; simpl in Hderef; [by apply Hfm| |done].
    injection Hderef as ->. by apply Hfc. }
  eexists _, (set_failed e "Execution timeout" now).
  split; [|split].
  - simpl. rewrite Hti, Hte, Hderef.
    rewrite (runCode_timeout e _ _ _ _ d c now config Hcfg Hc Hs Htimer).
    reflexivity.
  - simpl. unfold getExecutionStatus. by rewrite stored_then_read.
  - simpl. by rewrite Hout.
Qed.

(** C10.  The exit code of the program does not make a run fail.  A
    container that starts, logs something, exits with a nonzero code and
    is removed gives a completed record whose [error] is the [stderr] of
    the demultiplexed log.  A record is failed only if a call of the [try]
    block threw: creating or starting the container, the timer, [wait], or
    the first [remove]. *)
Theorem nonzero_exit_is_completed (eo : option execution) (language code : string)
    (input : option string) (timeout : Q) (d : docker) (now : string) :
  (∀ e c l exitCode config,
     eo = Some e →
     LANGUAGE_CONFIG language = Some config →
     exits_and_is_removed d c →
     logs c = Resolved l → outputBuffer_of l ≠ [] →
     inspect c = Resolved exitCode → exitCode ≠ 0%Z →
     ∃ e', final (runCode eo language code input timeout d now) = Some e' ∧
           status e' = completed ∧
           output e' = Some (stdout (parseDockerLogs (outputBuffer_of l))) ∧
           error e' = Some (stderr (parseDockerLogs (outputBuffer_of l)))) ∧
  (∀ e', final (runCode eo language code input timeout d now) = Some e' →
         status e' = failed → exception_thrown d).
Proof.
  split.
  - intros e c l exitCode config -> Hcfg Hx Hl Hne Hi Hcode.
    eexists. split; [by eapply runCode_exit|].
    unfold getContainerOutput. rewrite Hl.
    rewrite decide_True by (destruct (outputBuffer_of l); [done|simpl; lia]).
    done.
  - intros e'. unfold runCode, try_block, exception_thrown.
    destruct (LANGUAGE_CONFIG language); [|discriminate].
    destruct (create d) as [c|m]; [|done].
    destruct (start c) as [[]|m]; [|by eauto].
    destruct (timer_first d); [by eauto|].
    destruct (wait c) as [[]|m]; [|by eauto 6].
    destruct (getContainerOutput c) as [made result].
    destruct (remove c) as [[]|m]; [|by eauto 6].
    destruct eo as [e|]; [|discriminate]. simpl. by intros [= <-].
Qed.

(** A [remove] that throws in the [try] block is caught like any other
    error of the run. *)
Lemma runCode_remove_throws (e : execution) language code input timeout d c now
    config message :
  LANGUAGE_CONFIG language = Some config →
  create d = Resolved c → start c = Resolved () → timer_first d = false →
  wait c = Resolved () → remove c = Rejected message →
  final (runCode (Some e) language code input timeout d now)
  = Some (set_failed e message now).
Proof.
  intros Hcfg Hc Hs Ht Hw Hr. unfold runCode, try_block.
  rewrite Hcfg, Hc, Hs, Ht, Hw, Hr.
  by destruct (getContainerOutput c).
Qed.

Lemma runCode_calls e language code input timeout d now :
  calls (runCode (Some e) language code input timeout d now) = calls_of language code d.
Proof.
  unfold runCode, calls_of. destruct (LANGUAGE_CONFIG language); [|done].
  destruct (try_block _ d) as [made r]. by destruct r.
Qed.

Lemma getContainerOutput_calls c options :
  Forall (carries_only options) (getContainerOutput c).1.
Proof.
  unfold getContainerOutput.
  destruct (logs c) as [l|m]; [destruct (decide (0 < length (outputBuffer_of l)))|];
    simpl; repeat constructor.
Qed.

Lemma try_block_calls options d :
  Forall (carries_only options) (try_block options d).1.
Proof.
  unfold try_block.
  destruct (create d) as [c|m]; [|by repeat constructor].
  destruct (start c) as [[]|m]; [|by repeat constructor].
  destruct (timer_first d); [by repeat constructor|].
  destruct (wait c) as [[]|m]; [|by repeat constructor].
  pose proof (getContainerOutput_calls c options) as Hout.
  destruct (getContainerOutput c) as [made result]. simpl in Hout.
  destruct (remove c) as [[]|m]; cbn [fst]; rewrite !Forall_app;
    repeat split; try done; by repeat constructor.
Qed.

Lemma late_calls_carry d options : Forall (carries_only options) (late_calls d).
Proof.
  unfold late_calls.
  destruct (create d) as [c|m]; [|constructor].
  destruct (start c) as [[]|m]; [|constructor].
  destruct (timer_first d); [|constructor].
  destruct (wait c) as [[]|m]; [|constructor].
  apply getContainerOutput_calls.
Qed.

Lemma late_calls_no_timer d : timer_first d = false → late_calls d = [].
Proof.
  intros H. unfold late_calls. rewrite H.
  destruct (create d) as [c|m]; [|done]. by destruct (start c) as [[]|m].
Qed.

Lemma calls_of_create language code d config :
  LANGUAGE_CONFIG language = Some config →
  Forall (carries_only (container_options_for config code)) (calls_of language code d).
Proof.
  intros Hcfg. unfold calls_of. rewrite Hcfg.
  pose proof (try_block_calls (container_options_for config code) d) as Hmade.
  pose proof (late_calls_carry d (container_options_for config code)) as Hlate.
  destruct (try_block _ d) as [made r]. simpl in Hmade.
  destruct r as [|m [c|]]; rewrite ?Forall_app;
    repeat split; try done; by repeat constructor.
Qed.

End OutcomeFacts.

(** ** Requests *)

Lemma validate_fields (r : request) (value : validated) :
  validate r = inr value →
  validate_language (Req.language r) = inr (v_language value) ∧
  validate_code (Req.code r) = inr (v_code value) ∧
  validate_input (Req.input r) = inr (v_input value) ∧
  validate_timeout (Req.timeout r) = inr (v_timeout value).
Proof.
  unfold validate.
  destruct (validate_language (Req.language r)); [discriminate|].
  destruct (validate_code (Req.code r)); [discriminate|].
  destruct (validate_input (Req.input r)); [discriminate|].
  destruct (validate_timeout (Req.timeout r)); [discriminate|].
  destruct (Req.other_keys r); [|discriminate].
  by intros [= <-].
Qed.

Section RequestFacts.
Context {rt : NodeRuntime}.

(** C9.  The input of a request does not reach the container.  For two
    accepted requests that differ at most in their input, the engine calls
    of the two runs are the same, whatever the engine answers; the only
    call that carries data is [createContainer], with the options built
    from the language configuration and the code, whose command is
    [sh -c] of the shell command built from these two. *)
Theorem input_never_reaches_container (r1 r2 : request) (v1 v2 : validated) :
  Req.language r1 = Req.language r2 →
  Req.code r1 = Req.code r2 →
  Req.timeout r1 = Req.timeout r2 →
  validate (normalizeTimeout r1) = inr v1 →
  validate (normalizeTimeout r2) = inr v2 →
  ∃ config,
    LANGUAGE_CONFIG (v_language v1) = Some config ∧
    Cmd (container_options_for config (v_code v1))
    = ["sh"; "-c"; shell_command config (v_code v1)] ∧
    ∀ e1 e2 d now1 now2,
      calls (runCode (Some e1) (v_language v1) (v_code v1) (v_input v1)
               (v_timeout v1) d now1)
      = calls (runCode (Some e2) (v_language v2) (v_code v2) (v_input v2)
                 (v_timeout v2) d now2) ∧
      Forall (carries_only (container_options_for config (v_code v1)))
        (calls (runCode (Some e1) (v_language v1) (v_code v1) (v_input v1)
                  (v_timeout v1) d now1)).
Proof.
  intros Hl Hc Ht H1 H2.
  destruct (validate_config _ _ H1) as [config Hcfg].
  apply validate_fields in H1 as (Hl1 & Hc1 & _).
  apply validate_fields in H2 as (Hl2 & Hc2 & _).
  destruct (normalizeTimeout_fields r1) as (El1 & Ec1 & _).
  destruct (normalizeTimeout_fields r2) as (El2 & Ec2 & _).
  rewrite El1 in Hl1. rewrite Ec1 in Hc1. rewrite El2, <- Hl, Hl1 in Hl2.
  rewrite Ec2, <- Hc, Hc1 in Hc2.
  injection Hl2 as Hl2. injection Hc2 as Hc2.
  exists config. split; [done|]. split; [done|].
  intros e1 e2 d now1 now2. rewrite !runCode_calls, <- Hl2, <- Hc2.
  split; [done|]. by apply calls_of_create.
Qed.

(** C6.  A request whose language is not one of the five, or whose code
    is longer than 50000 characters, is refused by [executeCode] with a
    validation failure, and neither the store nor the tasks change: no
    record of it exists, pending or other. *)
Theorem invalid_request_leaves_no_record (r : request) :
  (∀ l, l ∈ valid_languages → Req.language r ≠ Some l) ∨
  (∃ c, Req.code r = Some c ∧ (50000 < Z.of_nat (String.length c))%Z) →
  ∃ e, ∀ uuid now ok,
    (∀ s, executeCode r uuid now ok s = (validation_failed e, s)) ∧
    (∀ w, step w (Submit r uuid now ok) = Some w).
Proof.
  intros Hbad.
  assert (∃ e, validate (normalizeTimeout r) = inl e) as [e He].
  { destruct (normalizeTimeout_fields r) as (El & Ec & _).
    unfold validate. rewrite El, Ec.
    destruct Hbad as [Hlang|(c & Hc & Hlen)].
    - unfold validate_language. destruct (Req.language r) as [l|]; [|by eauto].
      destruct (decide (l ∈ valid_languages)) as [Hin|]; [|by eauto].
      by destruct (Hlang l Hin).
    - destruct (validate_language (Req.language r)); [by eauto|].
      rewrite Hc. unfold validate_code.
      destruct (decide (c = "")); [by eauto|].
      rewrite decide_False by lia. by eauto. }
  exists e. intros uuid now ok. split.
  - intros s. unfold executeCode. by rewrite He.
  - intros w. simpl. by rewrite He.
Qed.

End RequestFacts.

(** C2 (as the code has it).  The record that [executeCode] creates for an
    accepted request is the one the status lookup returns.  Its
    properties are [id], [status], [language], [code], [input], [timeout],
    [startTime], [endTime], [output] and [error]; the normalized deadline
    is the value of [timeout], and there is no property [timeoutSeconds].
    Read back from Redis the object has the same properties, without
    [input] when the request had none. *)
Theorem record_properties (r : request) (value : validated) (uuid now : string)
    (ok : bool) (s : store) :
  validate (normalizeTimeout r) = inr value →
  ∃ e,
    executeCode r uuid now ok s = (started uuid, storeExecution ok uuid e s) ∧
    getExecutionStatus ok uuid (storeExecution ok uuid e s) = Resolved e ∧
    map fst (properties e)
    = ["id"; "status"; "language"; "code"; "input"; "timeout";
       "startTime"; "endTime"; "output"; "error"] ∧
    (∃ t, effective_timeout r = inr t ∧
          property "timeout" (returned_properties ok e) = Some (js_number t)) ∧
    property "timeoutSeconds" (returned_properties ok e) = None ∧
    (∀ k, k ∈ map fst (properties e) → k ≠ "input" →
          is_Some (property k (returned_properties ok e))) ∧
    (is_Some (property "input" (json_properties e)) ↔ is_Some (Req.input r)).
Proof.
  intros Hv. exists (new_execution uuid value now).
  split; [unfold executeCode; by rewrite Hv|].
  split; [unfold getExecutionStatus; by rewrite stored_then_read|].
  split; [done|].
  assert (∀ k, k ≠ "input" →
            property k (json_properties (new_execution uuid value now))
            = property k (properties (new_execution uuid value now))) as Hjson.
  { intros k Hk. unfold json_properties, properties. simpl.
    destruct (v_input value); simpl; repeat case_decide; congruence. }
  assert (property "input" (json_properties (new_execution uuid value now))
          = js_string <$> v_input value) as Hinput.
  { unfold json_properties, properties. simpl. by destruct (v_input value). }
  split; [|split; [|split]].
  - exists (v_timeout value). split; [unfold effective_timeout; by rewrite Hv|].
    destruct ok; unfold returned_properties; [rewrite Hjson by done|]; done.
  - destruct ok; unfold returned_properties; [rewrite Hjson by done|]; done.
  - intros k Hk Hne. simpl in Hk.
    assert (is_Some (property k (properties (new_execution uuid value now)))) as Hp.
    { repeat (apply elem_of_cons in Hk as [->|Hk];
              [simpl; repeat case_decide; by eauto|]).
      by apply elem_of_nil in Hk. }
    destruct ok; unfold returned_properties; [|done]. by rewrite Hjson.
  - rewrite Hinput.
    apply validate_fields in Hv as (_ & _ & Hi & _).
    destruct (normalizeTimeout_fields r) as (_ & _ & Ei). rewrite Ei in Hi.
    unfold validate_input in Hi. destruct (Req.input r) as [i|].
    + case_decide; [|discriminate]. injection Hi as <-. simpl. split; by eauto.
    + injection Hi as <-. simpl. split; intros [? ?]; discriminate.
Qed.

(** * Instances at the sample inputs *)

Lemma python_request_fields_valid t : other_fields_valid (python_request t).
Proof. refine (conj _ (conj _ (conj _ _))); [by eexists..|reflexivity]. Qed.

Lemma timeout_normalization_witness :
  effective_timeout (python_request (Some 5000%Q)) = inr 5%Q ∧
  effective_timeout (python_request (Some 1001%Q)) = inr 2%Q ∧
  effective_timeout (python_request (Some 9007199254740991%Q)) = inr 9007199254741%Q ∧
  effective_timeout (python_request (Some 144115188075859008%Q))
  = inr 144115188075859%Q ∧
  effective_timeout (python_request (Some 10000000000000000000%Q))
  = inl timeout_unsafe ∧
  effective_timeout (python_request (Some 5%Q)) = inr 5%Q ∧
  effective_timeout (python_request (Some 999%Q)) = inr 999%Q ∧
  effective_timeout (python_request (Some 1000%Q)) = inr 1000%Q ∧
  effective_timeout (python_request None) = inr 10%Q ∧
  ∃ e, effective_timeout (python_request (Some 0%Q)) = inl e.
Proof.
  pose proof python_request_fields_valid as Hv.
  refine (conj _ (conj _ (conj _ (conj _ (conj _ (conj _
            (conj _ (conj _ (conj _ _))))))))).
  - destruct (timeout_normalization (python_request (Some 5000%Q))) as [H _].
    destruct (H (Hv _)) as (H1 & _).
    refine (H1 5000%Q 5000%Z eq_refl eq_refl eq_refl _). discriminate.
  - destruct (timeout_normalization (python_request (Some 1001%Q))) as [H _].
    destruct (H (Hv _)) as (H1 & _).
    refine (H1 1001%Q 1001%Z eq_refl eq_refl eq_refl _). discriminate.
  - destruct (timeout_normalization (python_request (Some 9007199254740991%Q)))
      as [H _].
    destruct (H (Hv _)) as (H1 & _).
    refine (H1 9007199254740991%Q 9007199254740991%Z eq_refl eq_refl eq_refl _).
    discriminate.
  - destruct (timeout_normalization (python_request (Some 144115188075859008%Q)))
      as [H _].
    destruct (H (Hv _)) as (_ & H2 & _).
    exact (H2 144115188075859008%Q eq_refl eq_refl).
  - destruct (timeout_normalization (python_request (Some 10000000000000000000%Q)))
      as [H _].
    destruct (H (Hv _)) as (_ & H2 & _).
    exact (H2 10000000000000000000%Q eq_refl eq_refl).
  - destruct (timeout_normalization (python_request (Some 5%Q))) as [H _].
    destruct (H (Hv _)) as (_ & _ & H3 & _).
    refine (H3 5%Q eq_refl _ _); discriminate.
  - destruct (timeout_normalization (python_request (Some 999%Q))) as [H _].
    destruct (H (Hv _)) as (_ & _ & H3 & _).
    refine (H3 999%Q eq_refl _ _); discriminate.
  - destruct (timeout_normalization (python_request (Some 1000%Q))) as [H _].
    destruct (H (Hv _)) as (_ & _ & H3 & _).
    refine (H3 1000%Q eq_refl _ _); discriminate.
  - destruct (timeout_normalization (python_request None)) as [H _].
    destruct (H (Hv _)) as (_ & _ & _ & H4).
    exact (H4 eq_refl).
  - destruct (timeout_normalization (python_request (Some 0%Q))) as [_ H].
    destruct (H 0%Q eq_refl eq_refl) as (e & He & _).
    by exists e.
Defined.

(** C3, as the specification words it, fails for large values.  The
    double nearest to a thousandth of 144115188075859008 is the whole
    number 144115188075859, which the record gets, while the ceiling of
    the quotient is 144115188075860; and the request with the timeout
    10^19 is refused, its 10^16 seconds being no safe number. *)
Lemma timeout_beyond_double_precision :
  (to_double (144115188075859008 / 1000) == 144115188075859)%Q ∧
  effective_timeout (python_request (Some 144115188075859008%Q))
  = inr 144115188075859%Q ∧
  inject_Z (Qceiling (144115188075859008 / 1000)) = 144115188075860%Q ∧
  effective_timeout (python_request (Some 144115188075859008%Q))
  ≠ inr (inject_Z (Qceiling (144115188075859008 / 1000))) ∧
  executeCode (python_request (Some 10000000000000000000%Q)) sample_uuid
    "2024-01-01T00:00:00.000Z" true empty_store
  = (validation_failed timeout_unsafe, empty_store).
Proof.
  refine (conj _ (conj _ (conj _ (conj _ _)))).
  - vm_compute. reflexivity.
  - vm_compute. reflexivity.
  - vm_compute. reflexivity.
  - vm_compute. discriminate.
  - vm_compute. reflexivity.
Qed.

Lemma sample_frames_well_formed : Forall well_formed sample_frames.
Proof. repeat constructor. Defined.

Lemma demultiplexer_frames_witness :
  Forall well_formed sample_frames ∧
  parseDockerLogs (rt := byte_runtime) (encode_frames sample_frames)
  = {| stdout := "hi!"; stderr := "oops" |} ∧
  parsedChunks (rt := byte_runtime) (encode_frames sample_frames ++ [x01; x00; x00])
  = ([" hi"; "! "], ["oops"]) ∧
  parseDockerLogs (rt := byte_runtime) (encode_frames sample_frames ++ [x01; x00; x00])
  = {| stdout := "hi!"; stderr := "oops" |}.
Proof.
  destruct (demultiplexer_frames (rt := byte_runtime) sample_frames
              sample_frames_well_formed) as [Hout Hrest].
  assert (incomplete [x01; x00; x00]) as Hinc by (left; simpl; lia).
  destruct (Hrest [x01; x00; x00] Hinc) as [Hchunks Hcut].
  split; [exact sample_frames_well_formed|]. split; [|split].
  - rewrite Hout. reflexivity.
  - rewrite Hchunks. reflexivity.
  - rewrite Hcut by discriminate. reflexivity.
Defined.

Lemma output_fallback_layers_witness :
  snd (getContainerOutput (rt := byte_runtime) plain_container)
  = {| stdout := "hello"; stderr := "" |} ∧
  (stdout (snd (getContainerOutput (rt := byte_runtime) (silent_container 0))) ≠ "" ∧
   stderr (snd (getContainerOutput (rt := byte_runtime) (silent_container 0))) = "") ∧
  (stdout (snd (getContainerOutput (rt := byte_runtime) (silent_container 3))) = "" ∧
   stderr (snd (getContainerOutput (rt := byte_runtime) (silent_container 3)))
   = "Container exited with code 3") ∧
  status <$> final (runCode (rt := byte_runtime) (Some sample_record) "python"
                      "print('hi')" None 5 blind_docker "2024-01-01T00:00:01.000Z")
  = Some completed.
Proof.
  refine (conj _ (conj _ (conj _ _))).
  - destruct (output_fallback_layers (rt := byte_runtime) plain_container)
      as (H & _ & _).
    rewrite (H (logs_buffer (list_byte_of_string " hello ")));
      [reflexivity|reflexivity|discriminate|reflexivity].
  - destruct (output_fallback_layers (rt := byte_runtime) (silent_container 0))
      as (_ & H & _).
    destruct (H (logs_buffer []) 0%Z eq_refl eq_refl eq_refl) as [H0 _].
    exact (H0 eq_refl).
  - destruct (output_fallback_layers (rt := byte_runtime) (silent_container 3))
      as (_ & H & _).
    destruct (H (logs_buffer []) 3%Z eq_refl eq_refl eq_refl) as [_ H3].
    destruct (H3 ltac:(discriminate)) as (Hout & _ & Herr).
    split; [exact Hout|exact Herr].
  - destruct (output_fallback_layers (rt := byte_runtime) blind_container)
      as (_ & _ & H).
    apply (H sample_record "python" "print('hi')" None 5%Q blind_docker
             "2024-01-01T00:00:01.000Z" python_config eq_refl).
    repeat split.
Defined.

Lemma invalid_request_leaves_no_record_witness :
  (∃ e, ∀ uuid now ok,
     (∀ s, executeCode ruby_request uuid now ok s = (validation_failed e, s)) ∧
     (∀ w, step (rt := byte_runtime) w (Submit ruby_request uuid now ok) = Some w)) ∧
  (∃ e, ∀ uuid now ok,
     (∀ s, executeCode long_request uuid now ok s = (validation_failed e, s)) ∧
     (∀ w, step (rt := byte_runtime) w (Submit long_request uuid now ok) = Some w)).
Proof.
  split.
  - apply (invalid_request_leaves_no_record (rt := byte_runtime) ruby_request).
    left. intros l Hl. unfold valid_languages in Hl.
    repeat (apply elem_of_cons in Hl as [->|Hl]; [discriminate|]).
    by apply elem_of_nil in Hl.
  - apply (invalid_request_leaves_no_record (rt := byte_runtime) long_request).
    right. exists long_code. split; [reflexivity|]. vm_compute. reflexivity.
Defined.

Lemma sample_world_reachable : reachable (rt := byte_runtime) sample_world.
Proof. exists sample_events. vm_compute. reflexivity. Defined.

Lemma settled_world_reachable : reachable (rt := byte_runtime) settled_world.
Proof. exists (sample_events ++ settled_events). vm_compute. reflexivity. Defined.

Lemma terminal_once_witness :
  reachable (rt := byte_runtime) settled_world ∧
  stored settled_world
    (set_failed sample_record "Execution timeout" "2024-01-01T00:00:05.000Z") ∧
  (endTime (set_failed sample_record "Execution timeout" "2024-01-01T00:00:05.000Z")
   ≠ None
   ↔ terminal
       (status (set_failed sample_record "Execution timeout"
                  "2024-01-01T00:00:05.000Z"))) ∧
  ∃ w', steps (rt := byte_runtime) settled_world later_events = Some w' ∧
        memoryStorage (storage w') !! sample_uuid
        = Some (set_failed sample_record "Execution timeout"
                  "2024-01-01T00:00:05.000Z") ∧
        is_Some (memoryStorage (storage w') !! second_uuid).
Proof.
  destruct (terminal_once (rt := byte_runtime) settled_world settled_world_reachable)
    as [Hend Hstays].
  assert (stored settled_world
            (set_failed sample_record "Execution timeout" "2024-01-01T00:00:05.000Z"))
    as Hstored.
  { exists sample_uuid. right. vm_compute. reflexivity. }
  split; [exact settled_world_reachable|]. split; [exact Hstored|].
  split; [exact (Hend _ Hstored)|].
  destruct (steps (rt := byte_runtime) settled_world later_events) as [w'|] eqn:Hsteps;
    [|vm_compute in Hsteps; discriminate Hsteps].
  exists w'. split; [reflexivity|]. split.
  - apply (Hstays later_events w' Hsteps).
    + right. reflexivity.
    + vm_compute. reflexivity.
  - vm_compute in Hsteps. injection Hsteps as <-. eexists. vm_compute. reflexivity.
Defined.

Lemma timeout_is_failed_without_output_witness :
  ∃ w' e',
    step (rt := byte_runtime) sample_world
      (Settle sample_uuid slow_docker "2024-01-01T00:00:05.000Z" false) = Some w' ∧
    getExecutionStatus false sample_uuid (storage w') = Resolved e' ∧
    status e' = failed ∧
    error e' = Some "Execution timeout" ∧
    output e' = None ∧
    endTime e' = Some "2024-01-01T00:00:05.000Z".
Proof.
  apply (timeout_is_failed_without_output (rt := byte_runtime) sample_world
           sample_uuid sample_task shared_object sample_record slow_docker
           sample_container "2024-01-01T00:00:05.000Z" false).
  - exact sample_world_reachable.
  - vm_compute. reflexivity.
  - reflexivity.
  - vm_compute. reflexivity.
  - reflexivity.
  - reflexivity.
  - reflexivity.
Defined.

Lemma input_never_reaches_container_witness :
  ∃ config,
    LANGUAGE_CONFIG "python" = Some config ∧
    Cmd (container_options_for config "print('hi')")
    = ["sh"; "-c"; shell_command config "print('hi')"] ∧
    ∀ e1 e2 d now1 now2,
      calls (runCode (rt := byte_runtime) (Some e1) "python" "print('hi')" None 5 d now1)
      = calls (runCode (rt := byte_runtime) (Some e2) "python" "print('hi')"
                 (Some "42") 5 d now2) ∧
      Forall (carries_only (container_options_for config "print('hi')"))
        (calls (runCode (rt := byte_runtime) (Some e1) "python" "print('hi')" None 5 d now1)).
Proof.
  apply (input_never_reaches_container (rt := byte_runtime)
           (python_request (Some 5%Q)) python_request_with_input
           python_value python_value_with_input); reflexivity.
Defined.

Lemma nonzero_exit_is_completed_witness :
  (∃ e', final (runCode (rt := byte_runtime) (Some sample_record) "python"
                  "print('hi')" None 5 sample_docker "2024-01-01T00:00:01.000Z")
         = Some e' ∧
         status e' = completed ∧
         output e' = Some "hi!" ∧
         error e' = Some "oops") ∧
  exception_thrown slow_docker.
Proof.
  pose proof (nonzero_exit_is_completed (rt := byte_runtime) (Some sample_record)
                "python" "print('hi')" None 5%Q sample_docker
                "2024-01-01T00:00:01.000Z") as [H _].
  pose proof (nonzero_exit_is_completed (rt := byte_runtime) (Some sample_record)
                "python" "print('hi')" None 5%Q slow_docker
                "2024-01-01T00:00:01.000Z") as [_ H'].
  split.
  - apply (H sample_record sample_container
             (logs_buffer (encode_frames sample_frames)) 1%Z python_config);
      try reflexivity; try discriminate.
    repeat split.
  - exact (H' _ eq_refl eq_refl).
Defined.

Lemma record_properties_witness :
  ∃ e,
    executeCode (python_request (Some 5000%Q)) sample_uuid
      "2024-01-01T00:00:00.000Z" true empty_store
    = (started sample_uuid, storeExecution true sample_uuid e empty_store) ∧
    getExecutionStatus true sample_uuid (storeExecution true sample_uuid e empty_store)
    = Resolved e ∧
    map fst (properties e)
    = ["id"; "status"; "language"; "code"; "input"; "timeout";
       "startTime"; "endTime"; "output"; "error"] ∧
    (∃ t, effective_timeout (python_request (Some 5000%Q)) = inr t ∧
          property "timeout" (returned_properties true e) = Some (js_number t)) ∧
    property "timeoutSeconds" (returned_properties true e) = None ∧
    (∀ k, k ∈ map fst (properties e) → k ≠ "input" →
          is_Some (property k (returned_properties true e))) ∧
    (is_Some (property "input" (json_properties e))
     ↔ is_Some (Req.input (python_request (Some 5000%Q)))).
Proof.
  apply (record_properties (python_request (Some 5000%Q)) python_value sample_uuid
           "2024-01-01T00:00:00.000Z" true empty_store).
  reflexivity.
Defined.

(** C2, as the specification words it, fails.  The record of the sample
    request, as the status lookup returns it, does not have the listed
    shape: it has no property [timeoutSeconds]. *)
Lemma record_without_timeoutSeconds :
  getExecutionStatus false sample_uuid
    (executeCode python_request_with_input sample_uuid "2024-01-01T00:00:00.000Z"
       false empty_store).2
  = Resolved (new_execution sample_uuid python_value_with_input
                "2024-01-01T00:00:00.000Z") ∧
  ¬ spec_record_shape
      (returned_properties false
         (new_execution sample_uuid python_value_with_input
            "2024-01-01T00:00:00.000Z")).
Proof.
  split; [vm_compute; reflexivity|].
  intros H. destruct (H "timeoutSeconds") as [v Hv].
  - unfold spec_record_keys. rewrite !elem_of_cons. auto 10.
  - vm_compute in Hv. discriminate Hv.
Qed.

(** C1 (the code at the failing input).  The container of the sample run
    exits, its log is collected, and the engine then refuses
    [container.remove]: the record handed to the store is failed, its
    error is the message of the refused removal, and the collected output
    is not in it. *)
Theorem remove_failure_recorded_as_failed :
  final (runCode (rt := byte_runtime) (Some sample_record) "python" "print('hi')"
           None 5 remove_fails_docker "2024-01-01T00:00:01.000Z")
  = Some (set_failed sample_record "removal of container is already in progress"
            "2024-01-01T00:00:01.000Z") ∧
  status (set_failed sample_record "removal of container is already in progress"
            "2024-01-01T00:00:01.000Z") = failed ∧
  output (set_failed sample_record "removal of container is already in progress"
            "2024-01-01T00:00:01.000Z") = None ∧
  snd (getContainerOutput (rt := byte_runtime) remove_fails_container)
  = {| stdout := "hi!"; stderr := "oops" |}.
Proof.
  split; [|split; [|split]]; [|reflexivity..].
  by apply (runCode_remove_throws (rt := byte_runtime) sample_record "python"
              "print('hi')" None 5%Q remove_fails_docker remove_fails_container
              "2024-01-01T00:00:01.000Z" python_config).
Qed.

(** * Checks on concrete inputs *)

Example replace_first_extension : replace_first ".java" "" "main.java" = "main".
Proof. reflexivity. Qed.

Example replace_first_once : replace_first "a" "b" "banana" = "bbnana".
Proof. reflexivity. Qed.

Example shell_command_python :
  shell_command python_config "print('hi')"
  = "echo 'print(" +:+ quote_escape +:+ "hi" +:+ quote_escape
    +:+ ")' > main.py && python main.py".
Proof. reflexivity. Qed.

Example shell_command_java :
  shell_command java_config "class main {}"
  = "echo 'class main {}' > main.java && javac main.java && java main".
Proof. reflexivity. Qed.

Example shell_command_cpp :
  shell_command cpp_config "int main(){}"
  = "echo 'int main(){}' > main.cpp && g++ -o main main.cpp && ./main".
Proof. reflexivity. Qed.

Example uint32BE_300 : uint32BE 300 = [x00; x00; x01; x2c].
Proof. reflexivity. Qed.

(** A header that announces five bytes, followed by two: nothing is
    parsed and the whole buffer is the text. *)
Example parse_cut_frame :
  parseDockerLogs (rt := byte_runtime)
    ([x01; x00; x00; x00; x00; x00; x00; x05] ++ list_byte_of_string "ab")
  = {| stdout := string_of_list_byte [x01; x00; x00; x00; x00; x00; x00; x05] +:+ "ab";
       stderr := "" |}.
Proof. reflexivity. Qed.

(** One complete frame followed by a cut one: the first frame only. *)
Example parse_then_cut :
  parseDockerLogs (rt := byte_runtime)
    ([x02; x00; x00; x00; x00; x00; x00; x02] ++ list_byte_of_string "no"
     ++ [x01; x00; x00; x00; x00; x00; x00; x09] ++ list_byte_of_string "lost")
  = {| stdout := ""; stderr := "no" |}.
Proof. reflexivity. Qed.

(** A body with a key that the schema does not name is refused, after
    its four fields have passed. *)
Example unknown_key_is_refused :
  validate {| Req.language := Some "python"; Req.code := Some "print('hi')";
              Req.input := None; Req.timeout := Some 5%Q;
              Req.other_keys := ["stdin"] |}
  = inl key_not_allowed.
Proof. reflexivity. Qed.

(** A language that is not configured is reported before the key. *)
Example language_is_checked_before_keys :
  validate {| Req.language := Some "ruby"; Req.code := Some "puts 1";
              Req.input := None; Req.timeout := None;
              Req.other_keys := ["stdin"] |}
  = inl language_not_valid.
Proof. reflexivity. Qed.

(** The quotient of doubles: 1.001 is no double, 5 is one. *)
Example seconds_of_samples :
  seconds_of 1001 = 2%Q ∧ seconds_of 5000 = 5%Q ∧ seconds_of 1000 = 1000%Q ∧
  seconds_of 144115188075859008 = 144115188075859%Q.
Proof. repeat split; vm_compute; reflexivity. Qed.

(** The timer fires first: the cleanup, and the read of the log that the
    abandoned promise still makes. *)
Example sample_run_calls :
  calls (runCode (rt := byte_runtime) (Some sample_record) "python" "print('hi')"
           None 5 slow_docker "2024-01-01T00:00:05.000Z")
  = [createContainer (container_options_for python_config "print('hi')");
     container_start; container_wait; container_stop; container_remove;
     container_logs].
Proof. reflexivity. Qed.

Example sample_run_removes_twice :
  calls (runCode (rt := byte_runtime) (Some sample_record) "python" "print('hi')"
           None 5 remove_fails_docker "2024-01-01T00:00:01.000Z")
  = [createContainer (container_options_for python_config "print('hi')");
     container_start; container_wait; container_logs; container_remove;
     container_stop; container_remove].
Proof. reflexivity. Qed.

(** * Further properties of the code *)

(** ** The store *)

(** X1.  Writing and reading through the same backend: the record read
    is the last one written under the id, and writing under one id leaves
    every other id as it was, in both backends. *)
Theorem store_then_get (ok : bool) (i : string) (e : execution) (s : store) :
  getExecution ok i (storeExecution ok i e s) = Some e ∧
  (∀ e2, getExecution ok i (storeExecution ok i e2 (storeExecution ok i e s)) = Some e2) ∧
  (∀ ok' j, j ≠ i → getExecution ok' j (storeExecution ok i e s) = getExecution ok' j s).
Proof.
  split; [apply stored_then_read|]. split; [intros e2; apply stored_then_read|].
  intros ok' j Hne. unfold getExecution, storeExecution.
  destruct ok, ok'; simpl; try done; rewrite lookup_insert_ne; try done.
  intros Hk. by apply redis_key_inj in Hk.
Qed.

Lemma store_then_get_witness :
  getExecution false "b" (storeExecution true "a" sample_record empty_store)
  = getExecution false "b" empty_store.
Proof.
  destruct (store_then_get true "a" sample_record empty_store) as (_ & _ & H).
  apply (H false "b"). discriminate.
Defined.

(** X2.  The two backends do not see each other: a record written while
    Redis answers is not what a lookup that falls back to memory finds,
    and a record written to memory is not what a lookup answered by Redis
    finds; such a lookup returns what it returned before the write. *)
Theorem store_backends_separate (ok : bool) (i : string) (e : execution) (s : store) :
  getExecution (negb ok) i (storeExecution ok i e s) = getExecution (negb ok) i s ∧
  getExecutionStatus (negb ok) i (storeExecution ok i e empty_store)
  = Rejected "Failed to get execution status: Execution not found".
Proof. split; by destruct ok. Qed.

(** ** Accepted requests *)

Lemma validate_language_accepts (language : option string) :
  (∃ l, validate_language language = inr l) ↔ language_accepted language.
Proof.
  unfold validate_language, language_accepted.
  destruct language as [l|]; [|split; [by intros [? ?]|by intros (? & ? & ?)]].
  destruct (decide (l ∈ valid_languages)) as [Hl|Hl].
  - split; by eauto.
  - split; [by intros [? ?]|]. by intros (l' & [= <-] & ?).
Qed.

Lemma validate_code_accepts (code : option string) :
  (∃ c, validate_code code = inr c) ↔ code_accepted code.
Proof.
  unfold validate_code, code_accepted.
  destruct code as [c|]; [|split; [by intros [? ?]|by intros (? & ? & ?)]].
  destruct (decide (c = "")) as [Hc|Hc].
  { split; [by intros [? ?]|]. by intros (c' & [= <-] & ? & _). }
  destruct (decide (Z.of_nat (String.length c) ≤ 50000)%Z) as [Hlen|Hlen].
  - split; by eauto.
  - split; [by intros [? ?]|]. by intros (c' & [= <-] & _ & ?).
Qed.

Lemma validate_input_accepts (input : option string) :
  (∃ i, validate_input input = inr i) ↔ input_accepted input.
Proof.
  unfold validate_input, input_accepted.
  destruct input as [i|]; [|split; [done|by eauto]].
  destruct (decide (Z.of_nat (String.length i) ≤ 10000)%Z) as [Hi|Hi].
  - split; [by intros _ ? [= <-]|by eauto].
  - split; [by intros [? ?]|]. intros H. destruct Hi. by apply H.
Qed.

Lemma validate_timeout_accepts (timeout : option Q) :
  (∃ t, validate_timeout timeout = inr t) ↔ timeout_accepted timeout.
Proof.
  unfold validate_timeout, timeout_accepted.
  destruct timeout as [t|]; [|split; [done|by eauto]].
  destruct (Qgt_bool t MAX_SAFE_INTEGER) eqn:Hmax; simpl.
  { apply Qgt_bool_true in Hmax. split; [by intros [? ?]|].
    intros H. destruct (H t eq_refl) as [_ Hle].
    exfalso. exact (Qlt_not_le _ _ Hmax Hle). }
  apply Qgt_bool_false in Hmax.
  destruct (Qgt_bool (- MAX_SAFE_INTEGER) t) eqn:Hmin.
  { apply Qgt_bool_true in Hmin. split; [by intros [? ?]|].
    intros H. destruct (H t eq_refl) as [Hle _]. exfalso.
    apply (Qlt_not_le _ _ Hmin). apply Qle_trans with 1%Q; [discriminate|exact Hle]. }
  destruct (Qle_bool 1 t) eqn:Ht.
  - apply Qle_bool_iff in Ht. split; [by intros _ ? [= <-]|by eauto].
  - split; [by intros [? ?]|]. intros H. destruct (H t eq_refl) as [Hle _].
    apply Qle_bool_iff in Hle. congruence.
Qed.

Lemma validate_accepts (r : request) :
  (∃ value, validate r = inr value) ↔
  language_accepted (Req.language r) ∧ code_accepted (Req.code r) ∧
  input_accepted (Req.input r) ∧ timeout_accepted (Req.timeout r) ∧
  Req.other_keys r = [].
Proof.
  rewrite <- validate_language_accepts, <- validate_code_accepts,
    <- validate_input_accepts, <- validate_timeout_accepts.
  unfold validate.
  destruct (validate_language _) as [?|l];
    [split; [by intros [? ?]|by intros ([? ?] & _)]|].
  destruct (validate_code _) as [?|c];
    [split; [by intros [? ?]|by intros (_ & [? ?] & _)]|].
  destruct (validate_input _) as [?|i];
    [split; [by intros [? ?]|by intros (_ & _ & [? ?] & _)]|].
  destruct (validate_timeout _) as [?|t];
    [split; [by intros [? ?]|by intros (_ & _ & _ & [? ?] & _)]|].
  destruct (Req.other_keys r) as [|k ks].
  - split; [by eauto 10|by eauto].
  - split; [by intros [? ?]|by intros (_ & _ & _ & _ & ?)].
Qed.

Lemma request_timeout_accepts (timeout : option Q) :
  timeout_accepted (seconds_of <$> timeout) ↔ request_timeout_accepted timeout.
Proof.
  unfold timeout_accepted, request_timeout_accepted.
  destruct timeout as [t|]; [|done]. simpl.
  assert ((1 <= seconds_of t)%Q ↔ (1 <= t)%Q) as Hone.
  { destruct (Qlt_le_dec 1000 t) as [Hgt|Hle].
    - rewrite (seconds_of_above t Hgt). split; intros _.
      + apply Qlt_le_weak, Qlt_trans with 1000%Q; [reflexivity|exact Hgt].
      + by apply ceil_seconds_min.
    - by rewrite (seconds_of_below t Hle). }
  split.
  - intros H ? [= <-]. destruct (H _ eq_refl) as [H1 H2].
    split; [by apply Hone|exact H2].
  - intros H ? [= <-]. destruct (H _ eq_refl) as [H1 H2].
    split; [by apply Hone|exact H2].
Qed.

(** X3.  What [executeCode] accepts.  A request is accepted exactly when
    its language is one of the five, its code is not empty and has at
    most 50000 characters, its input, if any, has at most 10000
    characters, its timeout, if any, is at least 1 and is converted to a
    number of seconds of at most 2^53 - 1, and the body has no key beside
    these four.  A timeout that is a whole number from 1 to 2^53 - 1
    passes.  The store then differs from before by the pending record
    under the new id. *)
Theorem executeCode_accepts (r : request) (uuid now : string) (ok : bool) (s : store) :
  (fst (executeCode r uuid now ok s) = started uuid ↔
   language_accepted (Req.language r) ∧ code_accepted (Req.code r) ∧
   input_accepted (Req.input r) ∧ request_timeout_accepted (Req.timeout r) ∧
   Req.other_keys r = []) ∧
  (∀ t z, Req.timeout r = Some t → (t == inject_Z z)%Q →
          (1 ≤ z)%Z → (z ≤ 9007199254740991)%Z →
          request_timeout_accepted (Req.timeout r)) ∧
  (fst (executeCode r uuid now ok s) = started uuid →
   ∃ e, snd (executeCode r uuid now ok s) = storeExecution ok uuid e s ∧
        id e = uuid ∧ status e = pending ∧ startTime e = now ∧
        Some (language e) = Req.language r ∧ Some (code e) = Req.code r ∧
        input e = Req.input r).
Proof.
  destruct (normalizeTimeout_fields r) as (El & Ec & Ei).
  pose proof (validate_accepts (normalizeTimeout r)) as Hacc.
  rewrite El, Ec, Ei, normalizeTimeout_keys, normalizeTimeout_timeout,
    request_timeout_accepts in Hacc.
  unfold executeCode. split; [|split].
  - rewrite <- Hacc. destruct (validate (normalizeTimeout r)) as [err|value]; simpl.
    + split; [discriminate|]. by intros [? ?].
    + split; [by eauto|done].
  - intros t z Ht Hz Hlo Hhi t' Ht'. rewrite Ht in Ht'. injection Ht' as <-.
    assert (inject_Z 1 <= inject_Z z)%Q as Hq by (by rewrite <- Zle_Qle).
    split; [by rewrite Hz|].
    destruct (Z.le_gt_cases z 1000) as [Hle|Hgt].
    + rewrite seconds_of_below.
      * rewrite Hz. unfold MAX_SAFE_INTEGER.
        change 9007199254740991%Q with (inject_Z 9007199254740991).
        by rewrite <- Zle_Qle.
      * rewrite Hz. change 1000%Q with (inject_Z 1000). by rewrite <- Zle_Qle.
    + rewrite seconds_of_above.
      * apply Qgt_bool_false. by apply (ceil_seconds_whole t z).
      * rewrite Hz. change 1000%Q with (inject_Z 1000). by rewrite <- Zlt_Qlt.
  - destruct (validate (normalizeTimeout r)) as [err|value] eqn:Hv; simpl;
      [discriminate|]. intros _.
    exists (new_execution uuid value now). split; [done|]. simpl.
    apply validate_fields in Hv as (Hl & Hc & Hi & _).
    rewrite El in Hl. rewrite Ec in Hc. rewrite Ei in Hi.
    unfold validate_language in Hl. unfold validate_code in Hc.
    unfold validate_input in Hi.
    destruct (Req.language r) as [l|]; [|discriminate].
    destruct (Req.code r) as [c|]; [|discriminate].
    repeat case_decide; try discriminate.
    injection Hl as <-. injection Hc as <-.
    destruct (Req.input r) as [i|]; [case_decide; [|discriminate]|];
      injection Hi as <-; done.
Qed.

Lemma executeCode_accepts_witness :
  (language_accepted (Req.language python_request_with_input) ∧
   code_accepted (Req.code python_request_with_input) ∧
   input_accepted (Req.input python_request_with_input) ∧
   request_timeout_accepted (Req.timeout python_request_with_input) ∧
   Req.other_keys python_request_with_input = []) ∧
  request_timeout_accepted (Req.timeout python_request_with_input) ∧
  ∃ e, snd (executeCode python_request_with_input sample_uuid "2024-01-01T00:00:00.000Z"
              false empty_store)
       = storeExecution false sample_uuid e empty_store ∧
       id e = sample_uuid ∧ status e = pending ∧
       startTime e = "2024-01-01T00:00:00.000Z" ∧
       Some (language e) = Req.language python_request_with_input ∧
       Some (code e) = Req.code python_request_with_input ∧
       input e = Req.input python_request_with_input.
Proof.
  destruct (executeCode_accepts python_request_with_input sample_uuid
              "2024-01-01T00:00:00.000Z" false empty_store) as (H1 & H2 & H3).
  refine (conj _ (conj _ _)).
  - apply H1. reflexivity.
  - refine (H2 5%Q 5%Z eq_refl eq_refl _ _); discriminate.
  - apply H3. reflexivity.
Defined.

(** ** The routes *)

(** X4.  [POST /api/execute] answers 202 or 400 and nothing else: 202
    with the new id exactly when the request is accepted, and 400 with
    the store untouched otherwise. *)
Theorem post_execute_status (r : request) (uuid now : string) (ok : bool) (s : store) :
  (http_status (post_execute r uuid now ok s).1 = 202%Z ∧
   body (post_execute r uuid now ok s).1 = execute_started uuid ∧
   ∃ value, validate (normalizeTimeout r) = inr value)
  ∨
  (http_status (post_execute r uuid now ok s).1 = 400%Z ∧
   (post_execute r uuid now ok s).2 = s ∧
   ∃ e, validate (normalizeTimeout r) = inl e ∧
        body (post_execute r uuid now ok s).1 = execute_failed e).
Proof.
  unfold post_execute, executeCode.
  destruct (validate (normalizeTimeout r)) as [e|value]; simpl.
  - right. by eauto.
  - left. by eauto.
Qed.

(** ** Timeouts of accepted requests *)

Lemma ceiling_bounds (t x c : Q) :
  (1000 < t)%Q → (t == x * 1000)%Q → (x <= c)%Q → (c - 1 < x)%Q →
  (t <= c * 1000)%Q ∧ (c * 1000 < t + 1000)%Q ∧ (1 < c)%Q.
Proof. intros H1 H2 H3 H4. repeat split; lra. Qed.

Lemma double_ceiling_bounds (t x d c : Q) :
  (t == x * 1000)%Q →
  (x - x * (1 # 9007199254740992) <= d)%Q →
  (d <= x + x * (1 # 9007199254740992))%Q →
  (d <= c)%Q → (c - 1 < d)%Q →
  (t - t * (1 # 9007199254740992) <= c * 1000)%Q ∧
  (c * 1000 < t + t * (1 # 9007199254740992) + 1000)%Q.
Proof. intros H1 H2 H3 H4 H5. split; lra. Qed.

Lemma validate_timeout_inr (s v : Q) :
  validate_timeout (Some s) = inr v →
  v = s ∧ (1 <= s)%Q ∧ (s <= MAX_SAFE_INTEGER)%Q.
Proof.
  intros H.
  assert (timeout_accepted (Some s)) as Hacc
    by (apply validate_timeout_accepts; by eexists).
  destruct (Hacc s eq_refl) as [H1 H2].
  rewrite (validate_timeout_from_1 s H1) in H.
  rewrite (proj2 (Qgt_bool_false _ _) H2) in H. by injection H as <-.
Qed.

(** X6.  The timeout of an accepted request is at least one second and
    at most 2^53 - 1.  When the request gave a whole number of
    milliseconds above 1000 and up to 2^53 - 1, the stored number of
    seconds covers the given milliseconds and exceeds them by less than a
    second: the value is rounded up.  For every value above 1000 the
    stored seconds fall short of the given milliseconds by at most their
    2^-53th part. *)
Theorem accepted_timeout_bounds (r : request) (value : validated) :
  validate (normalizeTimeout r) = inr value →
  (1 <= v_timeout value)%Q ∧ (v_timeout value <= MAX_SAFE_INTEGER)%Q ∧
  (∀ t z, Req.timeout r = Some t → (t == inject_Z z)%Q →
     (1000 < z)%Z → (z ≤ 9007199254740991)%Z →
     (t <= v_timeout value * 1000)%Q ∧ (v_timeout value * 1000 < t + 1000)%Q ∧
     (2 <= v_timeout value)%Q) ∧
  (∀ t, Req.timeout r = Some t → (1000 < t)%Q →
     (t - t * (1 # 9007199254740992) <= v_timeout value * 1000)%Q ∧
     (v_timeout value * 1000 < t + t * (1 # 9007199254740992) + 1000)%Q).
Proof.
  intros Hv. apply validate_fields in Hv as (_ & _ & _ & Ht).
  rewrite normalizeTimeout_timeout in Ht.
  split; [|split; [|split]].
  - destruct (Req.timeout r) as [t|]; simpl in Ht.
    + by destruct (validate_timeout_inr _ _ Ht) as (-> & ? & _).
    + injection Ht as <-. discriminate.
  - destruct (Req.timeout r) as [t|]; simpl in Ht.
    + by destruct (validate_timeout_inr _ _ Ht) as (-> & _ & ?).
    + injection Ht as <-. discriminate.
  - intros t z Hr Hz Hlo Hhi. rewrite Hr in Ht.
    change (seconds_of <$> Some t) with (Some (seconds_of t)) in Ht.
    destruct (validate_timeout_inr _ _ Ht) as (-> & _).
    assert (1000 < t)%Q as Hgt.
    { rewrite Hz. change 1000%Q with (inject_Z 1000). by rewrite <- Zlt_Qlt. }
    rewrite (seconds_of_above t Hgt).
    destruct (ceil_seconds_whole t z Hz Hlo Hhi) as [-> _].
    pose proof (Qle_ceiling (t / 1000)) as Hup.
    pose proof (Qceiling_lt (t / 1000)) as Hlow.
    unfold Z.sub in Hlow. rewrite inject_Z_plus in Hlow.
    assert (t == t / 1000 * 1000)%Q as Hx by (field; discriminate).
    destruct (ceiling_bounds t (t / 1000) (inject_Z (Qceiling (t / 1000)))
                Hgt Hx Hup Hlow) as (H1 & H2 & H3).
    split; [exact H1|]. split; [exact H2|].
    rewrite <- (Zlt_Qlt 1) in H3.
    change 2%Q with (inject_Z 2). rewrite <- Zle_Qle. lia.
  - intros t Hr Hgt. rewrite Hr in Ht.
    change (seconds_of <$> Some t) with (Some (seconds_of t)) in Ht.
    destruct (validate_timeout_inr _ _ Ht) as (-> & _).
    rewrite (seconds_of_above t Hgt). unfold ceil_seconds.
    assert (1 <= t / 1000)%Q as Hone.
    { apply Qle_shift_div_l; [reflexivity|]. by apply Qlt_le_weak. }
    destruct (to_double_close (t / 1000) Hone) as [Hdl Hdh].
    pose proof (Qle_ceiling (to_double (t / 1000))) as Hup.
    pose proof (Qceiling_lt (to_double (t / 1000))) as Hlow.
    unfold Z.sub in Hlow. rewrite inject_Z_plus in Hlow.
    assert (t == t / 1000 * 1000)%Q as Hx by (field; discriminate).
    exact (double_ceiling_bounds t (t / 1000) (to_double (t / 1000)) _
             Hx Hdl Hdh Hup Hlow).
Qed.

Lemma accepted_timeout_bounds_witness :
  ((1 <= 2)%Q ∧ (2 <= MAX_SAFE_INTEGER)%Q ∧
   (1500 <= 2 * 1000)%Q ∧ (2 * 1000 < 1500 + 1000)%Q ∧ (2 <= 2)%Q) ∧
  (144115188075859008 - 144115188075859008 * (1 # 9007199254740992)
   <= 144115188075859 * 1000)%Q ∧
  (144115188075859 * 1000
   < 144115188075859008 + 144115188075859008 * (1 # 9007199254740992) + 1000)%Q.
Proof.
  split.
  - destruct (accepted_timeout_bounds (python_request (Some 1500%Q))
                {| v_language := "python"; v_code := "print('hi')";
                   v_input := None; v_timeout := 2 |} eq_refl) as (H1 & H2 & H3 & _).
    split; [exact H1|]. split; [exact H2|].
    refine (H3 1500%Q 1500%Z eq_refl eq_refl eq_refl _). discriminate.
  - destruct (accepted_timeout_bounds (python_request (Some 144115188075859008%Q))
                {| v_language := "python"; v_code := "print('hi')";
                   v_input := None; v_timeout := 144115188075859 |} eq_refl)
      as (_ & _ & _ & H4).
    exact (H4 144115188075859008%Q eq_refl eq_refl).
Defined.

(** ** Engine calls of a run *)

Section CallFacts.
Context {rt : NodeRuntime}.

Lemma output_calls_kind (c : container) : Forall output_call (getContainerOutput c).1.
Proof.
  unfold getContainerOutput, output_call.
  destruct (logs c) as [l|m]; [destruct (decide (0 < length (outputBuffer_of l)))|];
    simpl; repeat (apply List.Forall_cons; [auto|]); apply List.Forall_nil.
Qed.

Lemma output_calls_removals (oc : list docker_call) :
  Forall output_call oc →
  removals oc = 0 ∧ (container_stop ∉ oc) ∧ (container_remove ∉ oc).
Proof.
  induction 1 as [|call oc [->| ->] _ (IH1 & IH2 & IH3)]; [by repeat split; try apply not_elem_of_nil|..];
    (split; [exact IH1|]); split; rewrite elem_of_cons; intros [?|?]; done.
Qed.

Lemma last_two (l : list docker_call) (a b : docker_call) : last (l ++ [a; b]) = Some b.
Proof. change (l ++ [a; b]) with (l ++ [a] ++ [b]). rewrite app_assoc. apply last_snoc. Qed.

Lemma removals_app (l1 l2 : list docker_call) :
  removals (l1 ++ l2) = removals l1 + removals l2.
Proof. unfold removals. by rewrite List.filter_app, length_app. Qed.

Lemma awaited_calls_cleanup language code d c config :
  LANGUAGE_CONFIG language = Some config →
  create d = Resolved c →
  last (awaited_calls language code d) = Some container_remove ∧
  (container_stop ∈ awaited_calls language code d ↔ exception_thrown d) ∧
  (first_remove_fails d c → removals (awaited_calls language code d) = 2) ∧
  (¬ first_remove_fails d c → removals (awaited_calls language code d) = 1).
Proof.
  intros Hcfg Hc.
  unfold awaited_calls, try_block, exception_thrown, first_remove_fails.
  rewrite Hcfg, Hc.
  set (options := container_options_for config code).
  destruct (start c) as [[]|m].
  2:{ simpl. split; [done|]. split; [|split].
      - split; [by eauto|]. intros _. rewrite !elem_of_cons. auto.
      - by intros (? & _).
      - done. }
  destruct (timer_first d).
  { simpl. split; [done|]. split; [|split].
    - split; [by eauto|]. intros _. rewrite !elem_of_cons. auto.
    - by intros (_ & ? & _).
    - done. }
  destruct (wait c) as [[]|m].
  2:{ simpl. split; [done|]. split; [|split].
      - split; [by eauto 6|]. intros _. rewrite !elem_of_cons. auto 6.
      - by intros (_ & _ & ? & _).
      - done. }
  destruct (output_calls_removals _ (output_calls_kind c)) as (Hcount & Hstop & Hrem).
  destruct (getContainerOutput c) as [oc result]. simpl in Hcount, Hstop, Hrem.
  destruct (remove c) as [[]|m].
  - rewrite app_nil_r. split; [|split; [|split]].
    + change (last (([createContainer options; container_start; container_wait] ++ oc)
                    ++ [container_remove]) = Some container_remove).
      apply last_snoc.
    + split.
      * rewrite !elem_of_app, !elem_of_cons, elem_of_nil.
        intros [[?|[?|[?|?]]]|[?|[?|?]]]; done.
      * intros [[? ?]|[?|[[? ?]|[? ?]]]]; done.
    + by intros (_ & _ & _ & ? & ?).
    + intros _. rewrite !removals_app, Hcount. reflexivity.
  - split; [|split; [|split]].
    + apply last_two.
    + split; [by eauto 8|]. intros _.
      rewrite !elem_of_app, !elem_of_cons. auto 10.
    + intros _. rewrite !removals_app, Hcount. reflexivity.
    + intros H. destruct H. by eauto 8.
Qed.

Lemma late_calls_kind (d : docker) : Forall output_call (late_calls d).
Proof.
  unfold late_calls.
  destruct (create d) as [c|m]; [|constructor].
  destruct (start c) as [[]|m]; [|constructor].
  destruct (timer_first d); [|constructor].
  destruct (wait c) as [[]|m]; [|constructor].
  apply output_calls_kind.
Qed.

Lemma try_done_no_timer options d result :
  (try_block options d).2 = try_done result → timer_first d = false.
Proof.
  unfold try_block.
  destruct (create d) as [c|m]; [|discriminate].
  destruct (start c) as [[]|m]; [|discriminate].
  destruct (timer_first d); [discriminate|]. done.
Qed.

(** The calls of a run are the awaited ones and the late ones. *)
Lemma calls_of_split language code d config :
  LANGUAGE_CONFIG language = Some config →
  calls_of language code d = awaited_calls language code d ++ late_calls d.
Proof.
  intros Hcfg. unfold calls_of, awaited_calls. rewrite Hcfg.
  pose proof (try_done_no_timer (container_options_for config code) d) as Hdone.
  destruct (try_block _ d) as [made r]. simpl in Hdone.
  destruct r as [result|m [c|]].
  - by rewrite (late_calls_no_timer d (Hdone result eq_refl)), !app_nil_r.
  - by rewrite app_assoc.
  - by rewrite app_assoc.
Qed.

(** X7.  Cleanup of a created container.  When the engine has created
    the container and the record of the run exists, [runCode] calls
    [container.remove], and that is the last engine call it awaits;
    [container.stop] is called exactly when the [try] block threw; and
    [remove] is called once, or twice when it was the first [remove] that
    threw.  The only engine calls beside the awaited ones are the reads
    of the log by the promise that a timeout leaves behind. *)
Theorem created_container_is_removed (e : execution) (language code : string)
    (input : option string) (timeout : Q) (d : docker) (c : container)
    (now : string) (config : language_config) :
  LANGUAGE_CONFIG language = Some config →
  create d = Resolved c →
  container_remove ∈ calls (runCode (Some e) language code input timeout d now) ∧
  (container_stop ∈ calls (runCode (Some e) language code input timeout d now)
   ↔ exception_thrown d) ∧
  (first_remove_fails d c →
   removals (calls (runCode (Some e) language code input timeout d now)) = 2) ∧
  (¬ first_remove_fails d c →
   removals (calls (runCode (Some e) language code input timeout d now)) = 1) ∧
  ∃ awaited,
    calls (runCode (Some e) language code input timeout d now)
    = awaited ++ late_calls d ∧
    last awaited = Some container_remove ∧
    Forall output_call (late_calls d) ∧
    (timer_first d = false → late_calls d = []).
Proof.
  intros Hcfg Hc. rewrite runCode_calls, (calls_of_split _ _ _ _ Hcfg).
  destruct (awaited_calls_cleanup language code d c config Hcfg Hc)
    as (Hlast & Hstop & Htwice & Honce).
  destruct (output_calls_removals _ (late_calls_kind d)) as (Hcount & Hns & Hnr).
  split; [|split; [|split; [|split]]].
  - apply elem_of_app. left. apply last_Some_elem_of. exact Hlast.
  - rewrite elem_of_app, Hstop. split; [|by auto]. by intros [?|?].
  - intros H. by rewrite removals_app, Hcount, (Htwice H).
  - intros H. by rewrite removals_app, Hcount, (Honce H).
  - exists (awaited_calls language code d).
    split; [done|]. split; [exact Hlast|]. split; [apply late_calls_kind|].
    apply late_calls_no_timer.
Qed.

(** X8.  An engine that cannot create the container.  The run is
    recorded as failed with the message of the engine, and
    [createContainer] is the only engine call: there is nothing to stop or
    remove. *)
Theorem create_failure_is_recorded (e : execution) (language code : string)
    (input : option string) (timeout : Q) (d : docker) (now message : string)
    (config : language_config) :
  LANGUAGE_CONFIG language = Some config →
  create d = Rejected message →
  runCode (Some e) language code input timeout d now
  = {| calls := [createContainer (container_options_for config code)];
       final := Some (set_failed e message now) |} ∧
  status (set_failed e message now) = failed ∧
  error (set_failed e message now) = Some message ∧
  output (set_failed e message now) = output e.
Proof.
  intros Hcfg Hc. unfold runCode, try_block, late_calls. rewrite Hcfg, Hc. done.
Qed.

Lemma runCode_without_record language code input timeout d now config :
  LANGUAGE_CONFIG language = Some config →
  runCode None language code input timeout d now
  = {| calls := (try_block (container_options_for config code) d).1 ++ late_calls d;
       final := None |}.
Proof. intros Hcfg. unfold runCode. rewrite Hcfg. by destruct (try_block _ d). Qed.


(** X9.  A run whose record cannot be read.  When [getExecution] gave
    the task nothing, [runCode] stores no record and never calls
    [container.stop]; if the [try] block throws before its own [remove]
    (start fails, the timer fires, or [wait] fails), [container.remove] is
    not called either, and the created container stays. *)
Theorem missing_record_skips_cleanup (language code : string)
    (input : option string) (timeout : Q) (d : docker) (c : container)
    (now : string) (config : language_config) :
  LANGUAGE_CONFIG language = Some config →
  create d = Resolved c →
  final (runCode None language code input timeout d now) = None ∧
  (container_stop ∉ calls (runCode None language code input timeout d now)) ∧
  (thrown_before_remove d c →
   container_remove ∉ calls (runCode None language code input timeout d now)).
Proof.
  intros Hcfg Hc. rewrite (runCode_without_record _ _ _ _ _ _ _ Hcfg).
  destruct (output_calls_removals _ (late_calls_kind d)) as (_ & Hls & Hlr).
  cbn [calls final]. split; [done|].
  assert ((container_stop ∉ (try_block (container_options_for config code) d).1) ∧
          (thrown_before_remove d c →
           container_remove ∉ (try_block (container_options_for config code) d).1))
    as [Hstop Hrem].
  2:{ split; [|intros Hx]; rewrite elem_of_app; intros [?|?]; [by apply Hstop|done| |done].
      by apply (Hrem Hx). }
  unfold try_block, thrown_before_remove. rewrite Hc.
  destruct (start c) as [[]|m].
  2:{ simpl. split; [|intros _];
        rewrite !elem_of_cons, elem_of_nil; intros [?|[?|?]]; done. }
  destruct (timer_first d).
  { simpl. split; [|intros _];
      rewrite !elem_of_cons, elem_of_nil; intros [?|[?|[?|?]]]; done. }
  destruct (wait c) as [[]|m].
  2:{ simpl. split; [|intros _];
        rewrite !elem_of_cons, elem_of_nil; intros [?|[?|[?|?]]]; done. }
  destruct (output_calls_removals _ (output_calls_kind c)) as (_ & Hstop & _).
  destruct (getContainerOutput c) as [oc result]. simpl in Hstop.
  assert (container_stop ∉ [createContainer (container_options_for config code);
                            container_start; container_wait]
                           ++ oc ++ [container_remove]) as Hno.
  { rewrite !elem_of_app, !elem_of_cons, elem_of_nil.
    intros [[?|[?|[?|?]]]|[?|[?|?]]]; done. }
  destruct (remove c) as [[]|m]; cbn [fst]; (split; [exact Hno|]);
    intros [[? ?]|[[? ?]|(_ & _ & ? & ?)]]; done.
Qed.


End CallFacts.

(** ** What a record keeps for life *)

Lemma same_request_refl e : same_request e e.
Proof. by repeat split. Qed.

Lemma same_request_trans e1 e2 e3 :
  same_request e1 e2 → same_request e2 e3 → same_request e1 e3.
Proof.
  unfold same_request. intros (?&?&?&?&?&?) (?&?&?&?&?&?).
  repeat (split; [congruence|]). congruence.
Qed.

Lemma same_request_schema e e' : same_request e e' → schema_ok e → schema_ok e'.
Proof.
  intros (_&Hl&Hc&Hi&Ht&_). unfold schema_ok. by rewrite <- Hl, <- Hc, <- Hi, <- Ht.
Qed.

Lemma new_execution_schema uuid value now r :
  validate r = inr value → schema_ok (new_execution uuid value now).
Proof.
  intros Hv. apply validate_fields in Hv as (Hl & Hc & Hi & Ht).
  unfold schema_ok. simpl.
  unfold validate_language in Hl. unfold validate_code in Hc.
  unfold validate_input in Hi.
  destruct (Req.language r) as [l|]; [|discriminate].
  destruct (decide (l ∈ valid_languages)); [|discriminate]. injection Hl as <-.
  destruct (Req.code r) as [c|]; [|discriminate].
  destruct (decide (c = "")); [discriminate|].
  destruct (decide (Z.of_nat (String.length c) ≤ 50000)%Z); [|discriminate].
  injection Hc as <-.
  repeat (split; [done|]). split.
  - destruct (Req.input r) as [i|]; [|by injection Hi as <-].
    destruct (decide (Z.of_nat (String.length i) ≤ 10000)%Z); [|discriminate].
    injection Hi as <-. by intros ? [= <-].
  - destruct (Req.timeout r) as [t|]; [|by injection Ht as <-].
    by destruct (validate_timeout_inr _ _ Ht) as (-> & ? & _).
Qed.

Section LifeFacts.
Context {rt : NodeRuntime}.

Lemma runCode_same_request e language code input timeout d now e' :
  final (runCode (Some e) language code input timeout d now) = Some e' →
  same_request e e'.
Proof.
  unfold runCode. destruct (LANGUAGE_CONFIG language); [|discriminate].
  destruct (try_block _ d) as [made r].
  destruct r; simpl; intros [= <-]; by repeat split.
Qed.

Lemma runCode_needs_record language code input timeout d now :
  final (runCode None language code input timeout d now) = None.
Proof.
  unfold runCode. destruct (LANGUAGE_CONFIG language); [|done].
  by destruct (try_block _ d).
Qed.

Lemma bookkeeping_initial : bookkeeping initial.
Proof. split; simpl; intros *; by rewrite lookup_empty. Qed.

Lemma bookkeeping_step w ev w' :
  invariant w → bookkeeping w → step w ev = Some w' → bookkeeping w'.
Proof.
  intros [Hr Hm Ht] [Br Bm Bt].
  destruct ev as [r uuid now ok|i ok|i d now ok]; simpl.
  - destruct (validate (normalizeTimeout r)) as [err|value] eqn:Hv;
      [intros [= <-]; by split|].
    case_decide as Hfresh; [discriminate|]. intros [= <-].
    unfold executeCode. rewrite Hv.
    assert (redis (storage w) !! redis_key uuid = None) as Hr0.
    { destruct (redis (storage w) !! redis_key uuid) as [e|] eqn:E; [|done].
      destruct (Hr _ _ E) as (_ & i & Hk & Hi). apply redis_key_inj in Hk. by subst. }
    assert (memoryStorage (storage w) !! uuid = None) as Hm0.
    { destruct (memoryStorage (storage w) !! uuid) as [e|] eqn:E; [|done].
      by destruct (Hm _ _ E). }
    pose proof (new_execution_schema uuid value now _ Hv) as Hschema.
    split; simpl.
    + intros k e. destruct ok; simpl; [|by apply Br].
      rewrite lookup_insert. case_decide as Hk; [|by apply Br].
      intros [= <-]. by subst k.
    + intros k e. destruct ok; simpl; [by apply Bm|].
      rewrite lookup_insert. case_decide as Hk; [|by apply Bm].
      intros [= <-]. by subst k.
    + intros i t. rewrite lookup_insert. case_decide as Hi.
      * intros [= <-]. subst i. simpl. split; [|done].
        destruct ok; simpl; auto.
      * intros E. destruct (Bt _ _ E) as (B1 & B2 & B3).
        assert (redis_key uuid ≠ redis_key i) as Hk
          by (intros Hk; by apply redis_key_inj in Hk).
        destruct ok; simpl; rewrite ?lookup_insert_ne by done; done.
  - destruct (tasks w !! i) as [t|] eqn:Hti; [|discriminate].
    destruct (task_execution t) eqn:Hte; [discriminate|]. intros [= <-].
    destruct (Bt _ _ Hti) as (B1 & B2 & B3).
    split; simpl; [done..|].
    intros j t'. rewrite lookup_insert. case_decide as Hj; [|by apply Bt].
    intros [= <-]. subst j. simpl. split; [done|].
    unfold fetch. destruct ok.
    + destruct (redis (storage w) !! redis_key i) as [e0|] eqn:E;
        (split; [intros e H|intros H]); by simplify_eq.
    + destruct (memoryStorage (storage w) !! i) as [e0|] eqn:E;
        (split; [intros e H|intros H]); simplify_eq; by eauto.
  - destruct (tasks w !! i) as [t|] eqn:Hti; [|discriminate].
    destruct (task_execution t) as [r|] eqn:Hte; [|discriminate]. intros [= <-].
    destruct (Bt _ _ Hti) as (B1 & B2 & B3).
    assert (∀ j t', delete i (tasks w) !! j = Some t' → j ≠ i ∧ tasks w !! j = Some t')
      as Hdel.
    { intros j t'. rewrite lookup_delete. by case_decide. }
    destruct (final (runCode _ _ _ _ _ d now)) as [e'|] eqn:Hfin.
    2:{ split; simpl; [done..|]. intros j t' E. apply Hdel in E as [_ E]. by apply Bt. }
    destruct (deref r i (storage w)) as [e0|] eqn:Hderef;
      [|by rewrite runCode_needs_record in Hfin].
    pose proof (runCode_same_request _ _ _ _ _ _ _ _ Hfin) as Hsame.
    assert (i = id e0 ∧ schema_ok e0) as [Hid0 Hs0].
    { destruct r; simpl in Hderef; [by apply Bm| |done].
      injection Hderef as ->. destruct (Br _ _ (B2 _ Hte)) as [Hk ?].
      apply redis_key_inj in Hk. done. }
    assert (i = id e' ∧ schema_ok e') as [Hid Hs].
    { split; [destruct Hsame; congruence|by eapply same_request_schema]. }
    assert (∀ k e, memoryStorage (assign r i e' (storage w)) !! k = Some e →
              (e = e' ∧ k = i) ∨ memoryStorage (storage w) !! k = Some e) as Hassign.
    { intros k e. destruct r; simpl; auto.
      rewrite lookup_insert. case_decide; [intros [= <-]|]; auto. }
    assert (redis (assign r i e' (storage w)) = redis (storage w)) as Hredis
      by (by destruct r).
    split; simpl.
    + intros k e. destruct ok; simpl; rewrite Hredis; [|by apply Br].
      rewrite lookup_insert. case_decide as Hk; [|by apply Br].
      intros [= <-]. subst k. split; [by f_equal|done].
    + intros k e. destruct ok; simpl.
      * intros E. destruct (Hassign _ _ E) as [[-> ->]|E']; [done|by apply Bm].
      * rewrite lookup_insert. case_decide as Hk.
        -- intros [= <-]. by subst k.
        -- intros E. destruct (Hassign _ _ E) as [[-> ->]|E']; [done|by apply Bm].
    + intros j t' E. apply Hdel in E as [Hj E].
      destruct (Bt _ _ E) as (C1 & C2 & C3).
      assert (redis_key i ≠ redis_key j) as Hk
        by (intros Hk; by apply redis_key_inj in Hk).
      assert (memoryStorage (assign r i e' (storage w)) !! j
              = memoryStorage (storage w) !! j) as Hmj.
      { destruct r; simpl; try done. by rewrite lookup_insert_ne. }
      destruct ok; simpl; rewrite Hredis, ?lookup_insert_ne, ?Hmj by done; done.
Qed.

Lemma bookkeeping_steps evs : ∀ w w',
  invariant w → bookkeeping w → steps w evs = Some w' → bookkeeping w'.
Proof.
  induction evs as [|ev evs IH]; intros w w' Hinv Hbk; simpl.
  - by intros [= <-].
  - destruct (step w ev) as [w1|] eqn:Hs; [|discriminate].
    apply IH; [by eapply invariant_step|by eapply bookkeeping_step].
Qed.

Lemma reachable_bookkeeping w : reachable w → bookkeeping w.
Proof.
  intros [evs H].
  by eapply bookkeeping_steps; [apply invariant_initial|apply bookkeeping_initial|].
Qed.

(** X11.  What a status lookup can return.  In every reachable world the
    record found under an id carries that id, and its language, code,
    input and timeout satisfy the request schema: the language is one of
    the five, the code is not empty and not longer than 50000, the input
    not longer than 10000, the timeout at least 1. *)
Theorem lookup_returns_own_record (w : world) (ok : bool) (i : string) (e : execution) :
  reachable w →
  getExecutionStatus ok i (storage w) = Resolved e →
  id e = i ∧ schema_ok e.
Proof.
  intros Hreach. destruct (reachable_bookkeeping w Hreach) as [Br Bm _].
  unfold getExecutionStatus, getExecution. destruct ok.
  - destruct (redis (storage w) !! redis_key i) as [e0|] eqn:E; [|discriminate].
    intros [= <-]. destruct (Br _ _ E) as [Hk ?]. apply redis_key_inj in Hk. done.
  - destruct (memoryStorage (storage w) !! i) as [e0|] eqn:E; [|discriminate].
    intros [= <-]. by destruct (Bm _ _ E).
Qed.

Lemma step_keeps_request w ev w' :
  invariant w → bookkeeping w → step w ev = Some w' →
  ∀ k e,
    (memoryStorage (storage w) !! k = Some e →
     ∃ e', memoryStorage (storage w') !! k = Some e' ∧ same_request e e') ∧
    (redis (storage w) !! k = Some e →
     ∃ e', redis (storage w') !! k = Some e' ∧ same_request e e').
Proof.
  intros [Hr Hm Ht] [Br Bm Bt] Hstep k e.
  assert (∀ m : gmap string execution, m !! k = Some e →
            ∃ e', m !! k = Some e' ∧ same_request e e') as Hsame
    by (intros m E; exists e; split; [done|apply same_request_refl]).
  destruct ev as [r uuid now ok|i ok|i d now ok]; simpl in Hstep.
  - destruct (validate (normalizeTimeout r)) as [err|value] eqn:Hv;
      [injection Hstep as <-; by split; apply Hsame|].
    case_decide as Hfresh; [discriminate|]. injection Hstep as <-. simpl.
    unfold executeCode. rewrite Hv. simpl.
    split; intros E; destruct ok; simpl; try (by apply Hsame).
    + rewrite lookup_insert_ne; [by apply Hsame|]. intros <-. by destruct (Hm _ _ E).
    + rewrite lookup_insert_ne; [by apply Hsame|]. intros <-.
      destruct (Hr _ _ E) as (_ & j & Hk & Hj). apply redis_key_inj in Hk. by subst.
  - destruct (tasks w !! i) as [t|]; [|discriminate].
    destruct (task_execution t); [discriminate|]. injection Hstep as <-. simpl.
    split; by apply Hsame.
  - destruct (tasks w !! i) as [t|] eqn:Hti; [|discriminate].
    destruct (task_execution t) as [r|] eqn:Hte; [|discriminate].
    injection Hstep as <-. simpl.
    destruct (Bt _ _ Hti) as (B1 & B2 & B3).
    destruct (final (runCode _ _ _ _ _ d now)) as [e'|] eqn:Hfin;
      [|split; by apply Hsame].
    destruct (deref r i (storage w)) as [e0|] eqn:Hderef;
      [|by rewrite runCode_needs_record in Hfin].
    pose proof (runCode_same_request _ _ _ _ _ _ _ _ Hfin) as Hreq.
    split; intros E.
    + destruct (decide (k = i)) as [->|Hk].
      * destruct r; simpl in Hderef.
        -- rewrite E in Hderef. injection Hderef as <-.
           exists e'. split; [|done]. destruct ok; simpl; apply lookup_insert_eq.
        -- specialize (B2 _ Hte). destruct B1 as [B1|B1]; congruence.
        -- done.
      * exists e. split; [|apply same_request_refl].
        destruct ok, r; simpl; rewrite ?lookup_insert_ne; done.
    + destruct (decide (k = redis_key i)) as [->|Hk].
      * destruct r; simpl in Hderef.
        -- destruct (B3 Hte) as [x Hx]. destruct B1 as [B1|B1]; congruence.
        -- injection Hderef as ->. rewrite (B2 _ Hte) in E. injection E as <-.
           destruct ok; simpl; [|by apply Hsame; apply B2].
           exists e'. split; [apply lookup_insert_eq|done].
        -- done.
      * exists e. split; [|apply same_request_refl].
        destruct ok, r; simpl; rewrite ?lookup_insert_ne; done.
Qed.

Lemma steps_keep_request evs : ∀ w w',
  invariant w → bookkeeping w → steps w evs = Some w' →
  ∀ k e,
    (memoryStorage (storage w) !! k = Some e →
     ∃ e', memoryStorage (storage w') !! k = Some e' ∧ same_request e e') ∧
    (redis (storage w) !! k = Some e →
     ∃ e', redis (storage w') !! k = Some e' ∧ same_request e e').
Proof.
  induction evs as [|ev evs IH]; intros w w' Hinv Hbk; simpl.
  - intros [= <-] k e. split; intros E; exists e; (split; [done|apply same_request_refl]).
  - destruct (step w ev) as [w1|] eqn:Hs; [|discriminate]. intros Hrest k e.
    destruct (step_keeps_request w ev w1 Hinv Hbk Hs k e) as [Hm1 Hr1].
    pose proof (IH w1 w' (invariant_step w ev w1 Hinv Hs)
                  (bookkeeping_step w ev w1 Hinv Hbk Hs) Hrest) as Hnext.
    split; intros E.
    + destruct (Hm1 E) as (e1 & E1 & S1).
      destruct (proj1 (Hnext k e1) E1) as (e2 & E2 & S2).
      exists e2. split; [done|by eapply same_request_trans].
    + destruct (Hr1 E) as (e1 & E1 & S1).
      destruct (proj2 (Hnext k e1) E1) as (e2 & E2 & S2).
      exists e2. split; [done|by eapply same_request_trans].
Qed.

(** X12.  What a record keeps for life.  Whatever happens after a record
    is stored, the in-process map never loses it, and the record found
    later under the same key, in either backend, has the same id,
    language, code, input, timeout and start time. *)
Theorem request_fields_never_change (w w' : world) (evs : list event) :
  reachable w →
  steps w evs = Some w' →
  ∀ k e,
    (memoryStorage (storage w) !! k = Some e →
     ∃ e', memoryStorage (storage w') !! k = Some e' ∧ same_request e e') ∧
    (redis (storage w) !! k = Some e →
     ∀ e', redis (storage w') !! k = Some e' → same_request e e').
Proof.
  intros Hreach Hsteps k e.
  destruct (steps_keep_request evs w w' (reachable_invariant w Hreach)
              (reachable_bookkeeping w Hreach) Hsteps k e) as [Hm Hr].
  split; [exact Hm|].
  intros E e' E'. destruct (Hr E) as (e1 & E1 & S1). congruence.
Qed.

Lemma step_submit w r value uuid now ok :
  validate (normalizeTimeout r) = inr value →
  uuid ∉ issued w →
  step w (Submit r uuid now ok)
  = Some {| storage := storeExecution ok uuid (new_execution uuid value now) (storage w);
            tasks := <[uuid := {| task_language := v_language value;
                                  task_code := v_code value;
                                  task_input := v_input value;
                                  task_timeout := v_timeout value;
                                  task_execution := None |}]> (tasks w);
            issued := {[uuid]} ∪ issued w |}.
Proof.
  intros Hv Hfresh. simpl. unfold executeCode. rewrite Hv.
  by rewrite decide_False by done.
Qed.

Lemma step_fetch w i ok t :
  tasks w !! i = Some t →
  task_execution t = None →
  step w (Fetch i ok)
  = Some {| storage := storage w;
            tasks := <[i := {| task_language := task_language t;
                               task_code := task_code t;
                               task_input := task_input t;
                               task_timeout := task_timeout t;
                               task_execution := Some (fetch ok i (storage w)) |}]>
                       (tasks w);
            issued := issued w |}.
Proof. intros Hti Hte. simpl. by rewrite Hti, Hte. Qed.

Lemma step_settle w i d now ok t r :
  tasks w !! i = Some t →
  task_execution t = Some r →
  step w (Settle i d now ok)
  = Some {| storage :=
              match final (runCode (deref r i (storage w)) (task_language t)
                             (task_code t) (task_input t) (task_timeout t) d now) with
              | Some e => storeExecution ok i e (assign r i e (storage w))
              | None => storage w
              end;
            tasks := delete i (tasks w);
            issued := issued w |}.
Proof. intros Hti Hte. simpl. by rewrite Hti, Hte. Qed.

(** X13.  A record that its task cannot read back.  When the record of an
    accepted request is written through one backend and the lookup at the
    head of [runCode] is answered by the other, the task finds no record:
    when it settles the store is as [executeCode] left it, and the record
    is still pending, however the container ran. *)
Theorem unread_record_stays_pending (w : world) (r : request) (value : validated)
    (uuid now now' : string) (ok ok' : bool) (d : docker) :
  reachable w →
  validate (normalizeTimeout r) = inr value →
  uuid ∉ issued w →
  ∃ w', steps w [Submit r uuid now ok; Fetch uuid (negb ok); Settle uuid d now' ok']
        = Some w' ∧
        storage w' = storeExecution ok uuid (new_execution uuid value now) (storage w) ∧
        getExecutionStatus ok uuid (storage w')
        = Resolved (new_execution uuid value now) ∧
        tasks w' !! uuid = None.
Proof.
  intros Hreach Hv Hfresh.
  destruct (reachable_invariant w Hreach) as [Hr Hm _].
  assert (redis (storage w) !! redis_key uuid = None) as Hr0.
  { destruct (redis (storage w) !! redis_key uuid) as [e|] eqn:E; [|done].
    destruct (Hr _ _ E) as (_ & i & Hk & Hi). apply redis_key_inj in Hk. by subst. }
  assert (memoryStorage (storage w) !! uuid = None) as Hm0.
  { destruct (memoryStorage (storage w) !! uuid) as [e|] eqn:E; [|done].
    by destruct (Hm _ _ E). }
  set (e0 := new_execution uuid value now).
  assert (fetch (negb ok) uuid (storeExecution ok uuid e0 (storage w)) = no_object)
    as Hfetch.
  { unfold fetch, storeExecution. destruct ok; simpl; by rewrite ?Hr0, ?Hm0. }
  cbn [steps]. rewrite (step_submit w r value uuid now ok Hv Hfresh). fold e0.
  erewrite step_fetch; [|apply lookup_insert_eq|reflexivity].
  cbn [storage task_language task_code task_input task_timeout]. rewrite Hfetch.
  erewrite step_settle; [|apply lookup_insert_eq|reflexivity].
  cbn [storage deref]. rewrite runCode_needs_record.
  eexists. split; [reflexivity|]. cbn [storage tasks].
  split; [done|]. split.
  - unfold getExecutionStatus. by rewrite stored_then_read.
  - apply lookup_delete_eq.
Qed.

(** X14.  A finished run that Redis never learns of.  When the record of
    an accepted request is written to Redis, read back from Redis by its
    task, and Redis fails when the task stores the result, the result
    goes to the in-process map only: a lookup answered by Redis still
    returns the pending record, while a lookup that falls back to memory
    returns the finished one. *)
Theorem redis_keeps_stale_pending (w : world) (r : request) (value : validated)
    (uuid now now' : string) (d : docker) :
  validate (normalizeTimeout r) = inr value →
  uuid ∉ issued w →
  ∃ w' e', steps w [Submit r uuid now true; Fetch uuid true; Settle uuid d now' false]
           = Some w' ∧
           getExecutionStatus true uuid (storage w')
           = Resolved (new_execution uuid value now) ∧
           getExecutionStatus false uuid (storage w') = Resolved e' ∧
           terminal (status e') ∧ endTime e' = Some now' ∧
           same_request (new_execution uuid value now) e'.
Proof.
  intros Hv Hfresh.
  destruct (validate_config _ _ Hv) as [config Hcfg].
  set (e0 := new_execution uuid value now).
  assert (∃ e', final (runCode (Some e0) (v_language value) (v_code value)
                         (v_input value) (v_timeout value) d now') = Some e' ∧
                terminal (status e') ∧ endTime e' = Some now') as (e' & Hfin & Hterm & Hend).
  { unfold runCode. rewrite Hcfg. destruct (try_block _ d) as [made res].
    destruct res; eexists; (split; [reflexivity|]); simpl; unfold terminal; auto. }
  assert (fetch true uuid (storeExecution true uuid e0 (storage w)) = parsed_copy e0)
    as Hfetch.
  { unfold fetch, storeExecution. simpl. by rewrite lookup_insert_eq. }
  cbn [steps]. rewrite (step_submit w r value uuid now true Hv Hfresh). fold e0.
  erewrite step_fetch; [|apply lookup_insert_eq|reflexivity].
  cbn [storage task_language task_code task_input task_timeout]. rewrite Hfetch.
  erewrite step_settle; [|apply lookup_insert_eq|reflexivity].
  cbn [storage deref assign task_language task_code task_input task_timeout].
  rewrite Hfin.
  eexists _, e'. split; [reflexivity|]. cbn [storage].
  split; [|split; [|split; [done|split; [done|]]]].
  - unfold getExecutionStatus, getExecution, storeExecution. simpl.
    by rewrite lookup_insert_eq.
  - unfold getExecutionStatus. by rewrite stored_then_read.
  - by apply (runCode_same_request _ _ _ _ _ _ _ _ Hfin).
Qed.

Lemma property_id e : property "id" (json_properties e) = Some (js_string (id e)).
Proof. reflexivity. Qed.

Lemma property_status e :
  property "status" (json_properties e) = Some (js_string (status_text (status e))).
Proof. reflexivity. Qed.

Lemma property_endTime e :
  property "endTime" (json_properties e) = Some (string_or js_null (endTime e)).
Proof.
  unfold json_properties, properties. by destruct (input e), (endTime e).
Qed.

(** X5.  Looking up a request that was answered 202.  Through the same
    backend and before its task takes a step, [GET /api/status/:id] with
    the returned id answers 200 with a record whose [id] is that id, whose
    [status] is [pending] and whose [endTime], [output] and [error] are
    [null].  When the record went to the in-process map, every later
    lookup there, whatever has happened in between, answers 200 with a
    record of that id, and it is still pending with no end time as long as
    the run has not settled.  An id under which the backend holds nothing
    is answered 404. *)
Theorem post_then_get_status (r : request) (uuid now : string) (ok : bool) (s : store) :
  (http_status (post_execute r uuid now ok s).1 = 202%Z →
   ∃ object,
     get_status ok uuid (post_execute r uuid now ok s).2
     = {| http_status := 200; body := status_record object |} ∧
     property "id" object = Some (js_string uuid) ∧
     property "status" object = Some (js_string "pending") ∧
     property "endTime" object = Some js_null ∧
     property "output" object = Some js_null ∧
     property "error" object = Some js_null) ∧
  (∀ w evs w',
     reachable w → storage w = s →
     http_status (post_execute r uuid now false s).1 = 202%Z →
     steps w (Submit r uuid now false :: evs) = Some w' →
     ∃ object,
       get_status false uuid (storage w')
       = {| http_status := 200; body := status_record object |} ∧
       property "id" object = Some (js_string uuid) ∧
       (is_Some (tasks w' !! uuid) →
        property "status" object = Some (js_string "pending") ∧
        property "endTime" object = Some js_null)) ∧
  (∀ i, getExecution ok i s = None →
     get_status ok i s
     = {| http_status := 404;
          body := status_not_found
                    "Failed to get execution status: Execution not found" |}).
Proof.
  split; [|split].
  - unfold post_execute, executeCode.
    destruct (validate (normalizeTimeout r)) as [e|value]; simpl; [discriminate|].
    intros _. unfold get_status, getExecutionStatus. rewrite stored_then_read.
    eexists. split; [reflexivity|].
    unfold json_properties, properties. simpl.
    by destruct (v_input value).
  - intros w evs w' Hreach <- H202 Hsteps.
    unfold post_execute, executeCode in H202.
    destruct (validate (normalizeTimeout r)) as [err|value] eqn:Hv; [discriminate|].
    clear H202. cbn [steps] in Hsteps.
    destruct (step w (Submit r uuid now false)) as [w1|] eqn:Hs1; [|discriminate].
    pose proof (reachable_invariant w Hreach) as Hinv.
    pose proof (reachable_bookkeeping w Hreach) as Hbk.
    pose proof (invariant_step _ _ _ Hinv Hs1) as Hinv1.
    pose proof (bookkeeping_step _ _ _ Hinv Hbk Hs1) as Hbk1.
    assert (memoryStorage (storage w1) !! uuid = Some (new_execution uuid value now))
      as Hm1.
    { simpl in Hs1. rewrite Hv in Hs1. case_decide; [discriminate|].
      injection Hs1 as <-. simpl. unfold executeCode. rewrite Hv. simpl.
      apply lookup_insert_eq. }
    destruct (proj1 (steps_keep_request evs w1 w' Hinv1 Hbk1 Hsteps uuid _) Hm1)
      as (e' & He' & Hsame).
    exists (json_properties e'). split; [|split].
    + unfold get_status, getExecutionStatus, getExecution. by rewrite He'.
    + rewrite property_id. by destruct Hsame as (<- & _).
    + intros [t Ht].
      destruct (inv_tasks w' (invariant_steps evs w1 w' Hinv1 Hsteps) _ _ Ht)
        as (_ & _ & _ & Hfm & _).
      destruct (Hfm _ He') as (Hp & Hend & _).
      by rewrite property_status, property_endTime, Hp, Hend.
  - intros i Hi. unfold get_status, getExecutionStatus. by rewrite Hi.
Qed.

End LifeFacts.

(** ** The shell command *)

Lemma append_cons (x : ascii) (a b : string) : String x a +:+ b = String x (a +:+ b).
Proof. reflexivity. Qed.

Lemma append_assoc (a b c : string) : (a +:+ b) +:+ c = a +:+ (b +:+ c).
Proof.
  induction a as [|x a IH]; [done|]. rewrite !append_cons. by rewrite IH.
Qed.

Lemma sh_unquote_escaped (code : string) :
  sh_unquote single_quoted (escape_quotes code +:+ "'") = Some code.
Proof.
  induction code as [|c code IH]; [reflexivity|].
  cbn [escape_quotes]. destruct (decide (c = "'"%char)) as [->|Hc].
  - unfold quote_escape. rewrite !append_cons.
    change (EmptyString +:+ escape_quotes code) with (escape_quotes code).
    cbn [sh_unquote]. rewrite decide_True by done.
    rewrite decide_False by discriminate. rewrite decide_True by done.
    rewrite decide_False by discriminate.
    rewrite decide_False by (intros [H|[H|H]]; discriminate H).
    rewrite decide_True by done. rewrite decide_True by done.
    rewrite IH. reflexivity.
  - rewrite append_cons. cbn [sh_unquote]. rewrite decide_False by done.
    by rewrite IH.
Qed.

(** X15.  Quotes in the code do not end the quoting.  The shell command
    is [echo], the quoted code, the redirection to the source file and the
    run command; and under the quoting rules of the shell the quoted code
    reads back as exactly the code.  Two different codes therefore never
    give the same quoted word. *)
Theorem quoted_code_reads_back (config : language_config) (code : string) :
  shell_command config code
  = "echo " +:+ echo_argument code +:+ " > main" +:+ extension config +:+ " && "
    +:+ runCommand config ("main" +:+ extension config) ∧
  sh_unquote unquoted (echo_argument code) = Some code ∧
  (∀ code', escape_quotes code' = escape_quotes code → code' = code).
Proof.
  split; [|split].
  - unfold shell_command, echo_argument. rewrite !append_assoc. reflexivity.
  - unfold echo_argument. rewrite append_cons. cbn [sh_unquote].
    rewrite decide_True by done. apply sh_unquote_escaped.
  - intros code' Heq.
    pose proof (sh_unquote_escaped code') as H. rewrite Heq, sh_unquote_escaped in H.
    by injection H.
Qed.

(** ** The demultiplexer on arbitrary buffers *)

Lemma byte_of_N_val (b : byte) : byte_of_N (byte_val b) = b.
Proof.
  unfold byte_of_N, byte_val.
  pose proof (Byte.to_N_bounded b).
  rewrite N.mod_small by lia. by rewrite Byte.of_to_N.
Qed.

Lemma byte_of_N_low (hi : N) (b : byte) : byte_of_N (hi * 256 + byte_val b) = b.
Proof.
  rewrite <- (byte_of_N_val b) at 2. unfold byte_of_N. f_equal. f_equal.
  rewrite N.add_comm, N.Div0.mod_add. reflexivity.
Qed.

Lemma uint32BE_of_bytes (b4 b5 b6 b7 : byte) :
  uint32BE (byte_val b4 * 16777216 + byte_val b5 * 65536 + byte_val b6 * 256
            + byte_val b7) = [b4; b5; b6; b7].
Proof.
  pose proof (Byte.to_N_bounded b4). pose proof (Byte.to_N_bounded b5).
  pose proof (Byte.to_N_bounded b6). pose proof (Byte.to_N_bounded b7).
  unfold byte_val in *. unfold uint32BE.
  set (v4 := Byte.to_N b4) in *. set (v5 := Byte.to_N b5) in *.
  set (v6 := Byte.to_N b6) in *. set (v7 := Byte.to_N b7) in *.
  assert ((v4 * 16777216 + v5 * 65536 + v6 * 256 + v7) / 256
          = v4 * 65536 + v5 * 256 + v6)%N as H8.
  { symmetry. apply (N.div_unique _ 256 _ v7); lia. }
  assert ((v4 * 16777216 + v5 * 65536 + v6 * 256 + v7) / 65536
          = v4 * 256 + v5)%N as H16.
  { symmetry. apply (N.div_unique _ 65536 _ (v6 * 256 + v7)); lia. }
  assert ((v4 * 16777216 + v5 * 65536 + v6 * 256 + v7) / 16777216 = v4)%N as H24.
  { symmetry. apply (N.div_unique _ 16777216 _ (v5 * 65536 + v6 * 256 + v7)); lia. }
  rewrite H8, H16, H24.
  replace (v4 * 16777216 + v5 * 65536 + v6 * 256 + v7)%N
    with ((v4 * 65536 + v5 * 256 + v6) * 256 + v7)%N by lia.
  replace (v4 * 65536 + v5 * 256 + v6)%N with ((v4 * 256 + v5) * 256 + v6)%N by lia.
  subst v4 v5 v6 v7.
  rewrite !(byte_of_N_low _ b7), !(byte_of_N_low _ b6), (byte_of_N_low _ b5).
  f_equal. exact (byte_of_N_val b4).
Qed.

Section DecomposeFacts.
Context {rt : NodeRuntime}.

Lemma buffer_decomposes (n : nat) : ∀ buffer : list byte,
  length buffer ≤ n →
  ∃ fs rest, buffer = encode_frames fs ++ rest ∧ Forall well_formed fs ∧ incomplete rest.
Proof.
  induction n as [|n IH]; intros buffer Hlen.
  - exists [], buffer. split; [done|]. split; [done|]. left. lia.
  - destruct (decide (length buffer < 8)) as [Hshort|Hlong].
    { exists [], buffer. split; [done|]. split; [done|]. by left. }
    destruct buffer as [|b0 [|b1 [|b2 [|b3 [|b4 [|b5 [|b6 [|b7 tl]]]]]]]];
      try (simpl in Hlong; lia).
    set (v := readUInt32BE (b0 :: b1 :: b2 :: b3 :: b4 :: b5 :: b6 :: b7 :: tl) 4).
    assert (v = byte_val b4 * 16777216 + byte_val b5 * 65536 + byte_val b6 * 256
                + byte_val b7)%N as Hv by reflexivity.
    destruct (decide (length tl < N.to_nat v)) as [Hcut|Hfull].
    { exists [], (b0 :: b1 :: b2 :: b3 :: b4 :: b5 :: b6 :: b7 :: tl).
      split; [done|]. split; [done|]. right. fold v. simpl. lia. }
    destruct (IH (drop (N.to_nat v) tl)) as (fs & rest & Hdec & Hwf & Hinc).
    { rewrite length_drop. simpl in Hlen. lia. }
    assert (length (take (N.to_nat v) tl) = N.to_nat v) as Htake
      by (rewrite length_take; lia).
    exists ({| selector := b0; reserved := (b1, b2, b3);
               payload := take (N.to_nat v) tl |} :: fs), rest.
    split; [|split; [|done]].
    + change (encode_frames (?f :: fs)) with (encode_frame f ++ encode_frames fs).
      unfold encode_frame. cbn [selector reserved payload].
      rewrite Htake, N2Nat.id, Hv, uint32BE_of_bytes. simpl.
      rewrite <- app_assoc, <- Hdec, take_drop. reflexivity.
    + apply Forall_cons. split; [|done].
      unfold well_formed. cbn [payload]. rewrite Htake, N2Nat.id, Hv.
      pose proof (Byte.to_N_bounded b4). pose proof (Byte.to_N_bounded b5).
      pose proof (Byte.to_N_bounded b6). pose proof (Byte.to_N_bounded b7).
      unfold byte_val. lia.
Qed.

(** X16.  Every buffer has a reading.  Whatever the bytes, the buffer is
    a sequence of complete frames, with any selector and any reserved
    bytes, followed by bytes that do not hold a complete frame; the chunks
    of the demultiplexer are the decoded payloads of exactly these frames,
    and with no complete frame at all the output is the whole buffer as
    text. *)
Theorem every_buffer_is_read (buffer : list byte) :
  ∃ fs rest,
    buffer = encode_frames fs ++ rest ∧
    Forall well_formed fs ∧ incomplete rest ∧
    parsedChunks buffer = (stdout_texts fs, stderr_texts fs) ∧
    parseDockerLogs buffer
    = match fs with
      | [] => {| stdout := trim (utf8 buffer); stderr := "" |}
      | _ => {| stdout := trim (join (stdout_texts fs));
                stderr := trim (join (stderr_texts fs)) |}
      end.
Proof.
  destruct (buffer_decomposes (length buffer) buffer (le_n _))
    as (fs & rest & Hdec & Hwf & Hinc).
  exists fs, rest. split; [done|]. split; [done|]. split; [done|].
  assert (parsedChunks buffer = (stdout_texts fs, stderr_texts fs)) as Hchunks
    by (rewrite Hdec; by apply parsedChunks_frames).
  split; [done|]. unfold parseDockerLogs. rewrite Hchunks.
  destruct fs as [|f fs]; [done|].
  by rewrite decide_False by apply texts_of_frames.
Qed.

(** X17.  A buffer that does not start with a complete frame.  When the
    buffer has fewer than 8 bytes, or its first header announces more
    payload than the buffer holds, nothing is demultiplexed: the whole
    buffer, header bytes included, is decoded as text into [stdout], and
    [stderr] is empty. *)
Theorem cut_buffer_is_plain_text (buffer : list byte) :
  incomplete buffer →
  parseDockerLogs buffer = {| stdout := trim (utf8 buffer); stderr := "" |}.
Proof. intros H. by apply no_frames_fallback, incomplete_no_frames. Qed.

End DecomposeFacts.

(** ** Output when no log was captured *)

Section SilentFacts.
Context {rt : NodeRuntime}.

(** X18.  A run without a readable log is never silent.  When
    [container.logs] fails, or returns an empty buffer, exactly one of
    [stdout] and [stderr] is a non-empty message: [stdout] for exit code
    0, [stderr] with the exit code for another code, and [stderr] with
    [Error capturing output: ] and the message of the engine when
    [container.inspect] fails as well. *)
Theorem no_log_is_never_silent (c : container) :
  (∃ m, logs c = Rejected m) ∨ (∃ l, logs c = Resolved l ∧ outputBuffer_of l = []) →
  ((stdout (getContainerOutput c).2 ≠ "" ∧ stderr (getContainerOutput c).2 = "") ∨
   (stdout (getContainerOutput c).2 = "" ∧ stderr (getContainerOutput c).2 ≠ "")) ∧
  (stdout (getContainerOutput c).2 ≠ "" ↔ inspect c = Resolved 0%Z) ∧
  (∀ exitCode m, logs c = Rejected m → inspect c = Resolved exitCode → exitCode ≠ 0%Z →
     stderr (getContainerOutput c).2
     = "Container failed with exit code " +:+ number_to_string exitCode) ∧
  (∀ message, inspect c = Rejected message →
     stderr (getContainerOutput c).2 = "Error capturing output: " +:+ message).
Proof.
  intros Hlogs.
  assert (∃ success prefix,
            success ≠ "" ∧ (∀ n, prefix +:+ number_to_string n ≠ "") ∧
            (getContainerOutput c).2
            = match inspect c with
              | Resolved exitCode => exit_report success prefix exitCode
              | Rejected message => capture_error message
              end ∧
            ((∃ m, logs c = Rejected m) → prefix = "Container failed with exit code "))
    as (success & prefix & Hs & Hp & Hout & Hpre).
  { unfold getContainerOutput. destruct Hlogs as [[m Hm]|(l & Hl & Hnil)].
    - rewrite Hm. eexists _, _. split; [|split; [|split; [reflexivity|done]]]; done.
    - rewrite Hl, Hnil. simpl. eexists _, _.
      split; [|split; [|split; [reflexivity|]]]; try done.
      intros [m Hm]. congruence. }
  rewrite Hout. unfold exit_report, capture_error.
  destruct (inspect c) as [exitCode|message].
  - destruct (decide (exitCode = 0%Z)) as [->|Hne]; simpl.
    + split; [by left|]. split; [done|]. split; [|done].
      intros exitCode m _ [= <-] Hne. done.
    + split; [right; by split|]. split; [split; [done|by intros [= ->]]|].
      split; [|done]. intros exitCode' m Hm [= <-] _.
      by rewrite (Hpre (ex_intro _ m Hm)).
  - simpl. split; [right; by split|]. split; [by split|].
    split; [done|]. by intros message' [= <-].
Qed.

End SilentFacts.

(** ** Languages *)

(** X19.  The schema and the configuration table agree: a language has a
    configuration exactly when the schema accepts it, and each of the five
    configurations has an image, a file extension that starts with a dot,
    and a run command that names the source file. *)
Theorem configured_languages (l : string) :
  (is_Some (LANGUAGE_CONFIG l) ↔ l ∈ valid_languages) ∧
  (∀ config, LANGUAGE_CONFIG l = Some config →
     image config ≠ "" ∧
     String.prefix "." (extension config) = true ∧
     ∃ before after,
       runCommand config ("main" +:+ extension config)
       = before +:+ "main" +:+ extension config +:+ after).
Proof.
  split.
  - split.
    + unfold LANGUAGE_CONFIG, valid_languages. rewrite !elem_of_cons.
      repeat case_decide; subst; auto 10. by intros [? ?].
    + intros H. by eapply validate_language_config with (l := Some l),
                  decide_True.
  - unfold LANGUAGE_CONFIG. intros config.
    repeat case_decide; intros [= <-]; (split; [done|]); (split; [done|]).
    + by exists "node ", "".
    + by exists "python ", "".
    + by exists "javac ", " && java main".
    + by exists "g++ -o main ", " && ./main".
    + by exists "gcc -o main ", " && ./main".
Qed.

(** ** From the container to the record *)

Lemma classic_thrown (d : docker) : exception_thrown d ∨ ¬ exception_thrown d.
Proof.
  unfold exception_thrown. destruct (create d) as [c|m]; [|by left].
  destruct (start c) as [[]|m]; [|left; by eauto].
  destruct (timer_first d); [left; by eauto|].
  destruct (wait c) as [[]|m]; [|left; by eauto 6].
  destruct (remove c) as [[]|m]; [|left; by eauto 6].
  right. intros [[? ?]|[?|[[? ?]|[? ?]]]]; done.
Qed.

Section EndToEnd.
Context {rt : NodeRuntime}.

Lemma runCode_outcome (e : execution) language code input timeout d now config :
  LANGUAGE_CONFIG language = Some config →
  ∃ e', final (runCode (Some e) language code input timeout d now) = Some e' ∧
        endTime e' = Some now ∧
        (exception_thrown d → status e' = failed) ∧
        (¬ exception_thrown d →
         ∃ c, create d = Resolved c ∧
              e' = set_completed e (getContainerOutput c).2 now).
Proof.
  intros Hcfg. unfold runCode, try_block, exception_thrown. rewrite Hcfg.
  destruct (create d) as [c|m].
  2:{ eexists. split; [done|]. split; [done|]. split; [done|].
      intros H. by destruct H. }
  destruct (start c) as [[]|m].
  2:{ eexists. split; [done|]. split; [done|]. split; [done|].
      intros H. destruct H. by eauto. }
  destruct (timer_first d).
  { eexists. split; [done|]. split; [done|]. split; [done|].
    intros H. destruct H. by eauto. }
  destruct (wait c) as [[]|m].
  2:{ eexists. split; [done|]. split; [done|]. split; [done|].
      intros H. destruct H. by eauto 6. }
  destruct (getContainerOutput c) as [oc result] eqn:Hout.
  destruct (remove c) as [[]|m].
  - eexists. split; [done|]. split; [done|]. split.
    + intros [[? ?]|[?|[[? ?]|[? ?]]]]; done.
    + intros _. exists c. by rewrite Hout.
  - eexists. split; [done|]. split; [done|]. split; [done|].
    intros H. destruct H. by eauto 8.
Qed.

(** X20.  What settling leaves behind.  In every reachable world, when a
    task that holds its record settles, the task is gone and the backend
    that took the write returns a record of the same request with the end
    time of the settling; it is failed exactly when a call of the [try]
    block threw and completed otherwise. *)
Theorem settled_task_leaves_outcome (w : world) (i : string) (t : task)
    (r : execution_ref) (e : execution) (d : docker) (now : string) (ok : bool) :
  reachable w →
  tasks w !! i = Some t →
  task_execution t = Some r →
  deref r i (storage w) = Some e →
  ∃ w' e', step w (Settle i d now ok) = Some w' ∧
           tasks w' !! i = None ∧
           getExecutionStatus ok i (storage w') = Resolved e' ∧
           same_request e e' ∧
           endTime e' = Some now ∧
           (status e' = failed ↔ exception_thrown d) ∧
           (status e' = completed ↔ ¬ exception_thrown d).
Proof.
  intros Hreach Hti Hte Hderef.
  destruct (reachable_invariant w Hreach) as [_ _ Ht].
  destruct (Ht _ _ Hti) as (_ & [config Hcfg] & _).
  destruct (runCode_outcome e (task_language t) (task_code t) (task_input t)
              (task_timeout t) d now config Hcfg) as (e' & Hfin & Hend & Hfail & Hok).
  exists {| storage := storeExecution ok i e' (assign r i e' (storage w));
            tasks := delete i (tasks w); issued := issued w |}, e'.
  split; [|split; [|split; [|split; [|split; [done|]]]]].
  - rewrite (step_settle w i d now ok t r Hti Hte), Hderef, Hfin. reflexivity.
  - apply lookup_delete_eq.
  - cbn [storage]. unfold getExecutionStatus. by rewrite stored_then_read.
  - by apply (runCode_same_request _ _ _ _ _ _ _ _ Hfin).
  - destruct (decide (status e' = failed)) as [Hs|Hs].
    + split; split; try done; try congruence.
      * intros _. destruct (classic_thrown d) as [Hx|Hx]; [done|].
        destruct (Hok Hx) as (c & _ & ->). discriminate Hs.
      * intros Hx. exfalso. apply Hx.
        destruct (classic_thrown d) as [Hy|Hy]; [done|].
        destruct (Hok Hy) as (c & _ & ->). discriminate Hs.
    + destruct (classic_thrown d) as [Hx|Hx]; [by destruct Hs; apply Hfail|].
      destruct (Hok Hx) as (c & _ & ->).
      split; split; try done.
Qed.

(** X21.  From the log to the record.  When the container of a run exits
    and is removed and its log is a sequence of complete frames, at least
    one, the record is completed, its [output] is the trimmed
    concatenation of the decoded payloads that were not sent to stderr,
    and its [error] that of the payloads sent to stderr. *)
Theorem framed_log_becomes_record (e : execution) (language code : string)
    (input : option string) (timeout : Q) (d : docker) (c : container)
    (now : string) (config : language_config) (f : frame) (fs : list frame) :
  LANGUAGE_CONFIG language = Some config →
  exits_and_is_removed d c →
  Forall well_formed (f :: fs) →
  logs c = Resolved (logs_buffer (encode_frames (f :: fs))) →
  ∃ e', final (runCode (Some e) language code input timeout d now) = Some e' ∧
        status e' = completed ∧
        output e' = Some (trim (join (stdout_texts (f :: fs)))) ∧
        error e' = Some (trim (join (stderr_texts (f :: fs)))) ∧
        endTime e' = Some now.
Proof.
  intros Hcfg Hx Hwf Hlogs.
  exists (set_completed e (getContainerOutput c).2 now).
  split; [by eapply runCode_exit|]. split; [done|].
  assert ((getContainerOutput c).2
          = {| stdout := trim (join (stdout_texts (f :: fs)));
               stderr := trim (join (stderr_texts (f :: fs))) |}) as ->; [|done].
  unfold getContainerOutput. rewrite Hlogs. cbn [outputBuffer_of].
  rewrite decide_True.
  2:{ pose proof (encode_frames_length (f :: fs)). simpl in *. lia. }
  cbn [snd]. unfold parseDockerLogs.
  rewrite <- (app_nil_r (encode_frames (f :: fs))).
  rewrite (parsedChunks_frames (f :: fs) [] Hwf incomplete_nil).
  by rewrite decide_False by apply texts_of_frames.
Qed.

(** X22.  Executions do not touch each other.  A step that belongs to one
    execution leaves the record and the task of every other id as they
    were, in both backends. *)
Theorem step_leaves_other_ids (w w' : world) (ev : event) (j : string) :
  step w ev = Some w' →
  j ≠ event_id ev →
  redis (storage w') !! redis_key j = redis (storage w) !! redis_key j ∧
  memoryStorage (storage w') !! j = memoryStorage (storage w) !! j ∧
  tasks w' !! j = tasks w !! j.
Proof.
  intros Hstep Hj.
  assert (∀ i, j ≠ i → redis_key i ≠ redis_key j) as Hkey
    by (intros i Hi Hk; by apply redis_key_inj in Hk).
  destruct ev as [r uuid now ok|i ok|i d now ok]; simpl in Hstep, Hj.
  - destruct (validate (normalizeTimeout r)) as [err|value] eqn:Hv;
      [by injection Hstep as <-|].
    case_decide; [discriminate|]. injection Hstep as <-. simpl.
    unfold executeCode. rewrite Hv. simpl.
    destruct ok; simpl; rewrite !lookup_insert_ne by auto; done.
  - destruct (tasks w !! i) as [t|]; [|discriminate].
    destruct (task_execution t); [discriminate|]. injection Hstep as <-. simpl.
    by rewrite lookup_insert_ne by auto.
  - destruct (tasks w !! i) as [t|]; [|discriminate].
    destruct (task_execution t) as [r|]; [|discriminate]. injection Hstep as <-. simpl.
    rewrite lookup_delete_ne by auto.
    destruct (final (runCode _ _ _ _ _ d now)) as [e'|]; [|done].
    destruct ok, r; simpl; rewrite ?lookup_insert_ne by auto; done.
Qed.

End EndToEnd.

(** * Instances of the further properties *)

Lemma created_container_is_removed_witness :
  (container_remove ∈ calls (runCode (rt := byte_runtime) (Some sample_record) "python"
                               "print('hi')" None 5 remove_fails_docker
                               "2024-01-01T00:00:01.000Z")) ∧
  (container_stop ∈ calls (runCode (rt := byte_runtime) (Some sample_record) "python"
                             "print('hi')" None 5 remove_fails_docker
                             "2024-01-01T00:00:01.000Z")
   ↔ exception_thrown remove_fails_docker) ∧
  removals (calls (runCode (rt := byte_runtime) (Some sample_record) "python"
                     "print('hi')" None 5 remove_fails_docker
                     "2024-01-01T00:00:01.000Z")) = 2 ∧
  removals (calls (runCode (rt := byte_runtime) (Some sample_record) "python"
                     "print('hi')" None 5 sample_docker
                     "2024-01-01T00:00:01.000Z")) = 1 ∧
  ∃ awaited,
    calls (runCode (rt := byte_runtime) (Some sample_record) "python" "print('hi')"
             None 5 slow_docker "2024-01-01T00:00:05.000Z")
    = awaited ++ late_calls (rt := byte_runtime) slow_docker ∧
    last awaited = Some container_remove ∧
    Forall output_call (late_calls (rt := byte_runtime) slow_docker) ∧
    (timer_first slow_docker = false → late_calls (rt := byte_runtime) slow_docker = []).
Proof.
  destruct (created_container_is_removed (rt := byte_runtime) sample_record "python"
              "print('hi')" None 5%Q remove_fails_docker remove_fails_container
              "2024-01-01T00:00:01.000Z" python_config eq_refl eq_refl)
    as (Hin & Hstop & Htwice & _).
  destruct (created_container_is_removed (rt := byte_runtime) sample_record "python"
              "print('hi')" None 5%Q sample_docker sample_container
              "2024-01-01T00:00:01.000Z" python_config eq_refl eq_refl)
    as (_ & _ & _ & Honce & _).
  destruct (created_container_is_removed (rt := byte_runtime) sample_record "python"
              "print('hi')" None 5%Q slow_docker sample_container
              "2024-01-01T00:00:05.000Z" python_config eq_refl eq_refl)
    as (_ & _ & _ & _ & Hlate).
  split; [exact Hin|]. split; [exact Hstop|]. split; [|split; [|exact Hlate]].
  - apply Htwice. unfold first_remove_fails. simpl. by eauto.
  - apply Honce. unfold first_remove_fails. simpl. intros (_ & _ & _ & m & Hm).
    discriminate Hm.
Defined.

Lemma create_failure_is_recorded_witness :
  runCode (rt := byte_runtime) (Some sample_record) "python" "print('hi')" None 5
    no_engine_docker "2024-01-01T00:00:01.000Z"
  = {| calls := [createContainer (container_options_for python_config "print('hi')")];
       final := Some (set_failed sample_record "connect ENOENT /var/run/docker.sock"
                        "2024-01-01T00:00:01.000Z") |}.
Proof.
  apply (create_failure_is_recorded (rt := byte_runtime) sample_record "python"
           "print('hi')" None 5%Q no_engine_docker "2024-01-01T00:00:01.000Z"
           "connect ENOENT /var/run/docker.sock" python_config eq_refl eq_refl).
Defined.

Lemma missing_record_skips_cleanup_witness :
  final (runCode (rt := byte_runtime) None "python" "print('hi')" None 5 slow_docker
           "2024-01-01T00:00:05.000Z") = None ∧
  (container_stop ∉ calls (runCode (rt := byte_runtime) None "python" "print('hi')"
                             None 5 slow_docker "2024-01-01T00:00:05.000Z")) ∧
  (container_remove ∉ calls (runCode (rt := byte_runtime) None "python" "print('hi')"
                               None 5 slow_docker "2024-01-01T00:00:05.000Z")).
Proof.
  destruct (missing_record_skips_cleanup (rt := byte_runtime) "python" "print('hi')"
              None 5%Q slow_docker sample_container "2024-01-01T00:00:05.000Z"
              python_config eq_refl eq_refl) as (Hfinal & Hstop & Hremove).
  split; [exact Hfinal|]. split; [exact Hstop|].
  apply Hremove. unfold thrown_before_remove. simpl. auto.
Defined.


Lemma sample_world_settles :
  steps (rt := byte_runtime) sample_world settled_events = Some settled_world.
Proof. vm_compute. reflexivity. Defined.

Lemma lookup_returns_own_record_witness :
  id (set_failed sample_record "Execution timeout" "2024-01-01T00:00:05.000Z")
  = sample_uuid ∧
  schema_ok (set_failed sample_record "Execution timeout" "2024-01-01T00:00:05.000Z").
Proof.
  apply (lookup_returns_own_record (rt := byte_runtime) settled_world false sample_uuid).
  - exact settled_world_reachable.
  - vm_compute. reflexivity.
Defined.

Lemma request_fields_never_change_witness :
  ∃ e', memoryStorage (storage settled_world) !! sample_uuid = Some e' ∧
        same_request sample_record e'.
Proof.
  destruct (request_fields_never_change (rt := byte_runtime) sample_world settled_world
              settled_events sample_world_reachable sample_world_settles
              sample_uuid sample_record) as [H _].
  apply H. vm_compute. reflexivity.
Defined.

Lemma empty_world_reachable : reachable (rt := byte_runtime) initial.
Proof. exists []. reflexivity. Defined.

Lemma post_then_get_status_witness :
  (∃ object,
     get_status false sample_uuid
       (post_execute (python_request (Some 5%Q)) sample_uuid "2024-01-01T00:00:00.000Z"
          false empty_store).2
     = {| http_status := 200; body := status_record object |} ∧
     property "id" object = Some (js_string sample_uuid) ∧
     property "status" object = Some (js_string "pending") ∧
     property "endTime" object = Some js_null ∧
     property "output" object = Some js_null ∧
     property "error" object = Some js_null) ∧
  (∃ object,
     get_status false sample_uuid (storage sample_world)
     = {| http_status := 200; body := status_record object |} ∧
     property "id" object = Some (js_string sample_uuid) ∧
     property "status" object = Some (js_string "pending") ∧
     property "endTime" object = Some js_null) ∧
  (∃ object,
     get_status false sample_uuid (storage settled_world)
     = {| http_status := 200; body := status_record object |} ∧
     property "id" object = Some (js_string sample_uuid)) ∧
  get_status false "no-such-id" empty_store
  = {| http_status := 404;
       body := status_not_found "Failed to get execution status: Execution not found" |}.
Proof.
  destruct (post_then_get_status (rt := byte_runtime) (python_request (Some 5%Q))
              sample_uuid "2024-01-01T00:00:00.000Z" false empty_store)
    as (H1 & H2 & H3).
  refine (conj _ (conj _ (conj _ _))).
  - apply H1. reflexivity.
  - destruct (H2 initial [Fetch sample_uuid false] sample_world
                empty_world_reachable eq_refl eq_refl)
      as (object & Hget & Hid & Hpending).
    { vm_compute. reflexivity. }
    exists object. split; [exact Hget|]. split; [exact Hid|].
    apply Hpending. exists sample_task. vm_compute. reflexivity.
  - destruct (H2 initial
                [Fetch sample_uuid false;
                 Settle sample_uuid slow_docker "2024-01-01T00:00:05.000Z" false]
                settled_world empty_world_reachable eq_refl eq_refl)
      as (object & Hget & Hid & _).
    { vm_compute. reflexivity. }
    exists object. split; [exact Hget|exact Hid].
  - apply H3. reflexivity.
Defined.

Lemma unread_record_stays_pending_witness :
  ∃ w', steps (rt := byte_runtime) initial
          [Submit (python_request (Some 5%Q)) sample_uuid "2024-01-01T00:00:00.000Z" true;
           Fetch sample_uuid (negb true);
           Settle sample_uuid sample_docker "2024-01-01T00:00:01.000Z" true]
        = Some w' ∧
        storage w' = storeExecution true sample_uuid sample_record (storage initial) ∧
        getExecutionStatus true sample_uuid (storage w') = Resolved sample_record ∧
        tasks w' !! sample_uuid = None.
Proof.
  apply (unread_record_stays_pending (rt := byte_runtime) initial
           (python_request (Some 5%Q)) python_value sample_uuid
           "2024-01-01T00:00:00.000Z" "2024-01-01T00:00:01.000Z" true true
           sample_docker).
  - exact empty_world_reachable.
  - reflexivity.
  - apply not_elem_of_empty.
Defined.

Lemma redis_keeps_stale_pending_witness :
  ∃ w' e', steps (rt := byte_runtime) initial
             [Submit (python_request (Some 5%Q)) sample_uuid
                "2024-01-01T00:00:00.000Z" true;
              Fetch sample_uuid true;
              Settle sample_uuid sample_docker "2024-01-01T00:00:01.000Z" false]
           = Some w' ∧
           getExecutionStatus true sample_uuid (storage w') = Resolved sample_record ∧
           getExecutionStatus false sample_uuid (storage w') = Resolved e' ∧
           terminal (status e') ∧ endTime e' = Some "2024-01-01T00:00:01.000Z" ∧
           same_request sample_record e'.
Proof.
  apply (redis_keeps_stale_pending (rt := byte_runtime) initial
           (python_request (Some 5%Q)) python_value sample_uuid
           "2024-01-01T00:00:00.000Z" "2024-01-01T00:00:01.000Z" sample_docker).
  - reflexivity.
  - apply not_elem_of_empty.
Defined.

Lemma quoted_code_reads_back_witness :
  sh_unquote unquoted (echo_argument "print('hi')") = Some "print('hi')" ∧
  (escape_quotes "print(hi)" = escape_quotes "print(hi)" → "print(hi)" = "print(hi)").
Proof.
  destruct (quoted_code_reads_back python_config "print('hi')") as (_ & H & _).
  destruct (quoted_code_reads_back python_config "print(hi)") as (_ & _ & H').
  split; [exact H|]. exact (H' "print(hi)").
Defined.

Lemma cut_buffer_is_plain_text_witness :
  parseDockerLogs (rt := byte_runtime) (list_byte_of_string " hello ")
  = {| stdout := "hello"; stderr := "" |}.
Proof.
  rewrite (cut_buffer_is_plain_text (rt := byte_runtime) (list_byte_of_string " hello "));
    [reflexivity|].
  left. simpl. lia.
Defined.

Lemma no_log_is_never_silent_witness :
  stdout (getContainerOutput (rt := byte_runtime) unreadable_container).2 = "" ∧
  stderr (getContainerOutput (rt := byte_runtime) unreadable_container).2
  = "Container failed with exit code 2" ∧
  stderr (getContainerOutput (rt := byte_runtime) blind_container).2
  = "Error capturing output: no such container".
Proof.
  destruct (no_log_is_never_silent (rt := byte_runtime) unreadable_container)
    as (Hone & Hzero & Hcode & _); [left; by eexists|].
  destruct (no_log_is_never_silent (rt := byte_runtime) blind_container)
    as (_ & _ & _ & Hfail); [left; by eexists|].
  split; [|split].
  - destruct Hone as [[Hout _]|[Hout _]]; [|exact Hout].
    apply Hzero in Hout. discriminate Hout.
  - apply (Hcode 2%Z "logs unavailable"); [reflexivity|reflexivity|discriminate].
  - apply (Hfail "no such container"). reflexivity.
Defined.

Lemma settled_task_leaves_outcome_witness :
  ∃ w' e', step (rt := byte_runtime) sample_world
             (Settle sample_uuid sample_docker "2024-01-01T00:00:01.000Z" false)
           = Some w' ∧
           tasks w' !! sample_uuid = None ∧
           getExecutionStatus false sample_uuid (storage w') = Resolved e' ∧
           same_request sample_record e' ∧
           endTime e' = Some "2024-01-01T00:00:01.000Z" ∧
           (status e' = failed ↔ exception_thrown sample_docker) ∧
           (status e' = completed ↔ ¬ exception_thrown sample_docker).
Proof.
  apply (settled_task_leaves_outcome (rt := byte_runtime) sample_world sample_uuid
           sample_task shared_object sample_record sample_docker
           "2024-01-01T00:00:01.000Z" false).
  - exact sample_world_reachable.
  - vm_compute. reflexivity.
  - reflexivity.
  - vm_compute. reflexivity.
Defined.

Lemma framed_log_becomes_record_witness :
  ∃ e', final (runCode (rt := byte_runtime) (Some sample_record) "python" "print('hi')"
                 None 5 sample_docker "2024-01-01T00:00:01.000Z") = Some e' ∧
        status e' = completed ∧
        output e' = Some "hi!" ∧
        error e' = Some "oops" ∧
        endTime e' = Some "2024-01-01T00:00:01.000Z".
Proof.
  apply (framed_log_becomes_record (rt := byte_runtime) sample_record "python"
           "print('hi')" None 5%Q sample_docker sample_container
           "2024-01-01T00:00:01.000Z" python_config
           {| selector := x01; reserved := (x00, x00, x00);
              payload := list_byte_of_string " hi" |}
           [ {| selector := x02; reserved := (x00, x00, x00);
                payload := list_byte_of_string "oops" |};
             {| selector := x00; reserved := (x00, x00, x00);
                payload := list_byte_of_string "! " |} ]).
  - reflexivity.
  - unfold exits_and_is_removed. simpl. auto.
  - exact sample_frames_well_formed.
  - reflexivity.
Defined.

Lemma step_leaves_other_ids_witness :
  redis (storage settled_world) !! redis_key "another-id"
  = redis (storage sample_world) !! redis_key "another-id" ∧
  memoryStorage (storage settled_world) !! "another-id"
  = memoryStorage (storage sample_world) !! "another-id" ∧
  tasks settled_world !! "another-id" = tasks sample_world !! "another-id".
Proof.
  apply (step_leaves_other_ids (rt := byte_runtime) sample_world settled_world
           (Settle sample_uuid slow_docker "2024-01-01T00:00:05.000Z" false)
           "another-id").
  - vm_compute. reflexivity.
  - discriminate.
Defined.
